(** * word_frequencies: the ingest pipeline of [main.go]

    A shallow embedding of [parseTotal] and [runIngest] and of the library
    calls they make ([strconv.ParseInt], [strings.Split], [strings.Contains],
    [strings.ToLower], [sort.Slice], float64 division), followed by the
    properties the specification states about them.

    Conventions.
    - A Go [string] is a [String.string]: a sequence of bytes.
    - [int64] and [uint64] are [Z]; conversions and additions that wrap in Go
      carry their [mod 2^64] explicitly.
    - [float64] is [spec_float] at precision 53 and maximal exponent 1024, the
      binary64 format, with round-to-nearest-even operations.
    - The [map[string]uint64] of a worker is a [gmap string Z].
    - [strings.ToLower] decodes and encodes UTF-8 as Go does; the case table
      of package [unicode] it looks the runes above 0x7f up in is a
      parameter, [CaseTables].
    - The goroutines and the three channels are modelled by the sequence of
      values the collector receives, an interleaving of the workers' sends. *)

From Stdlib Require Import ZArith Ascii String List Bool Lia Permutation Sorted.
From Stdlib Require Import Floats.
From stdpp Require Import gmap strings list fin_maps.

Local Open Scope string_scope.
Local Open Scope list_scope.
Local Open Scope Z_scope.

(** ** Constants of [main.go] *)

Definition minYear : Z := 1960.
Definition minOccurrences : Z := 10000.

(** ** Errors

    [strconv.NumError] keeps the offending text and one of [ErrSyntax],
    [ErrRange]; [encoding/csv] reports [ErrFieldCount]; every other failure of
    a reader (gzip header, truncated stream, quoting) is an [IOError]; [EOF]
    is [io.EOF]. *)

Inductive numErrKind := ErrSyntax | ErrRange.

Inductive error :=
  | NumError (num : string) (kind : numErrKind)
  | ErrFieldCount
  | IOError (msg : string)
  | EOF.

Definition isParseError (e : error) : bool :=
  match e with NumError _ _ => true | _ => false end.

Inductive result (A : Type) :=
  | Ok (a : A)
  | Err (e : error).
Arguments Ok {A} a.
Arguments Err {A} e.

Definition isErr {A} (r : result A) : bool :=
  match r with Err _ => true | Ok _ => false end.

(** ** Machine integers *)

Definition uint64 (z : Z) : Z := z mod 2 ^ 64.

(** ** [float64] *)

Definition float64 := spec_float.

(** [float64(n)] for [n : uint64]: the nearest binary64 value, ties to even. *)
Definition float64_of_uint64 (n : Z) : float64 :=
  binary_normalize 53 1024 n 0 false.

Definition fdiv (x y : float64) : float64 := SFdiv 53 1024 x y.

(** [x > y] on float64: false as soon as one side is NaN. *)
Definition fgt (x y : float64) : bool := SFltb y x.

(** [x >= y] on float64. *)
Definition fge (x y : float64) : bool := SFleb y x.

Definition isNaN (x : float64) : bool :=
  match x with S754_nan => true | _ => false end.

(** ** [strings] *)

Definition byteOf (c : ascii) : Z := Z.of_N (N_of_ascii c).

(** [strings.Contains(s, string(c))] for a one-byte needle. *)
Fixpoint Contains (s : string) (c : ascii) : bool :=
  match s with
  | EmptyString => false
  | String a s' => if Ascii.eqb a c then true else Contains s' c
  end.

(** [strings.Split(s, string(sep))] for a one-byte separator: the pieces of
    [s] between the separators, always at least one piece. *)
Fixpoint Split (s : string) (sep : ascii) : list string :=
  match s with
  | EmptyString => [EmptyString]
  | String a s' =>
      if Ascii.eqb a sep then EmptyString :: Split s' sep
      else match Split s' sep with
           | p :: ps => String a p :: ps
           | [] => [String a EmptyString]
           end
  end.

Definition isUpper (c : ascii) : bool :=
  (65 <=? byteOf c) && (byteOf c <=? 90).

Definition lowerByte (c : ascii) : ascii :=
  if isUpper c then ascii_of_N (N_of_ascii c + 32) else c.

(** ** [unicode/utf8]

    The decoder and the encoder of package [unicode/utf8], as [range] over a
    string, [strings.Map] and [strings.Builder.WriteRune] use them. A rune is
    a [Z]. *)

Definition RuneError : Z := 0xFFFD.
Definition RuneSelf : Z := 0x80.
Definition MaxRune : Z := 0x10FFFF.
Definition surrogateMin : Z := 0xD800.
Definition surrogateMax : Z := 0xDFFF.

Definition maskx : Z := 0x3F.
Definition mask2 : Z := 0x1F.
Definition mask3 : Z := 0x0F.
Definition mask4 : Z := 0x07.

Definition tx : Z := 0x80.
Definition t2 : Z := 0xC0.
Definition t3 : Z := 0xE0.
Definition t4 : Z := 0xF0.

Definition rune1Max : Z := 0x7F.
Definition rune2Max : Z := 0x7FF.
Definition rune3Max : Z := 0xFFFF.

Definition locb : Z := 0x80.
Definition hicb : Z := 0xBF.

(** What the table [first] tells about a first byte, with the entry of
    [acceptRanges] it points to: an ASCII byte ([as]), a byte that starts no
    character ([xx]), or the size of the sequence and the range its second
    byte has to lie in. *)
Inductive firstInfo :=
  | AS
  | XX
  | Lead (size : nat) (lo hi : Z).

Definition first (s0 : Z) : firstInfo :=
  if s0 <? 0x80 then AS
  else if s0 <? 0xC2 then XX
  else if s0 <? 0xE0 then Lead 2 locb hicb
  else if s0 =? 0xE0 then Lead 3 0xA0 hicb
  else if s0 <? 0xED then Lead 3 locb hicb
  else if s0 =? 0xED then Lead 3 locb 0x9F
  else if s0 <? 0xF0 then Lead 3 locb hicb
  else if s0 =? 0xF0 then Lead 4 0x90 hicb
  else if s0 <? 0xF4 then Lead 4 locb hicb
  else if s0 =? 0xF4 then Lead 4 locb 0x8F
  else XX.

(** [s[i]], for an [i] the caller has checked. *)
Definition byteAt (s : string) (i : nat) : Z :=
  match String.get i s with
  | Some c => byteOf c
  | None => 0
  end.

(** [utf8.DecodeRuneInString]: the first character of [s] and its width in
    bytes; [RuneError] with width 1 where the encoding is invalid. *)
Definition DecodeRuneInString (s : string) : Z * nat :=
  match s with
  | EmptyString => (RuneError, 0%nat)
  | String c0 _ =>
      let s0 := byteOf c0 in
      match first s0 with
      | AS => (s0, 1%nat)
      | XX => (RuneError, 1%nat)
      | Lead sz lo hi =>
          if (String.length s <? sz)%nat then (RuneError, 1%nat)
          else
            let s1 := byteAt s 1 in
            if (s1 <? lo) || (hi <? s1) then (RuneError, 1%nat)
            else if (sz <=? 2)%nat then
              (Z.lor (Z.shiftl (Z.land s0 mask2) 6) (Z.land s1 maskx), 2%nat)
            else
              let s2 := byteAt s 2 in
              if (s2 <? locb) || (hicb <? s2) then (RuneError, 1%nat)
              else if (sz <=? 3)%nat then
                (Z.lor (Z.lor (Z.shiftl (Z.land s0 mask3) 12)
                              (Z.shiftl (Z.land s1 maskx) 6))
                       (Z.land s2 maskx), 3%nat)
              else
                let s3 := byteAt s 3 in
                if (s3 <? locb) || (hicb <? s3) then (RuneError, 1%nat)
                else
                  (Z.lor (Z.lor (Z.lor (Z.shiftl (Z.land s0 mask4) 18)
                                       (Z.shiftl (Z.land s1 maskx) 12))
                                (Z.shiftl (Z.land s2 maskx) 6))
                         (Z.land s3 maskx), 4%nat)
      end
  end.

(** [s[n:]] *)
Fixpoint skip (n : nat) (s : string) : string :=
  match n, s with
  | S n', String _ s' => skip n' s'
  | _, _ => s
  end.

(** The characters [for _, c := range s] goes through. Each step takes at
    least one byte, so [String.length s] steps are enough. *)
Fixpoint rangeFrom (steps : nat) (s : string) : list Z :=
  match steps, s with
  | S steps', String _ _ =>
      let (c, width) := DecodeRuneInString s in
      c :: rangeFrom steps' (skip width s)
  | _, _ => []
  end.

Definition runes (s : string) : list Z := rangeFrom (String.length s) s.

(** [byte(z)] *)
Definition toByte (z : Z) : ascii := ascii_of_N (Z.to_N (z mod 256)).

Definition bytes (l : list Z) : string :=
  fold_right (fun z s => String (toByte z) s) EmptyString l.

(** [utf8.AppendRune] on an empty buffer, which is what
    [strings.Builder.WriteRune] appends: a rune that is out of range or a
    surrogate is written as [RuneError]. *)
Definition EncodeRune (r : Z) : string :=
  if (0 <=? r) && (r <=? rune1Max) then bytes [r]
  else if (0 <=? r) && (r <=? rune2Max) then
    bytes [Z.lor t2 (Z.shiftr r 6); Z.lor tx (Z.land r maskx)]
  else
    let r :=
      if (r <? 0) || (MaxRune <? r) || ((surrogateMin <=? r) && (r <=? surrogateMax))
      then RuneError else r in
    if r <=? rune3Max then
      bytes [Z.lor t3 (Z.shiftr r 12);
             Z.lor tx (Z.land (Z.shiftr r 6) maskx);
             Z.lor tx (Z.land r maskx)]
    else
      bytes [Z.lor t4 (Z.shiftr r 18);
             Z.lor tx (Z.land (Z.shiftr r 12) maskx);
             Z.lor tx (Z.land (Z.shiftr r 6) maskx);
             Z.lor tx (Z.land r maskx)].

(** [strings.Map(mapping, s)]: every character of [s], invalid bytes being
    read as [RuneError], is replaced by the encoding of its image; a
    negative image is dropped. *)
Fixpoint mapRunes (mapping : Z -> Z) (cs : list Z) : string :=
  match cs with
  | [] => EmptyString
  | c :: cs' =>
      let r := mapping c in
      if 0 <=? r then String.append (EncodeRune r) (mapRunes mapping cs')
      else mapRunes mapping cs'
  end.

Definition Map (mapping : Z -> Z) (s : string) : string :=
  mapRunes mapping (runes s).

(** ** [unicode]

    [lowerRune r] is [unicode.To(unicode.LowerCase, r)], the lookup in
    [unicode.CaseRanges]. The table is data of the Go distribution and is
    left open: every definition below takes it as given, and what is proved
    holds for every table. *)
Class CaseTables := { lowerRune : Z -> Z }.

(** A table for running examples: it lowers U+00C9 (E with acute) to U+00E9,
    U+212A (the Kelvin sign) to 'k' and U+0130 (I with dot above) to 'i', as
    Go's does, and leaves every other rune as it is. *)
Definition exampleTables : CaseTables :=
  {| lowerRune := fun r =>
       if r =? 0xC9 then 0xE9
       else if r =? 0x212A then 0x6B
       else if r =? 0x130 then 0x69
       else r |}.

Section Model.
Context {caseTables : CaseTables}.

Definition MaxASCII : Z := 0x7F.

(** [unicode.ToLower] *)
Definition unicodeToLower (r : Z) : Z :=
  if r <=? MaxASCII then
    if (65 <=? r) && (r <=? 90) then r + 32 else r
  else lowerRune r.

(** ** [strings.ToLower] *)

(** No byte of [s] is [utf8.RuneSelf] or above. *)
Fixpoint isASCII (s : string) : bool :=
  match s with
  | EmptyString => true
  | String a s' => (byteOf a <? RuneSelf) && isASCII s'
  end.

(** The branch for a string of ASCII bytes: 'A'..'Z' are moved to
    'a'..'z'. *)
Fixpoint lowerASCII (s : string) : string :=
  match s with
  | EmptyString => EmptyString
  | String a s' => String (lowerByte a) (lowerASCII s')
  end.

(** [strings.ToLower]: the ASCII branch, or [strings.Map(unicode.ToLower, s)]
    as soon as one byte is above 0x7f. *)
Definition ToLower (s : string) : string :=
  if isASCII s then lowerASCII s else Map unicodeToLower s.

(** ** [strconv.ParseInt(s, 10, bitSize)] *)

Definition isDigit (c : ascii) : bool :=
  (48 <=? byteOf c) && (byteOf c <=? 57).

(** The digit loop of [ParseUint]: a byte that is no decimal digit is a syntax
    error, a value above [maxVal] a range error, whichever comes first. *)
Fixpoint parseDigits (maxVal : Z) (s : string) (n : Z) : numErrKind + Z :=
  match s with
  | EmptyString => inr n
  | String c s' =>
      if isDigit c then
        let n1 := n * 10 + (byteOf c - 48) in
        if maxVal <? n1 then inl ErrRange else parseDigits maxVal s' n1
      else inl ErrSyntax
  end.

Definition ParseUint (s : string) (bitSize : Z) : numErrKind + Z :=
  match s with
  | EmptyString => inl ErrSyntax
  | _ => parseDigits (2 ^ bitSize - 1) s 0
  end.

Definition ParseInt (s0 : string) (bitSize : Z) : result Z :=
  match s0 with
  | EmptyString => Err (NumError s0 ErrSyntax)
  | String c rest =>
      let neg := Ascii.eqb c "-"%char in
      let s := if Ascii.eqb c "+"%char || neg then rest else s0 in
      match ParseUint s bitSize with
      | inl ErrSyntax => Err (NumError s0 ErrSyntax)
      | inl ErrRange => Err (NumError s0 ErrRange)
      | inr un =>
          let cutoff := 2 ^ (bitSize - 1) in
          if negb neg && (cutoff <=? un) then Err (NumError s0 ErrRange)
          else if neg && (cutoff <? un) then Err (NumError s0 ErrRange)
          else Ok (if neg then - un else un)
      end
  end.

(** ** Readers

    An [io.Reader] behind a [csv.Reader] is given by what the successive calls
    of [Read] find: a record (its fields), or a failure of the underlying
    stream. When the list is used up [Read] returns [io.EOF]. *)

Inductive readResult :=
  | Rec (fields : list string)
  | ReadErr (e : error).

(** One call of [csv.Reader.Read] that finds [x]. With [FieldsPerRecord]
    positive, a record of another length comes with [ErrFieldCount]. *)
Definition Read (fieldsPerRecord : nat) (x : readResult) : result (list string) :=
  match x with
  | ReadErr e => Err e
  | Rec fields =>
      if (fieldsPerRecord =? 0)%nat || (length fields =? fieldsPerRecord)%nat
      then Ok fields else Err ErrFieldCount
  end.


(** A data file: [gzip.NewReader] may reject the header; then the rows. *)
Record source := {
  gzipErr : option error;
  rows : list readResult
}.

(** ** [parseTotal] *)

(** The [for _, total := range totals] loop, [totalWords] being the sum so
    far. *)
Fixpoint sumTotals (totals : list string) (totalWords : Z) : result Z :=
  match totals with
  | [] => Ok totalWords
  | total :: rest =>
      let yearTotals := Split total ","%char in
      if (length yearTotals <? 4)%nat then sumTotals rest totalWords
      else
        match ParseInt (nth 0 yearTotals "") 16 with
        | Err e => Err e
        | Ok year =>
            if year <? minYear then sumTotals rest totalWords
            else
              match ParseInt (nth 1 yearTotals "") 64 with
              | Err e => Err e
              | Ok yearTotal =>
                  sumTotals rest (uint64 (totalWords + uint64 yearTotal))
              end
        end
  end.

Definition parseTotal (src : list readResult) : result Z :=
  match src with
  | [] => Err EOF
  | x :: _ =>
      match Read 0 x with
      | Err e => Err e
      | Ok totals => sumTotals totals 0
      end
  end.

(** ** [runIngest]: one worker *)

Record wordStat := {
  word : string;
  frequency : float64
}.

(** The body of the read loop after a successful [r.Read()]: [Ok] is the map
    the next iteration starts from ([continue] leaves it as it was), [Err] is
    the error sent on [eChan]. *)
Definition ingestRecord (record : list string) (wordMap : gmap string Z)
  : result (gmap string Z) :=
  if Contains (nth 0 record "") "."%char then Ok wordMap
  else
    match ParseInt (nth 1 record "") 16 with
    | Err e => Err e
    | Ok year =>
        if year <? minYear then Ok wordMap
        else
          match ParseInt (nth 2 record "") 64 with
          | Err e => Err e
          | Ok count =>
              let word := ToLower (nth 0 (Split (nth 0 record "") "_"%char) "") in
              Ok (<[word := uint64 (default 0 (wordMap !! word) + uint64 count)]> wordMap)
          end
    end.

(** The read loop: [io.EOF] breaks out of it, any other error ends the
    worker. *)
Fixpoint ingest (rd : list readResult) (wordMap : gmap string Z)
  : result (gmap string Z) :=
  match rd with
  | [] => Ok wordMap
  | x :: rd' =>
      match Read 4 x with
      | Err EOF => Ok wordMap
      | Err e => Err e
      | Ok record =>
          match ingestRecord record wordMap with
          | Err e => Err e
          | Ok wordMap' => ingest rd' wordMap'
          end
      end
  end.

(** What a worker sends, and on which channel: [words], [errs], [done]. *)
Inductive event :=
  | EvWord (w : wordStat)
  | EvErr (e : error)
  | EvDone.

(** One iteration of [for word, occurrences := range wordMap]. *)
Definition emit (totalWords : Z) (kv : string * Z) : list event :=
  if minOccurrences <? kv.2 then
    [EvWord {| word := kv.1;
               frequency := fdiv (float64_of_uint64 kv.2)
                                 (float64_of_uint64 totalWords) |}]
  else [].

Definition emitAll (totalWords : Z) (kvs : list (string * Z)) : list event :=
  flat_map (emit totalWords) kvs ++ [EvDone].

(** The sends of the worker started for [src], in order. Go ranges over a map
    in an order of its choosing: [kvs] is any arrangement of the entries. *)
Inductive goroutine (totalWords : Z) (src : source) : list event -> Prop :=
  | goroutine_gzip e :
      gzipErr src = Some e ->
      goroutine totalWords src [EvErr e]
  | goroutine_read e :
      gzipErr src = None ->
      ingest (rows src) ∅ = Err e ->
      goroutine totalWords src [EvErr e]
  | goroutine_done wordMap kvs :
      gzipErr src = None ->
      ingest (rows src) ∅ = Ok wordMap ->
      kvs ≡ₚ map_to_list wordMap ->
      goroutine totalWords src (emitAll totalWords kvs).

(** ** [runIngest]: the collector *)

(** The channels are unbuffered, so the collector receives the workers' sends
    one at a time, those of one worker in their order. *)
Inductive interleave : list (list event) -> list event -> Prop :=
  | interleave_end ts :
      Forall (fun t => t = []) ts ->
      interleave ts []
  | interleave_recv ts1 ev t ts2 recv :
      interleave (ts1 ++ t :: ts2) recv ->
      interleave (ts1 ++ (ev :: t) :: ts2) (ev :: recv).

Inductive loopExit :=
  | Returned (e : error)
  | Broke (wordStats : list wordStat).

(** [OuterLoop] run on the values [recv] that the [select] receives; [None]
    when they are used up and the loop is still waiting. *)
Fixpoint OuterLoop (routines : Z) (wordStats : list wordStat) (recv : list event)
  : option loopExit :=
  match recv with
  | [] => None
  | EvWord w :: recv' => OuterLoop routines (wordStats ++ [w]) recv'
  | EvErr e :: _ => Some (Returned e)
  | EvDone :: recv' =>
      let routines := routines - 1 in
      if routines =? 0 then Some (Broke wordStats)
      else OuterLoop routines wordStats recv'
  end.

(** ** [sort.Slice]

    [insertionSort] is the routine [sort.Slice] runs on a short slice (at
    most 12 elements): element [i] is swapped towards the front while [less]
    puts it before its left neighbour. [before] holds [data[0..i)] from right
    to left. On longer slices [sort.Slice] partitions first; its documented
    result is the same up to the order of elements that [less] does not
    tell apart, which it leaves open. *)
Section Sort.
Context {A : Type} (less : A -> A -> bool).

Fixpoint sift (x : A) (before : list A) : list A :=
  match before with
  | [] => [x]
  | p :: ps => if less x p then p :: sift x ps else x :: p :: ps
  end.

Definition insertionSort (data : list A) : list A :=
  rev (fold_left (fun before x => sift x before) data []).

End Sort.

Definition less (a b : wordStat) : bool := fgt (frequency a) (frequency b).

Definition sortSlice (wordStats : list wordStat) : list wordStat :=
  insertionSort less wordStats.

(** [runIngest] given what the collector receives: [None] when it never
    returns, otherwise the pair it returns. *)
Definition runIngestOn (srcs : list source) (recv : list event)
  : option (list wordStat * option error) :=
  match OuterLoop (Z.of_nat (length srcs)) [] recv with
  | None => None
  | Some (Returned e) => Some ([], Some e)
  | Some (Broke wordStats) => Some (sortSlice wordStats, None)
  end.

(** The sequences the collector may receive for [srcs]. *)
Definition received (totalWords : Z) (srcs : list source) (recv : list event) : Prop :=
  exists traces,
    Forall2 (goroutine totalWords) srcs traces /\ interleave traces recv.

Definition runIngest (totalWords : Z) (srcs : list source)
  (out : list wordStat * option error) : Prop :=
  exists recv, received totalWords srcs recv /\ runIngestOn srcs recv = Some out.

(** * The specification's vocabulary *)

(** ** The ranker *)

(** [tiesByToken out]: of two entries with the same frequency the earlier one
    has the smaller or equal token, bytes compared in order. *)
Definition tiesByToken (out : list wordStat) : Prop :=
  forall l1 a l2 b l3,
    out = l1 ++ a :: l2 ++ b :: l3 ->
    frequency a = frequency b ->
    String.leb (word a) (word b) = true.

Definition statB : wordStat :=
  {| word := "b";
     frequency := fdiv (float64_of_uint64 20000) (float64_of_uint64 100000) |}.

Definition statA : wordStat :=
  {| word := "a";
     frequency := fdiv (float64_of_uint64 20000) (float64_of_uint64 100000) |}.

Definition statC : wordStat :=
  {| word := "c";
     frequency := fdiv (float64_of_uint64 30000) (float64_of_uint64 100000) |}.

(** Two sources, each with one token, counted alike. *)
Definition srcB : source :=
  {| gzipErr := None; rows := [Rec ["b"; "1960"; "20000"; "1"]] |}.

Definition srcA : source :=
  {| gzipErr := None; rows := [Rec ["a"; "1960"; "20000"; "1"]] |}.

(** ** The total-count provider *)

(** The specification's reading of one group ["year,total,pages,docs"]. *)
Definition subfields (group : string) : list string := Split group ","%char.

Definition groupYear (group : string) : result Z :=
  ParseInt (nth 0 (subfields group) "") 16.

Definition groupTotal (group : string) : result Z :=
  ParseInt (nth 1 (subfields group) "") 64.

(** A group counts when it has at least 4 subfields and a year from 1960. *)
Definition counted (group : string) : bool :=
  (4 <=? length (subfields group))%nat &&
  match groupYear group with Ok year => minYear <=? year | Err _ => false end.

(** A group with at least 4 subfields is malformed when its year is no 16-bit
    integer or, the year being from 1960, its total is no 64-bit integer. *)
Definition malformed (group : string) : bool :=
  (4 <=? length (subfields group))%nat &&
  match groupYear group with
  | Err _ => true
  | Ok year => (minYear <=? year) && isErr (groupTotal group)
  end.

Definition totalOf (group : string) : Z :=
  match groupTotal group with Ok t => t | Err _ => 0 end.

Definition sumZ (l : list Z) : Z := fold_right Z.add 0 l.

Definition countedSum (totals : list string) : Z :=
  sumZ (map totalOf (List.filter counted totals)).

(** ** Tokens *)

(** The bytes of [s] before the first [c]; all of [s] when it has no [c]. *)
Fixpoint prefixBefore (c : ascii) (s : string) : string :=
  match s with
  | EmptyString => EmptyString
  | String a s' => if Ascii.eqb a c then EmptyString else String a (prefixBefore c s')
  end.

(** The canonical token in the specification's words. *)
Definition canonical (raw : string) : string :=
  ToLower (prefixBefore "_"%char raw).

(** [hasUpper s]: some byte of [s] is one of 'A'..'Z'. *)
Fixpoint hasUpper (s : string) : bool :=
  match s with
  | EmptyString => false
  | String a s' => isUpper a || hasUpper s'
  end.

(** ** What is known of the case table

    Two facts about [unicode.ToLower] on the runes above 0x7f that the
    properties of lower-cased tokens rest on. They are stated here as
    conditions on the table. *)

(** [utf8.ValidRune] *)
Definition validRune (r : Z) : Prop :=
  0 <= r < surrogateMin \/ surrogateMax < r <= MaxRune.

(** A rune above 0x7f is lowered to a rune above 0x7f or to one of the
    letters 'a'..'z' (as U+212A is to 'k'). *)
Definition lowersToLetters : Prop :=
  forall r, RuneSelf <= r -> 0 <= lowerRune r < RuneSelf ->
            97 <= lowerRune r <= 122.

(** The lower case of a rune above 0x7f is a rune that [unicode.ToLower]
    leaves as it is. *)
Definition lowerIdempotent : Prop :=
  forall r, RuneSelf <= r -> validRune r ->
            validRune (lowerRune r) /\
            unicodeToLower (lowerRune r) = lowerRune r.


(** ** Rows *)

(** A row is accepted when its token has no period, its year is a number
    from 1960 on and its count is a number; it then counts for its canonical
    token. *)
Definition accepted (record : list string) : option (string * Z) :=
  if Contains (nth 0 record "") "."%char then None
  else
    match ParseInt (nth 1 record "") 16, ParseInt (nth 2 record "") 64 with
    | Ok year, Ok count =>
        if minYear <=? year then Some (canonical (nth 0 record ""), count) else None
    | _, _ => None
    end.

(** What a read adds to the count of [token]. *)
Definition contribution (token : string) (x : readResult) : Z :=
  match x with
  | Rec record =>
      match accepted record with
      | Some (t, count) => if String.eqb t token then count else 0
      | None => 0
      end
  | ReadErr _ => 0
  end.

(** The summed count of [token] over a source. *)
Definition summedCount (token : string) (rd : list readResult) : Z :=
  sumZ (map (contribution token) rd).

(** ** Workers *)

(** The entries among the sends of a worker. *)
Fixpoint wordsOf (tr : list event) : list wordStat :=
  match tr with
  | [] => []
  | EvWord w :: tr' => w :: wordsOf tr'
  | _ :: tr' => wordsOf tr'
  end.

(** The entry the specification asks for a token counted [occurrences]
    times. *)
Definition statOf (totalWords : Z) (token : string) (occurrences : Z) : wordStat :=
  {| word := token;
     frequency := fdiv (float64_of_uint64 occurrences) (float64_of_uint64 totalWords) |}.

(** What the worker of a source ends with: the error it sends, if any. *)
Definition workerError (src : source) : option error :=
  match gzipErr src with
  | Some e => Some e
  | None => match ingest (rows src) ∅ with Err e => Some e | Ok _ => None end
  end.

(** A source with one token just above the threshold and one exactly on it. *)
Definition srcBoundary : source :=
  {| gzipErr := None;
     rows := [Rec ["dog"; "1960"; "6000"; "1"];
              Rec ["cat"; "1970"; "10000"; "1"];
              Rec ["Dog_NOUN"; "1961"; "4001"; "1"]] |}.

Definition mapBoundary : gmap string Z :=
  <["dog" := 10001]> (<["cat" := 10000]> ∅).

(** ** Emitted tokens *)

(** The invariant the code keeps for a token: no period, no underscore, no
    letter 'A'..'Z', and lower case: [strings.ToLower] leaves it as it is. *)
Definition cleanToken (token : string) : Prop :=
  Contains token "."%char = false /\
  Contains token "_"%char = false /\
  hasUpper token = false /\
  ToLower token = token.

(** The first field of every row of [rd] is made of bytes below 0x80. *)
Definition asciiTokens (rd : list readResult) : bool :=
  forallb (fun x => match x with
                    | Rec record => isASCII (nth 0 record "")
                    | ReadErr _ => true
                    end) rd.

(** A source whose only row carries a bare part-of-speech tag. *)
Definition srcNoun : source :=
  {| gzipErr := None; rows := [Rec ["_NOUN"; "1960"; "20000"; "1"]] |}.

(** "École" and "école" in UTF-8, and U+212A, the Kelvin sign. *)
Definition Ecole : string := String "195"%char (String "137"%char "cole").
Definition ecole : string := String "195"%char (String "169"%char "cole").
Definition kelvin : string :=
  String "226"%char (String "132"%char (String "170"%char EmptyString)).

(** A source that has "École", with a tag, and "école". *)
Definition srcEcole : source :=
  {| gzipErr := None;
     rows := [Rec [String.append Ecole "_NOUN"; "1960"; "6000"; "1"];
              Rec [ecole; "1961"; "5000"; "1"]] |}.

(** A source whose only token is the Kelvin sign. *)
Definition srcKelvin : source :=
  {| gzipErr := None; rows := [Rec [kelvin; "1960"; "20000"; "1"]] |}.

(** ** The collector *)

(** The number of completion signals among the sends. *)
Fixpoint countDone (recv : list event) : Z :=
  match recv with
  | [] => 0
  | EvDone :: recv' => 1 + countDone recv'
  | _ :: recv' => countDone recv'
  end.

Definition isEvErr (ev : event) : bool :=
  match ev with EvErr _ => true | _ => false end.

(** The number of sources whose worker fails. *)
Definition failures (srcs : list source) : nat :=
  length (List.filter (fun src => bool_decide (workerError src <> None)) srcs).

(** A source cut short after its first row, and a source with a year that is
    no number. *)
Definition srcTruncated : source :=
  {| gzipErr := None;
     rows := [Rec ["dog"; "1960"; "20000"; "1"]; ReadErr (IOError "unexpected EOF")] |}.

Definition srcBadYear : source :=
  {| gzipErr := None; rows := [Rec ["cat"; "196o"; "20000"; "1"]] |}.

Definition srcDog : source :=
  {| gzipErr := None; rows := [Rec ["dog"; "1960"; "20000"; "1"]] |}.

(** ** The end-to-end example *)


(** One source with "dog" counted 60 times in 1960 and 50 times in 1961. *)
Definition srcExample : source :=
  {| gzipErr := None;
     rows := [Rec ["dog"; "1960"; "60"; "1"]; Rec ["dog"; "1961"; "50"; "1"]] |}.

(** The float64 nearest to 1.1, which is what [1.1] denotes in Go:
    4953959590107546 / 2^52. *)
Definition float64_1_1 : float64 := S754_finite false 4953959590107546 (-52).

(** ** The threshold as a parameter

    [minOccurrences] is a constant of the program, 10000 in one version of
    the file and 1000 in others. [emitAt], [goroutineAt] and [runIngestAt]
    are [emit], [goroutine] and [runIngest] with the constant set to
    [threshold]. *)

Definition emitAt (threshold totalWords : Z) (kv : string * Z) : list event :=
  if threshold <? kv.2 then
    [EvWord {| word := kv.1;
               frequency := fdiv (float64_of_uint64 kv.2)
                                 (float64_of_uint64 totalWords) |}]
  else [].

Definition emitAllAt (threshold totalWords : Z) (kvs : list (string * Z)) : list event :=
  flat_map (emitAt threshold totalWords) kvs ++ [EvDone].

Inductive goroutineAt (threshold totalWords : Z) (src : source) : list event -> Prop :=
  | goroutineAt_gzip e :
      gzipErr src = Some e ->
      goroutineAt threshold totalWords src [EvErr e]
  | goroutineAt_read e :
      gzipErr src = None ->
      ingest (rows src) ∅ = Err e ->
      goroutineAt threshold totalWords src [EvErr e]
  | goroutineAt_done wordMap kvs :
      gzipErr src = None ->
      ingest (rows src) ∅ = Ok wordMap ->
      kvs ≡ₚ map_to_list wordMap ->
      goroutineAt threshold totalWords src (emitAllAt threshold totalWords kvs).

Definition runIngestAt (threshold totalWords : Z) (srcs : list source)
  (out : list wordStat * option error) : Prop :=
  exists traces recv,
    Forall2 (goroutineAt threshold totalWords) srcs traces /\
    interleave traces recv /\
    runIngestOn srcs recv = Some out.
(** * Further vocabulary *)

(** ** Errors of a totals line *)

(** The text [parseTotal] stumbles over in a malformed group: its year, or
    its total when the year is a number. *)
Definition offending (group : string) : string :=
  if isErr (groupYear group) then nth 0 (subfields group) ""
  else nth 1 (subfields group) "".

(** ** Errors of a row *)

(** The error that reading [x] ends a worker with, if any. *)
Definition rowError (x : readResult) : option error :=
  match Read 4 x with
  | Err EOF => None
  | Err e => Some e
  | Ok record =>
      match ingestRecord record ∅ with
      | Err e => Some e
      | Ok _ => None
      end
  end.

(** ** The map of a worker *)

(** Some row of the source is accepted for [token]. *)
Definition seen (token : string) (rd : list readResult) : bool :=
  existsb (fun x =>
             match x with
             | Rec record =>
                 match accepted record with
                 | Some (t, _) => String.eqb t token
                 | None => false
                 end
             | ReadErr _ => false
             end) rd.

(** ** Sources *)

(** The worker of [src] sends an entry for [token]. *)
Definition emits (src : source) (token : string) : bool :=
  match workerError src, ingest (rows src) ∅ with
  | None, Ok wordMap =>
      match wordMap !! token with
      | Some occurrences => minOccurrences <? occurrences
      | None => false
      end
  | _, _ => false
  end.

(** The entries of [out] for [token]. *)
Definition entriesFor (token : string) (out : list wordStat) : list wordStat :=
  List.filter (fun w => String.eqb (word w) token) out.

(** ** Frequencies *)

(** [x] is +0, a positive finite number or +Inf. *)
Definition nonNegative (x : float64) : bool :=
  match x with
  | S754_zero false | S754_infinity false | S754_finite false _ _ => true
  | _ => false
  end.

(** * [main]

    The program around [parseTotal] and [runIngest]. What the operating
    system answers is given by a [world]; [FormatFloat f] stands for
    [strconv.FormatFloat(f, 'f', -1, 64)]. *)

Definition totalsGlob : string := "googlebooks-eng-us-all-totalcounts-*.txt".
Definition dataGlob : string := "googlebooks-eng-us-all-1gram-*.gz".

Definition csvOut (FormatFloat : float64 -> string) (w : wordStat) : list string :=
  [word w; FormatFloat (frequency w)].

Record world := {
  (** [os.Args] *)
  Args : list string;
  Getwd : result string;
  EvalSymlinks : string -> result string;
  (** [filepath.Glob(filepath.Join(wd, dir, pattern))] *)
  Glob : string -> string -> string -> result (list string);
  (** [os.Open] of the totals file, as [csv.NewReader] reads it *)
  OpenTotals : string -> result (list readResult);
  (** [os.Open] of a data file, as [gzip.NewReader] and [csv.NewReader] read it *)
  OpenData : string -> result source;
  (** [os.Create] *)
  Create : string -> option error;
  (** what the n-th [w.Write] returns *)
  WriteErr : nat -> option error;
  (** [w.Error()] after [w.Flush()] *)
  FlushErr : option error
}.

(** What [main] prints before [os.Exit(1)]. *)
Inductive message :=
  | Printed (e : error)
  | ExactlyOneTotals.

(** How [main] ends; [handed] are the records the csv writer accepted.
    [Panics]: an index of [os.Args] is out of range. [Blocks]: [runIngest]
    waits in its [select] with no worker to send anything; nothing is printed
    or created by [main] (the Go runtime stops such a program with its
    deadlock report). *)
Inductive outcome :=
  | Exit1 (printed : message) (handed : list (list string))
  | Returns (handed : list (list string))
  | Panics
  | Blocks.

(** The loop that opens the data files. *)
Fixpoint openAll (w : world) (fileNames : list string) (files : list source)
  : error + list source :=
  match fileNames with
  | [] => inr files
  | fileName :: rest =>
      match OpenData w fileName with
      | Err e => inl e
      | Ok file => openAll w rest (files ++ [file])
      end
  end.

(** [main] up to the call of [runIngest]: the way it ends, or the arguments
    of the call. The error of [parseTotal] is assigned to [err] and
    overwritten by the next [filepath.Glob] without being looked at; [total]
    is then 0. *)
Definition prepare (w : world) : outcome + (Z * list source) :=
  match Getwd w with
  | Err e => inl (Exit1 (Printed e) [])
  | Ok wd =>
  match EvalSymlinks w wd with
  | Err e => inl (Exit1 (Printed e) [])
  | Ok wd =>
  match nth_error (Args w) 1 with
  | None => inl Panics
  | Some dir =>
  match Glob w wd dir totalsGlob with
  | Err e => inl (Exit1 (Printed e) [])
  | Ok totalsFiles =>
  if negb (length totalsFiles =? 1)%nat then inl (Exit1 ExactlyOneTotals [])
  else
  match OpenTotals w (nth 0 totalsFiles "") with
  | Err e => inl (Exit1 (Printed e) [])
  | Ok totalsFile =>
  let total := match parseTotal totalsFile with Ok total => total | Err _ => 0 end in
  match Glob w wd dir dataGlob with
  | Err e => inl (Exit1 (Printed e) [])
  | Ok fileNames =>
  match openAll w fileNames [] with
  | inl e => inl (Exit1 (Printed e) [])
  | inr files => inr (total, files)
  end end end end end end end.

(** The loop over [words], [n] writes having been made. *)
Fixpoint writeAll (FormatFloat : float64 -> string) (w : world)
    (words : list wordStat) (n : nat) (handed : list (list string)) : outcome :=
  match words with
  | [] =>
      match FlushErr w with
      | Some e => Exit1 (Printed e) handed
      | None => Returns handed
      end
  | wordRecord :: rest =>
      match WriteErr w n with
      | Some e => Exit1 (Printed e) handed
      | None =>
          writeAll FormatFloat w rest (S n) (handed ++ [csvOut FormatFloat wordRecord])
      end
  end.

(** [main] from the return of [runIngest] on. *)
Definition finish (FormatFloat : float64 -> string) (w : world)
    (res : list wordStat * option error) : outcome :=
  match res with
  | (_, Some e) => Exit1 (Printed e) []
  | (words, None) =>
      match nth_error (Args w) 2 with
      | None => Panics
      | Some outFile =>
          match Create w outFile with
          | Some e => Exit1 (Printed e) []
          | None => writeAll FormatFloat w words 0 []
          end
      end
  end.

(** The ways [main] can end in [w]. *)
Definition main (FormatFloat : float64 -> string) (w : world) (o : outcome) : Prop :=
  match prepare w with
  | inl o' => o = o'
  | inr (total, files) =>
      (exists res, runIngest total files res /\ o = finish FormatFloat w res) \/
      ((forall recv, received total files recv -> runIngestOn files recv = None) /\
       o = Blocks)
  end.

(** The totals file [main] opens, when it gets that far. *)
Definition totalsFileOf (w : world) : option (list readResult) :=
  match Getwd w with
  | Err _ => None
  | Ok wd =>
  match EvalSymlinks w wd with
  | Err _ => None
  | Ok wd =>
  match nth_error (Args w) 1 with
  | None => None
  | Some dir =>
  match Glob w wd dir totalsGlob with
  | Ok [name] => match OpenTotals w name with Ok f => Some f | Err _ => None end
  | _ => None
  end end end end.

(** A world with one data file, a totals file that is no csv of numbers, and
    no trouble otherwise. *)
Definition worldBadTotals : world :=
  {| Args := ["prog"; "data"; "out.csv"];
     Getwd := Ok "/home";
     EvalSymlinks := fun wd => Ok wd;
     Glob := fun _ _ pattern =>
               if String.eqb pattern totalsGlob then Ok ["totals"] else Ok ["a.gz"];
     OpenTotals := fun _ => Ok [Rec ["1960,many,5,2"]];
     OpenData := fun _ => Ok srcDog;
     Create := fun _ => None;
     WriteErr := fun _ => None;
     FlushErr := None |}.

(** The same world with no data file, and with no output argument. *)
Definition worldNoData : world :=
  {| Args := Args worldBadTotals;
     Getwd := Getwd worldBadTotals;
     EvalSymlinks := EvalSymlinks worldBadTotals;
     Glob := fun _ _ pattern =>
               if String.eqb pattern totalsGlob then Ok ["totals"] else Ok [];
     OpenTotals := OpenTotals worldBadTotals;
     OpenData := OpenData worldBadTotals;
     Create := Create worldBadTotals;
     WriteErr := WriteErr worldBadTotals;
     FlushErr := FlushErr worldBadTotals |}.

Definition worldNoOutArg : world :=
  {| Args := ["prog"; "data"];
     Getwd := Getwd worldBadTotals;
     EvalSymlinks := EvalSymlinks worldBadTotals;
     Glob := Glob worldBadTotals;
     OpenTotals := OpenTotals worldBadTotals;
     OpenData := OpenData worldBadTotals;
     Create := Create worldBadTotals;
     WriteErr := WriteErr worldBadTotals;
     FlushErr := FlushErr worldBadTotals |}.

(** A stand-in for [FormatFloat] that tells +Inf from the rest. *)
Definition formatInf (x : float64) : string :=
  match x with S754_infinity false => "+Inf" | _ => "finite" end.

End Model.

(** * The sequential version of [main.go] that groups consecutive rows

    [runIngest(args)] of that version reads the data files one after the
    other, without gzip, and keeps no map: it compares the token of each row
    with the last entry of [wordStats] and adds the count to [occurrences]
    while they agree. *)

Module Grouped.
Section Tables.
Context {caseTables : CaseTables}.

(** [strings.ContainsAny(s, chars)] *)
Fixpoint ContainsAny (s chars : string) : bool :=
  match s with
  | EmptyString => false
  | String a s' => Contains chars a || ContainsAny s' chars
  end.

(** The zero value of a [float64] field. *)
Definition zero : float64 := S754_zero false.

(** [wordStats] and [occurrences], the variables that live across rows and
    files. *)
Record state := {
  wordStats : list wordStat;
  occurrences : Z
}.

Definition initial : state := {| wordStats := []; occurrences := 0 |}.

(** The body of the read loop after a successful [r.Read()]. *)
Definition ingestRecord (totalWords : Z) (record : list string) (st : state)
  : result state :=
  if ContainsAny (nth 0 record "") "._" then Ok st
  else
    match ParseInt (nth 1 record "") 16 with
    | Err e => Err e
    | Ok year =>
        if year <? minYear then Ok st
        else
          match ParseInt (nth 2 record "") 64 with
          | Err e => Err e
          | Ok count =>
              let wd := ToLower (nth 0 (Split (nth 0 record "") "_"%char) "") in
              match last (wordStats st) with
              | Some w =>
                  if String.eqb (word w) wd then
                    Ok {| wordStats := wordStats st;
                          occurrences := uint64 (occurrences st + uint64 count) |}
                  else
                    Ok {| wordStats :=
                            removelast (wordStats st)
                            ++ [{| word := word w;
                                   frequency := fdiv (float64_of_uint64 (occurrences st))
                                                     (float64_of_uint64 totalWords) |};
                                {| word := wd; frequency := zero |}];
                          occurrences := uint64 count |}
              | None =>
                  Ok {| wordStats := [{| word := wd; frequency := zero |}];
                        occurrences := uint64 count |}
              end
          end
    end.

(** The read loop over one file. *)
Fixpoint ingest (totalWords : Z) (rd : list readResult) (st : state) : result state :=
  match rd with
  | [] => Ok st
  | x :: rd' =>
      match Read 4 x with
      | Err EOF => Ok st
      | Err e => Err e
      | Ok record =>
          match ingestRecord totalWords record st with
          | Err e => Err e
          | Ok st' => ingest totalWords rd' st'
          end
      end
  end.

(** The loop over the files; a file that cannot be opened ends it. What it
    returns is what is handed to [sort.Sort]. *)
Fixpoint ingestFiles (totalWords : Z) (files : list (result (list readResult)))
    (st : state) : result state :=
  match files with
  | [] => Ok st
  | Err e :: _ => Err e
  | Ok rd :: files' =>
      match ingest totalWords rd st with
      | Err e => Err e
      | Ok st' => ingestFiles totalWords files' st'
      end
  end.

(** ** Vocabulary *)

(** The token and count of a row this version accepts. *)
Definition accepted (record : list string) : option (string * Z) :=
  if ContainsAny (nth 0 record "") "._" then None
  else
    match ParseInt (nth 1 record "") 16, ParseInt (nth 2 record "") 64 with
    | Ok year, Ok count =>
        if minYear <=? year then Some (ToLower (nth 0 record ""), count) else None
    | _, _ => None
    end.

(** The accepted rows of a list of records, in order. *)
Definition acceptedRows (records : list (list string)) : list (string * Z) :=
  omap accepted records.

(** Consecutive rows with the same token, put together: each group is a
    token and the counts of its rows. *)
Fixpoint groupAdjacent (rows : list (string * Z)) : list (string * list Z) :=
  match rows with
  | [] => []
  | (wd, c) :: rest =>
      match groupAdjacent rest with
      | (wd', cs) :: groups =>
          if String.eqb wd wd' then (wd, c :: cs) :: groups
          else (wd, [c]) :: (wd', cs) :: groups
      | [] => [(wd, [c])]
      end
  end.

(** The entries this version ends with for the groups [groups]: the
    frequency of every group but the last, and the last token at 0. *)
Definition entriesOf (totalWords : Z) (groups : list (string * list Z)) : list wordStat :=
  match last groups with
  | None => []
  | Some (wd, _) =>
      map (fun g => {| word := fst g;
                       frequency := fdiv (float64_of_uint64 (uint64 (sumZ (snd g))))
                                         (float64_of_uint64 totalWords) |})
          (removelast groups)
      ++ [{| word := wd; frequency := zero |}]
  end.

End Tables.
End Grouped.

(** No two neighbours of [l] are equal. *)
Fixpoint noRepeat (l : list string) : Prop :=
  match l with
  | a :: (b :: _) as l' => a <> b /\ noRepeat l'
  | _ => True
  end.

(** Two files: "dog" ends the first and starts the second, "cat" comes
    back after it, and "École" is followed by "école". *)
Definition groupedFiles : list (list (list string)) :=
  [[["cat"; "1960"; "3"; "1"]; ["Dog"; "1960"; "60"; "1"]];
   [["dog"; "1961"; "50"; "1"]; ["dog_NOUN"; "1961"; "7"; "1"];
    ["cat"; "1962"; "4"; "1"];
    [Ecole; "1962"; "1"; "1"]; [ecole; "1963"; "2"; "1"]]].


(** The state after [groupedFiles]: "Dog" and "dog" are one run across the
    two files, "cat" has two entries, "École" and "école" are one run, the
    last one. *)
Definition groupedState : Grouped.state :=
  {| Grouped.wordStats :=
       [statOf 100 "cat" 3; statOf 100 "dog" 110; statOf 100 "cat" 4;
        {| word := ecole; frequency := Grouped.zero |}];
     Grouped.occurrences := 3 |}.

(** * The version of [main.go] that drops tokens with non-word characters

    The worker of this version of [runIngest] has no check for a period: it
    parses the year first, computes the token, drops the row when
    [wordRegex], the regular expression [\W], matches the token, and only
    then parses the count. The collector and the sort are those above. *)

Module WordsOnly.
Section Tables.
Context {caseTables : CaseTables}.

Definition isLower (c : ascii) : bool :=
  (97 <=? byteOf c) && (byteOf c <=? 122).

(** A byte of the class [\w] of Go's [regexp]: one of [0-9A-Za-z_]. *)
Definition isWordByte (c : ascii) : bool :=
  isDigit c || isUpper c || isLower c || Ascii.eqb c "_"%char.

(** [wordRegex.MatchString(s)] for [wordRegex = regexp.MustCompile(`\W`)]:
    some character of [s] is outside [\w]. The class holds ASCII characters
    only, and a byte above 0x7f is part of a character above 0x7f (or of an
    invalid encoding, which matches as U+FFFD), so the match is decided byte
    by byte. *)
Fixpoint MatchString (s : string) : bool :=
  match s with
  | EmptyString => false
  | String a s' => negb (isWordByte a) || MatchString s'
  end.

(** The body of the read loop after a successful [r.Read()]. *)
Definition ingestRecord (record : list string) (wordMap : gmap string Z)
  : result (gmap string Z) :=
  match ParseInt (nth 1 record "") 16 with
  | Err e => Err e
  | Ok year =>
      if year <? minYear then Ok wordMap
      else
        let word := ToLower (nth 0 (Split (nth 0 record "") "_"%char) "") in
        if MatchString word then Ok wordMap
        else
          match ParseInt (nth 2 record "") 64 with
          | Err e => Err e
          | Ok count =>
              Ok (<[word := uint64 (default 0 (wordMap !! word) + uint64 count)]> wordMap)
          end
  end.

(** The read loop. *)
Fixpoint ingest (rd : list readResult) (wordMap : gmap string Z)
  : result (gmap string Z) :=
  match rd with
  | [] => Ok wordMap
  | x :: rd' =>
      match Read 4 x with
      | Err EOF => Ok wordMap
      | Err e => Err e
      | Ok record =>
          match ingestRecord record wordMap with
          | Err e => Err e
          | Ok wordMap' => ingest rd' wordMap'
          end
      end
  end.

(** The sends of the worker started for [src], in order; [kvs] is any
    arrangement of the entries of its map. *)
Inductive goroutine (totalWords : Z) (src : source) : list event -> Prop :=
  | worker_gzip e :
      gzipErr src = Some e ->
      goroutine totalWords src [EvErr e]
  | worker_read e :
      gzipErr src = None ->
      ingest (rows src) ∅ = Err e ->
      goroutine totalWords src [EvErr e]
  | worker_done wordMap kvs :
      gzipErr src = None ->
      ingest (rows src) ∅ = Ok wordMap ->
      kvs ≡ₚ map_to_list wordMap ->
      goroutine totalWords src (emitAll totalWords kvs).

(** ** Vocabulary *)

(** Every byte of [s] is a digit or one of 'a'..'z'. *)
Fixpoint lowerAlnum (s : string) : bool :=
  match s with
  | EmptyString => true
  | String a s' => (isDigit a || isLower a) && lowerAlnum s'
  end.

(** A row both versions of the worker look at in the same way: no period
    anywhere in its first field, and only word characters before the first
    underscore. *)
Definition plainRow (x : readResult) : bool :=
  match x with
  | Rec record =>
      negb (Contains (nth 0 record "") "."%char)
      && negb (MatchString (ToLower (nth 0 (Split (nth 0 record "") "_"%char) "")))
  | ReadErr _ => true
  end.

(** A source with a tagged token, a token with an apostrophe whose count is
    no number, and a tagged token whose tag holds a period. *)
Definition srcDoh : source :=
  {| gzipErr := None;
     rows := [Rec ["Dog_NOUN"; "1960"; "20000"; "1"];
              Rec ["d'oh"; "1960"; "many"; "1"];
              Rec ["dog_N.N"; "1961"; "5"; "1"]] |}.

End Tables.
End WordsOnly.
(** * UTF-8 and [strings.ToLower] *)

Section Utf8Facts.
Context {caseTables : CaseTables}.

(** ** Bytes *)

Lemma byteOf_range (c : ascii) : 0 <= byteOf c < 256.
Proof.
  unfold byteOf. pose proof (N_ascii_bounded c). lia.
Qed.

Lemma byteOf_toByte (z : Z) : byteOf (toByte z) = z mod 256.
Proof.
  unfold byteOf, toByte.
  pose proof (Z.mod_pos_bound z 256 ltac:(lia)).
  rewrite N_ascii_embedding by lia. lia.
Qed.

Lemma toByte_byteOf (c : ascii) : toByte (byteOf c) = c.
Proof.
  unfold toByte. pose proof (byteOf_range c).
  rewrite Z.mod_small by lia. unfold byteOf.
  rewrite N2Z.id. apply ascii_N_embedding.
Qed.

Lemma byteOf_inj (a b : ascii) : byteOf a = byteOf b -> a = b.
Proof.
  intros E. rewrite <- (toByte_byteOf a), <- (toByte_byteOf b), E. reflexivity.
Qed.


Lemma lowerByte_idem (a : ascii) : lowerByte (lowerByte a) = lowerByte a.
Proof. destruct a as [[] [] [] [] [] [] [] []]; reflexivity. Qed.

Lemma lowerByte_not_upper (a : ascii) : isUpper (lowerByte a) = false.
Proof. destruct a as [[] [] [] [] [] [] [] []]; reflexivity. Qed.

Lemma lowerByte_period (a : ascii) :
  Ascii.eqb (lowerByte a) "."%char = Ascii.eqb a "."%char.
Proof. destruct a as [[] [] [] [] [] [] [] []]; reflexivity. Qed.

Lemma lowerByte_underscore (a : ascii) :
  Ascii.eqb (lowerByte a) "_"%char = Ascii.eqb a "_"%char.
Proof. destruct a as [[] [] [] [] [] [] [] []]; reflexivity. Qed.

(** ** Bit operations as arithmetic *)

Lemma lor_disjoint (a b n : Z) :
  0 <= n -> 0 <= b < 2 ^ n -> Z.lor (a * 2 ^ n) b = a * 2 ^ n + b.
Proof.
  intros Hn Hb.
  assert (E : Z.land (a * 2 ^ n) b = 0).
  { apply Z.bits_inj'. intros i Hi. rewrite Z.land_spec, Z.bits_0.
    destruct (Z.lt_ge_cases i n) as [Hlt|Hge].
    - rewrite Z.mul_pow2_bits_low by lia. reflexivity.
    - rewrite <- (Z.mod_small b (2 ^ n)) by lia.
      rewrite Z.mod_pow2_bits_high by lia. apply andb_false_r. }
  pose proof (Z.add_lor_land (a * 2 ^ n) b) as Hadd. lia.
Qed.

Lemma land_maskx (x : Z) : Z.land x maskx = x mod 64.
Proof. exact (Z.land_ones x 6 ltac:(lia)). Qed.

Lemma land_mask2 (x : Z) : Z.land x mask2 = x mod 32.
Proof. exact (Z.land_ones x 5 ltac:(lia)). Qed.

Lemma land_mask3 (x : Z) : Z.land x mask3 = x mod 16.
Proof. exact (Z.land_ones x 4 ltac:(lia)). Qed.

Lemma land_mask4 (x : Z) : Z.land x mask4 = x mod 8.
Proof. exact (Z.land_ones x 3 ltac:(lia)). Qed.

Lemma rune2_arith (s0 s1 : Z) :
  Z.lor (Z.shiftl (Z.land s0 mask2) 6) (Z.land s1 maskx)
  = s0 mod 32 * 64 + s1 mod 64.
Proof.
  rewrite land_mask2, land_maskx, Z.shiftl_mul_pow2 by lia.
  pose proof (Z.mod_pos_bound s1 64 ltac:(lia)).
  rewrite (lor_disjoint _ _ 6) by lia. reflexivity.
Qed.

Lemma rune3_arith (s0 s1 s2 : Z) :
  Z.lor (Z.lor (Z.shiftl (Z.land s0 mask3) 12) (Z.shiftl (Z.land s1 maskx) 6))
        (Z.land s2 maskx)
  = s0 mod 16 * 4096 + s1 mod 64 * 64 + s2 mod 64.
Proof.
  rewrite land_mask3, !land_maskx, !Z.shiftl_mul_pow2 by lia.
  pose proof (Z.mod_pos_bound s1 64 ltac:(lia)).
  pose proof (Z.mod_pos_bound s2 64 ltac:(lia)).
  rewrite (lor_disjoint _ _ 12) by lia.
  replace (s0 mod 16 * 2 ^ 12 + s1 mod 64 * 2 ^ 6)
    with ((s0 mod 16 * 64 + s1 mod 64) * 2 ^ 6) by lia.
  rewrite (lor_disjoint _ _ 6) by lia. lia.
Qed.

Lemma rune4_arith (s0 s1 s2 s3 : Z) :
  Z.lor (Z.lor (Z.lor (Z.shiftl (Z.land s0 mask4) 18)
                      (Z.shiftl (Z.land s1 maskx) 12))
               (Z.shiftl (Z.land s2 maskx) 6))
        (Z.land s3 maskx)
  = s0 mod 8 * 262144 + s1 mod 64 * 4096 + s2 mod 64 * 64 + s3 mod 64.
Proof.
  rewrite land_mask4, !land_maskx, !Z.shiftl_mul_pow2 by lia.
  pose proof (Z.mod_pos_bound s1 64 ltac:(lia)).
  pose proof (Z.mod_pos_bound s2 64 ltac:(lia)).
  pose proof (Z.mod_pos_bound s3 64 ltac:(lia)).
  rewrite (lor_disjoint _ _ 18) by lia.
  replace (s0 mod 8 * 2 ^ 18 + s1 mod 64 * 2 ^ 12)
    with ((s0 mod 8 * 64 + s1 mod 64) * 2 ^ 12) by lia.
  rewrite (lor_disjoint _ _ 12) by lia.
  replace ((s0 mod 8 * 64 + s1 mod 64) * 2 ^ 12 + s2 mod 64 * 2 ^ 6)
    with (((s0 mod 8 * 64 + s1 mod 64) * 64 + s2 mod 64) * 2 ^ 6) by lia.
  rewrite (lor_disjoint _ _ 6) by lia. lia.
Qed.

Lemma lor_tx (x : Z) : Z.lor tx (Z.land x maskx) = 128 + x mod 64.
Proof.
  rewrite land_maskx. pose proof (Z.mod_pos_bound x 64 ltac:(lia)).
  change tx with (1 * 2 ^ 7). rewrite (lor_disjoint _ _ 7) by lia. lia.
Qed.

Lemma lor_t2 (x : Z) : 0 <= x < 32 -> Z.lor t2 x = 192 + x.
Proof.
  intros Hx. change t2 with (3 * 2 ^ 6). rewrite (lor_disjoint _ _ 6) by lia. lia.
Qed.

Lemma lor_t3 (x : Z) : 0 <= x < 16 -> Z.lor t3 x = 224 + x.
Proof.
  intros Hx. change t3 with (7 * 2 ^ 5). rewrite (lor_disjoint _ _ 5) by lia. lia.
Qed.

Lemma lor_t4 (x : Z) : 0 <= x < 8 -> Z.lor t4 x = 240 + x.
Proof.
  intros Hx. change t4 with (15 * 2 ^ 4). rewrite (lor_disjoint _ _ 4) by lia. lia.
Qed.


(** ** The decoder *)

Lemma byteAt_range (s : string) (i : nat) : 0 <= byteAt s i < 256.
Proof.
  unfold byteAt. destruct (String.get i s); [apply byteOf_range|lia].
Qed.

Ltac split_first :=
  unfold first;
  repeat match goal with
         | |- context [?a <? ?b] => destruct (Z.ltb_spec a b)
         | |- context [?a =? ?b] => destruct (Z.eqb_spec a b)
         end.

Ltac arith :=
  unfold validRune, RuneError, RuneSelf, MaxRune, surrogateMin, surrogateMax,
         locb, hicb, rune1Max, rune2Max, rune3Max in *;
  Z.div_mod_to_equations; lia.

(** What [DecodeRuneInString] returns for a string that is not empty: a
    width within the string, a valid rune, and a rune below 0x80 only for a
    first byte below 0x80. *)
Lemma decode_facts (c0 : ascii) (t : string) (r : Z) (w : nat) :
  DecodeRuneInString (String c0 t) = (r, w) ->
  (1 <= w <= String.length (String c0 t))%nat /\
  validRune r /\
  (r < RuneSelf -> w = 1%nat /\ r = byteOf c0).
Proof.
  unfold DecodeRuneInString.
  pose proof (byteOf_range c0) as H0.
  pose proof (byteAt_range (String c0 t) 1) as H1.
  pose proof (byteAt_range (String c0 t) 2) as H2.
  pose proof (byteAt_range (String c0 t) 3) as H3.
  set (s := String c0 t) in *.
  assert (Hlen : (1 <= String.length s)%nat) by (subst s; simpl; lia).
  generalize dependent (byteAt s 1). generalize dependent (byteAt s 2).
  generalize dependent (byteAt s 3). intros s3 H3 s2 H2 s1 H1.
  rewrite rune2_arith, rune3_arith, rune4_arith.
  assert (Hfin : forall (r' : Z) (w' : nat),
             (1 <= w' <= String.length s)%nat -> validRune r' ->
             (r' < RuneSelf -> w' = 1%nat /\ r' = byteOf c0) ->
             (r', w') = (r, w) ->
             (1 <= w <= String.length s)%nat /\ validRune r /\
             (r < RuneSelf -> w = 1%nat /\ r = byteOf c0)).
  { intros r' w' Hw Hv Hs [= <- <-]. auto. }
  assert (Herr : (RuneError, 1%nat) = (r, w) ->
                 (1 <= w <= String.length s)%nat /\ validRune r /\
                 (r < RuneSelf -> w = 1%nat /\ r = byteOf c0)).
  { apply Hfin; [lia|arith|intros Hr; exfalso; arith]. }
  unfold first;
    repeat match goal with
           | |- context [byteOf c0 <? ?b] => destruct (Z.ltb_spec (byteOf c0) b)
           | |- context [byteOf c0 =? ?b] => destruct (Z.eqb_spec (byteOf c0) b)
           end;
    try exact Herr.
  all: try (apply Hfin; [lia|arith|intros _; split; reflexivity]).
  all: match goal with
       | |- context [(?l <? ?n)%nat] =>
           destruct (Nat.ltb_spec l n); [exact Herr|]
       end.
  all: destruct (_ || _) eqn:E1; [exact Herr|];
       apply orb_false_iff in E1 as [E1a%Z.ltb_ge E1b%Z.ltb_ge].
  all: cbn [Nat.leb].
  all: try (apply Hfin; [lia|arith|intros Hr; exfalso; arith]).
  all: destruct (_ || _) eqn:E2; [exact Herr|];
       apply orb_false_iff in E2 as [E2a%Z.ltb_ge E2b%Z.ltb_ge].
  all: try (apply Hfin; [lia|arith|intros Hr; exfalso; arith]).
  all: destruct (_ || _) eqn:E3; [exact Herr|];
       apply orb_false_iff in E3 as [E3a%Z.ltb_ge E3b%Z.ltb_ge].
  all: apply Hfin; [lia|arith|intros Hr; exfalso; arith].
Qed.

Lemma decode_empty : DecodeRuneInString "" = (RuneError, 0%nat).
Proof. reflexivity. Qed.

Lemma skip_length (w : nat) (s : string) :
  (w <= String.length s)%nat ->
  String.length (skip w s) = (String.length s - w)%nat.
Proof.
  revert s. induction w as [|w IH]; intros [|c s]; simpl; try lia.
  intros Hw. apply IH. lia.
Qed.

Lemma Contains_skip (w : nat) (s : string) (c : ascii) :
  Contains (skip w s) c = true -> Contains s c = true.
Proof.
  revert s. induction w as [|w IH]; intros [|a s]; simpl; auto.
  intros Hc. rewrite (IH s Hc). destruct (Ascii.eqb a c); reflexivity.
Qed.

(** ** [range] over a string *)

Lemma rangeFrom_enough (n m : nat) (s : string) :
  (String.length s <= n)%nat -> (String.length s <= m)%nat ->
  rangeFrom n s = rangeFrom m s.
Proof.
  revert m s. induction n as [|n IH]; intros m [|c0 t] Hn Hm;
    cbn [String.length] in Hn, Hm.
  - destruct m; reflexivity.
  - lia.
  - destruct m; reflexivity.
  - destruct m as [|m]; [lia|]. cbn [rangeFrom].
    destruct (DecodeRuneInString (String c0 t)) as [r w] eqn:Ed.
    destruct (decode_facts c0 t r w Ed) as [Hw _].
    f_equal. pose proof (skip_length w (String c0 t) ltac:(lia)) as Hs.
    cbn [String.length] in Hs, Hw. apply IH; lia.
Qed.

Lemma runes_empty : runes "" = [].
Proof. reflexivity. Qed.

Lemma runes_unfold (c0 : ascii) (t : string) (r : Z) (w : nat) :
  DecodeRuneInString (String c0 t) = (r, w) ->
  runes (String c0 t) = r :: runes (skip w (String c0 t)).
Proof.
  intros Ed. unfold runes. cbn [String.length rangeFrom]. rewrite Ed. f_equal.
  destruct (decode_facts c0 t r w Ed) as [Hw _].
  pose proof (skip_length w (String c0 t) ltac:(lia)) as Hs.
  cbn [String.length] in Hs, Hw. apply rangeFrom_enough; lia.
Qed.

Lemma runes_ascii (c0 : ascii) (t : string) :
  byteOf c0 < RuneSelf -> runes (String c0 t) = byteOf c0 :: runes t.
Proof.
  intros Hc. apply (runes_unfold c0 t (byteOf c0) 1).
  unfold DecodeRuneInString, first.
  destruct (Z.ltb_spec (byteOf c0) 128); [reflexivity|unfold RuneSelf in Hc; lia].
Qed.

(** Every character [range] yields is a valid rune, and one below 0x80 is a
    byte of the string. *)
Lemma runes_elem (s : string) (r : Z) :
  r ∈ runes s ->
  validRune r /\ (r < RuneSelf -> Contains s (toByte r) = true).
Proof.
  remember (String.length s) as n eqn:En.
  revert s En. induction n as [n IH] using lt_wf_ind. intros [|c0 t] En.
  - rewrite runes_empty. intros Hin. inversion Hin.
  - destruct (DecodeRuneInString (String c0 t)) as [r0 w] eqn:Ed.
    rewrite (runes_unfold c0 t r0 w Ed).
    destruct (decode_facts c0 t r0 w Ed) as (Hw & Hv & Hsmall).
    intros Hin. apply elem_of_cons in Hin as [->|Hin].
    + split; [exact Hv|]. intros Hr. destruct (Hsmall Hr) as [_ ->].
      rewrite toByte_byteOf. simpl. rewrite Ascii.eqb_refl. reflexivity.
    + pose proof (skip_length w (String c0 t) ltac:(lia)) as Hs.
      destruct (IH (String.length (skip w (String c0 t))) ltac:(lia) _ eq_refl Hin)
        as [Hv' Hc].
      split; [exact Hv'|]. intros Hr. eapply Contains_skip. exact (Hc Hr).
Qed.


(** ** The encoder *)

Lemma EncodeRune_1 (r : Z) : 0 <= r <= 0x7F -> EncodeRune r = bytes [r].
Proof.
  intros Hr. unfold EncodeRune, rune1Max.
  destruct (Z.leb_spec 0 r); [|lia]. destruct (Z.leb_spec r 0x7F); [|lia].
  reflexivity.
Qed.

Lemma EncodeRune_2 (r : Z) :
  0x80 <= r <= 0x7FF -> EncodeRune r = bytes [192 + r / 64; 128 + r mod 64].
Proof.
  intros Hr. unfold EncodeRune, rune1Max, rune2Max.
  destruct (Z.leb_spec 0 r); [|lia]. destruct (Z.leb_spec r 0x7F); [lia|].
  destruct (Z.leb_spec r 0x7FF); [|lia]. cbn [andb].
  rewrite lor_tx, Z.shiftr_div_pow2 by lia. change (2 ^ 6) with 64.
  rewrite lor_t2 by (Z.div_mod_to_equations; lia). reflexivity.
Qed.

Lemma EncodeRune_3 (r : Z) :
  0x800 <= r <= 0xFFFF -> ~ (surrogateMin <= r <= surrogateMax) ->
  EncodeRune r = bytes [224 + r / 4096; 128 + r / 64 mod 64; 128 + r mod 64].
Proof.
  intros Hr Hs. unfold EncodeRune, rune1Max, rune2Max, rune3Max, MaxRune.
  unfold surrogateMin, surrogateMax in *.
  destruct (Z.leb_spec 0 r); [|lia]. destruct (Z.leb_spec r 0x7F); [lia|].
  destruct (Z.leb_spec r 0x7FF); [lia|]. cbn [andb].
  destruct (Z.ltb_spec r 0); [lia|]. destruct (Z.ltb_spec 0x10FFFF r); [lia|].
  cbn [orb].
  destruct (Z.leb_spec 0xD800 r); destruct (Z.leb_spec r 0xDFFF); try lia;
    cbn [andb]; (destruct (Z.leb_spec r 0xFFFF); [|lia]);
    rewrite !lor_tx, !Z.shiftr_div_pow2 by lia;
    change (2 ^ 6) with 64; change (2 ^ 12) with 4096;
    rewrite lor_t3 by (Z.div_mod_to_equations; lia); reflexivity.
Qed.

Lemma EncodeRune_4 (r : Z) :
  0x10000 <= r <= MaxRune ->
  EncodeRune r =
    bytes [240 + r / 262144; 128 + r / 4096 mod 64; 128 + r / 64 mod 64;
           128 + r mod 64].
Proof.
  intros Hr. unfold EncodeRune, rune1Max, rune2Max, rune3Max, MaxRune in *.
  unfold surrogateMin, surrogateMax in *.
  destruct (Z.leb_spec 0 r); [|lia]. destruct (Z.leb_spec r 0x7F); [lia|].
  destruct (Z.leb_spec r 0x7FF); [lia|]. cbn [andb].
  destruct (Z.ltb_spec r 0); [lia|]. destruct (Z.ltb_spec 0x10FFFF r); [lia|].
  cbn [orb].
  destruct (Z.leb_spec 0xD800 r); [|lia]. destruct (Z.leb_spec r 0xDFFF); [lia|].
  cbn [andb]. destruct (Z.leb_spec r 0xFFFF); [lia|].
  rewrite !lor_tx, !Z.shiftr_div_pow2 by lia.
  change (2 ^ 6) with 64; change (2 ^ 12) with 4096; change (2 ^ 18) with 262144.
  rewrite lor_t4 by (Z.div_mod_to_equations; lia). reflexivity.
Qed.

Lemma EncodeRune_invalid (r : Z) :
  ~ validRune r -> EncodeRune r = bytes [0xEF; 0xBF; 0xBD].
Proof.
  intros Hr. unfold validRune, surrogateMin, surrogateMax, MaxRune in Hr.
  unfold EncodeRune, rune1Max, rune2Max, rune3Max, MaxRune, surrogateMin,
         surrogateMax.
  destruct (Z.leb_spec 0 r); destruct (Z.leb_spec r 0x7F); try lia;
    destruct (Z.leb_spec r 0x7FF); try lia;
    destruct (Z.ltb_spec r 0); destruct (Z.ltb_spec 0x10FFFF r); try lia;
    destruct (Z.leb_spec 0xD800 r); destruct (Z.leb_spec r 0xDFFF);
    try lia; reflexivity.
Qed.

(** The encoding of a rune: one byte for a rune below 0x80, and only bytes
    from 0x80 on for every other rune. *)
Lemma EncodeRune_high (r : Z) (c : ascii) :
  ~ (0 <= r < RuneSelf) -> byteOf c < RuneSelf ->
  Contains (EncodeRune r) c = false.
Proof.
  intros Hr Hc. unfold RuneSelf in *.
  assert (Hne : forall z, 128 <= z < 256 -> Ascii.eqb (toByte z) c = false).
  { intros z Hz. apply Ascii.eqb_neq. intros <-.
    rewrite byteOf_toByte, Z.mod_small in Hc by lia. lia. }
  destruct (Z.le_gt_cases r 0x7FF) as [H2|H2];
    [destruct (Z.le_gt_cases 0 r) as [Hpos|Hneg]|].
  - rewrite EncodeRune_2 by lia. cbn [bytes fold_right Contains].
    rewrite !Hne by (Z.div_mod_to_equations; lia). reflexivity.
  - rewrite EncodeRune_invalid by arith.
    cbn [bytes fold_right Contains]. rewrite !Hne by lia. reflexivity.
  - destruct (Z.le_gt_cases r 0xFFFF) as [H3|H3].
    + destruct (Z.le_gt_cases surrogateMin r) as [Ha|Ha];
        [destruct (Z.le_gt_cases r surrogateMax) as [Hb|Hb]|].
      * rewrite EncodeRune_invalid
          by arith.
        cbn [bytes fold_right Contains]. rewrite !Hne by lia. reflexivity.
      * rewrite EncodeRune_3 by arith.
        cbn [bytes fold_right Contains].
        rewrite !Hne by (Z.div_mod_to_equations; lia). reflexivity.
      * rewrite EncodeRune_3 by arith.
        cbn [bytes fold_right Contains].
        rewrite !Hne by (Z.div_mod_to_equations; lia). reflexivity.
    + destruct (Z.le_gt_cases r MaxRune) as [H4|H4].
      * rewrite EncodeRune_4 by arith. cbn [bytes fold_right Contains].
        unfold MaxRune in H4.
        rewrite !Hne by (Z.div_mod_to_equations; lia). reflexivity.
      * rewrite EncodeRune_invalid
          by arith.
        cbn [bytes fold_right Contains]. rewrite !Hne by lia. reflexivity.
Qed.


(** ** Decoding what was encoded *)

Ltac decode_bytes :=
  unfold DecodeRuneInString;
  cbn [bytes fold_right String.append byteAt String.get String.length];
  rewrite ?byteOf_toByte;
  rewrite ?Z.mod_small by (Z.div_mod_to_equations; lia);
  rewrite ?rune2_arith, ?rune3_arith, ?rune4_arith;
  unfold first, locb, hicb;
  repeat match goal with
         | |- context [?a <? ?b] =>
             destruct (Z.ltb_spec a b); try (exfalso; Z.div_mod_to_equations; lia)
         | |- context [?a =? ?b] =>
             destruct (Z.eqb_spec a b); try (exfalso; Z.div_mod_to_equations; lia)
         end;
  cbn [Nat.ltb Nat.leb orb];
  try (f_equal; Z.div_mod_to_equations; lia).

Lemma decode_encode (r : Z) (rest : string) :
  validRune r ->
  exists c0 t w,
    String.append (EncodeRune r) rest = String c0 t /\
    DecodeRuneInString (String c0 t) = (r, w) /\
    skip w (String c0 t) = rest.
Proof.
  intros Hv. unfold validRune, surrogateMin, surrogateMax, MaxRune in Hv.
  assert (Hpos : 0 <= r) by lia.
  destruct (Z.le_gt_cases r 0x7F) as [H1|H1];
    [|destruct (Z.le_gt_cases r 0x7FF) as [H2|H2];
      [|destruct (Z.le_gt_cases r 0xFFFF) as [H3|H3]]].
  - rewrite EncodeRune_1 by lia. eexists _, _, 1%nat.
    split; [reflexivity|]. split; [|reflexivity].
    unfold DecodeRuneInString. rewrite byteOf_toByte, Z.mod_small by lia.
    unfold first. destruct (Z.ltb_spec r 128); [reflexivity|lia].
  - rewrite EncodeRune_2 by lia. eexists _, _, 2%nat.
    split; [reflexivity|]. split; [|reflexivity]. decode_bytes.
  - rewrite EncodeRune_3 by arith. eexists _, _, 3%nat.
    split; [reflexivity|]. split; [|reflexivity]. decode_bytes.
  - rewrite EncodeRune_4 by arith. eexists _, _, 4%nat.
    split; [reflexivity|]. split; [|reflexivity]. decode_bytes.
Qed.

Lemma runes_encode (r : Z) (rest : string) :
  validRune r -> runes (String.append (EncodeRune r) rest) = r :: runes rest.
Proof.
  intros Hv. destruct (decode_encode r rest Hv) as (c0 & t & w & -> & Ed & Hs).
  rewrite (runes_unfold c0 t r w Ed), Hs. reflexivity.
Qed.


(** ** [strings.Map] and [strings.ToLower] *)

Lemma Contains_append (a b : string) (c : ascii) :
  Contains (String.append a b) c = Contains a c || Contains b c.
Proof.
  induction a as [|x a IH]; simpl; [reflexivity|].
  destruct (Ascii.eqb x c); [reflexivity|exact IH].
Qed.

Lemma Contains_byte (z : Z) (c : ascii) :
  Contains (bytes [z]) c = true -> c = toByte z.
Proof.
  simpl. destruct (Ascii.eqb_spec (toByte z) c); [auto|discriminate].
Qed.

Lemma hasUpper_byte (s : string) :
  hasUpper s = true -> exists b, isUpper b = true /\ Contains s b = true.
Proof.
  induction s as [|a s IH]; simpl; [discriminate|].
  destruct (isUpper a) eqn:Ea.
  - intros _. exists a. rewrite Ascii.eqb_refl. auto.
  - intros Hs. destruct (IH Hs) as (b & Hb & Hc). exists b.
    rewrite Hc. destruct (Ascii.eqb a b); auto.
Qed.

(** [unicode.ToLower] on a rune below 0x80. *)
Lemma unicodeToLower_ascii (r : Z) :
  0 <= r < RuneSelf ->
  0 <= unicodeToLower r < RuneSelf /\
  (65 <= r <= 90 -> unicodeToLower r = r + 32) /\
  (~ 65 <= r <= 90 -> unicodeToLower r = r) /\
  unicodeToLower (unicodeToLower r) = unicodeToLower r.
Proof.
  unfold RuneSelf, unicodeToLower, MaxASCII. intros Hr.
  destruct (Z.leb_spec r 127); [|lia].
  destruct (Z.leb_spec 65 r); destruct (Z.leb_spec r 90); cbn [andb];
    repeat match goal with
           | |- context [?a <=? ?b] => destruct (Z.leb_spec a b)
           end; cbn [andb]; lia.
Qed.

Lemma lowerByte_toByte (a : ascii) :
  byteOf a < RuneSelf -> toByte (unicodeToLower (byteOf a)) = lowerByte a.
Proof.
  destruct a as [[] [] [] [] [] [] [] []]; intros Ha;
    try reflexivity; vm_compute in Ha; discriminate Ha.
Qed.

Lemma isUpper_range (b : ascii) : isUpper b = true <-> 65 <= byteOf b <= 90.
Proof. unfold isUpper. rewrite andb_true_iff, !Z.leb_le. reflexivity. Qed.

Lemma Map_ascii_cons (a : ascii) (s : string) :
  byteOf a < RuneSelf ->
  Map unicodeToLower (String a s) = String (lowerByte a) (Map unicodeToLower s).
Proof.
  intros Ha. unfold Map. rewrite (runes_ascii a s Ha). cbn [mapRunes].
  pose proof (byteOf_range a) as Hr.
  destruct (unicodeToLower_ascii (byteOf a) ltac:(lia)) as (Hx & _).
  destruct (Z.leb_spec 0 (unicodeToLower (byteOf a))); [|lia].
  rewrite EncodeRune_1 by (unfold RuneSelf in Hx; lia).
  cbn [bytes fold_right String.append]. rewrite (lowerByte_toByte a Ha).
  reflexivity.
Qed.

(** The two branches of [strings.ToLower] agree where both apply. *)
Lemma Map_isASCII (s : string) :
  isASCII s = true -> Map unicodeToLower s = lowerASCII s.
Proof.
  induction s as [|a s IH]; [reflexivity|].
  cbn [isASCII lowerASCII]. intros Hs. apply andb_true_iff in Hs as [Ha Hs].
  apply Z.ltb_lt in Ha. rewrite (Map_ascii_cons a s Ha), (IH Hs). reflexivity.
Qed.

Lemma ToLower_Map (s : string) : ToLower s = Map unicodeToLower s.
Proof.
  unfold ToLower. destruct (isASCII s) eqn:E; [|reflexivity].
  symmetry. apply Map_isASCII, E.
Qed.

(** Where the bytes below 0x80 of a lower-cased string come from: such a
    byte is a letter 'a'..'z', or it is a byte of the string that was
    lowered and no letter 'A'..'Z'. *)
Lemma ToLower_byte (s : string) (b : ascii) :
  lowersToLetters ->
  byteOf b < RuneSelf ->
  Contains (ToLower s) b = true ->
  97 <= byteOf b <= 122 \/ (Contains s b = true /\ isUpper b = false).
Proof.
  intros Htab Hb. rewrite ToLower_Map. unfold Map.
  assert (Hrs : forall r, r ∈ runes s ->
                  validRune r /\ (r < RuneSelf -> Contains s (toByte r) = true))
    by (intros r; apply runes_elem).
  induction (runes s) as [|r rs IH]; cbn [mapRunes]; [discriminate|].
  assert (IH' := IH (fun r' Hin => Hrs r' (list_elem_of_further _ _ _ Hin))).
  destruct (Hrs r (list_elem_of_here _ _)) as [Hv Hin]. clear IH Hrs.
  destruct (Z.leb_spec 0 (unicodeToLower r)) as [Hpos|Hneg]; [|exact IH'].
  rewrite Contains_append. intros Hc. apply orb_true_iff in Hc as [Hc|Hc];
    [|exact (IH' Hc)].
  assert (H0 : 0 <= r) by (unfold validRune, surrogateMin, surrogateMax in Hv; lia).
  destruct (Z.lt_ge_cases r RuneSelf) as [Hsmall|Hbig].
  - destruct (unicodeToLower_ascii r ltac:(lia)) as (Hx & Hup & Hno & _).
    rewrite EncodeRune_1 in Hc by (unfold RuneSelf in Hx; lia).
    apply Contains_byte in Hc. subst b.
    rewrite byteOf_toByte, Z.mod_small in * by (unfold RuneSelf in Hx; lia).
    destruct (Z.le_gt_cases 65 r) as [H65|H65];
      [destruct (Z.le_gt_cases r 90) as [H90|H90]|].
    + left. rewrite Hup by lia. lia.
    + right. rewrite Hno by lia. split; [exact (Hin Hsmall)|].
      apply not_true_iff_false. rewrite isUpper_range, byteOf_toByte.
      unfold RuneSelf in Hsmall. rewrite Z.mod_small by lia. lia.
    + right. rewrite Hno by lia. split; [exact (Hin Hsmall)|].
      apply not_true_iff_false. rewrite isUpper_range, byteOf_toByte.
      unfold RuneSelf in Hsmall. rewrite Z.mod_small by lia. lia.
  - assert (Ex : unicodeToLower r = lowerRune r).
    { unfold unicodeToLower, MaxASCII. unfold RuneSelf in Hbig.
      destruct (Z.leb_spec r 127); [lia|reflexivity]. }
    rewrite Ex in *.
    destruct (Z.lt_ge_cases (lowerRune r) RuneSelf) as [Hx|Hx].
    + pose proof (Htab r Hbig ltac:(lia)) as Hl.
      rewrite EncodeRune_1 in Hc by lia.
      apply Contains_byte in Hc. subst b.
      rewrite byteOf_toByte, Z.mod_small by lia. left. exact Hl.
    + rewrite EncodeRune_high in Hc by lia. discriminate.
Qed.

Lemma ToLower_no_upper (s : string) :
  lowersToLetters -> hasUpper (ToLower s) = false.
Proof.
  intros Htab. apply not_true_iff_false. intros Hu.
  apply hasUpper_byte in Hu as (b & Hb & Hc).
  pose proof (proj1 (isUpper_range b) Hb) as Hr.
  destruct (ToLower_byte s b Htab ltac:(unfold RuneSelf; lia) Hc) as [Hl|[_ Hn]];
    [lia|congruence].
Qed.

(** A byte below 0x80 that is no letter 'a'..'z' is in the lower-cased
    string only if it was in the string. *)
Lemma ToLower_Contains (s : string) (b : ascii) :
  lowersToLetters ->
  byteOf b < RuneSelf -> ~ 97 <= byteOf b <= 122 ->
  Contains s b = false -> Contains (ToLower s) b = false.
Proof.
  intros Htab Hb Hl Hs. apply not_true_iff_false. intros Hc.
  destruct (ToLower_byte s b Htab Hb Hc) as [?|[Hin _]]; [lia|congruence].
Qed.

Lemma ToLower_period (s : string) :
  lowersToLetters ->
  Contains s "."%char = false -> Contains (ToLower s) "."%char = false.
Proof.
  intros Htab. apply ToLower_Contains; [exact Htab|reflexivity|].
  change (byteOf "."%char) with 46. lia.
Qed.

Lemma ToLower_underscore (s : string) :
  lowersToLetters ->
  Contains s "_"%char = false -> Contains (ToLower s) "_"%char = false.
Proof.
  intros Htab. apply ToLower_Contains; [exact Htab|reflexivity|].
  change (byteOf "_"%char) with 95. lia.
Qed.

(** ** [strings.ToLower] on ASCII strings

    Here the case table plays no part. *)

Lemma ToLower_isASCII (s : string) : isASCII s = true -> ToLower s = lowerASCII s.
Proof. unfold ToLower. intros ->. reflexivity. Qed.

Lemma isASCII_lowerASCII (s : string) : isASCII (lowerASCII s) = isASCII s.
Proof.
  induction s as [|a s IH]; [reflexivity|]. cbn [lowerASCII isASCII].
  rewrite IH. f_equal.
  destruct a as [[] [] [] [] [] [] [] []]; reflexivity.
Qed.

Lemma lowerASCII_idem (s : string) : lowerASCII (lowerASCII s) = lowerASCII s.
Proof.
  induction s as [|a s IH]; simpl; [reflexivity|].
  rewrite lowerByte_idem, IH. reflexivity.
Qed.

Lemma lowerASCII_period (s : string) :
  Contains (lowerASCII s) "."%char = Contains s "."%char.
Proof.
  induction s as [|a s IH]; simpl; [reflexivity|].
  rewrite lowerByte_period, IH. reflexivity.
Qed.

Lemma lowerASCII_underscore (s : string) :
  Contains (lowerASCII s) "_"%char = Contains s "_"%char.
Proof.
  induction s as [|a s IH]; simpl; [reflexivity|].
  rewrite lowerByte_underscore, IH. reflexivity.
Qed.

Lemma lowerASCII_no_upper (s : string) : hasUpper (lowerASCII s) = false.
Proof.
  induction s as [|a s IH]; simpl; [reflexivity|].
  rewrite lowerByte_not_upper, IH. reflexivity.
Qed.

Lemma isASCII_prefixBefore (c : ascii) (s : string) :
  isASCII s = true -> isASCII (prefixBefore c s) = true.
Proof.
  induction s as [|a s IH]; [reflexivity|]. cbn [isASCII prefixBefore].
  intros Hs. apply andb_true_iff in Hs as [Ha Hs].
  destruct (Ascii.eqb a c); [reflexivity|]. cbn [isASCII].
  rewrite Ha, (IH Hs). reflexivity.
Qed.

(** ** [strings.ToLower] twice *)

Lemma unicodeToLower_valid (r : Z) :
  lowerIdempotent -> validRune r ->
  validRune (unicodeToLower r) /\
  unicodeToLower (unicodeToLower r) = unicodeToLower r.
Proof.
  intros Hid Hv.
  assert (H0 : 0 <= r) by (unfold validRune, surrogateMin, surrogateMax in Hv; lia).
  destruct (Z.lt_ge_cases r RuneSelf) as [Hsmall|Hbig].
  - destruct (unicodeToLower_ascii r ltac:(lia)) as (Hx & _ & _ & Hi).
    split; [|exact Hi]. unfold validRune, surrogateMin, RuneSelf in *. lia.
  - assert (Ex : unicodeToLower r = lowerRune r).
    { unfold unicodeToLower, MaxASCII. unfold RuneSelf in Hbig.
      destruct (Z.leb_spec r 127); [lia|reflexivity]. }
    rewrite Ex. exact (Hid r Hbig Hv).
Qed.

Lemma runes_mapRunes (rs : list Z) :
  lowerIdempotent -> Forall validRune rs ->
  runes (mapRunes unicodeToLower rs) = map unicodeToLower rs.
Proof.
  intros Hid Hrs. induction Hrs as [|r rs Hv _ IH]; [reflexivity|].
  cbn [mapRunes map].
  destruct (unicodeToLower_valid r Hid Hv) as [Hv' _].
  assert (H0 : 0 <= unicodeToLower r)
    by (unfold validRune, surrogateMin, surrogateMax in Hv'; lia).
  destruct (Z.leb_spec 0 (unicodeToLower r)); [|lia].
  rewrite (runes_encode _ _ Hv'), IH. reflexivity.
Qed.

Lemma ToLower_idem (s : string) :
  lowerIdempotent -> ToLower (ToLower s) = ToLower s.
Proof.
  intros Hid. rewrite !ToLower_Map. unfold Map.
  assert (Hrs : Forall validRune (runes s)).
  { apply Forall_forall. intros r Hin.
    exact (proj1 (runes_elem s r Hin)). }
  rewrite (runes_mapRunes (runes s) Hid Hrs).
  induction Hrs as [|r rs Hv _ IH]; [reflexivity|].
  cbn [mapRunes map].
  destruct (unicodeToLower_valid r Hid Hv) as [_ ->]. rewrite IH. reflexivity.
Qed.

End Utf8Facts.
(** * Properties *)

Section Proofs.
Context {caseTables : CaseTables}.

(** ** Sanity checks of the library models *)

Example ParseInt_1960 : ParseInt "1960" 16 = Ok 1960.
Proof. reflexivity. Qed.

Example ParseInt_32768 : ParseInt "32768" 16 = Err (NumError "32768" ErrRange).
Proof. reflexivity. Qed.

Example ParseInt_neg : ParseInt "-32768" 16 = Ok (-32768).
Proof. reflexivity. Qed.

Example ParseInt_bad : ParseInt "19x0" 16 = Err (NumError "19x0" ErrSyntax).
Proof. reflexivity. Qed.

Example ParseInt_empty : ParseInt "" 64 = Err (NumError "" ErrSyntax).
Proof. reflexivity. Qed.

Example Split_two : Split "Dog_NOUN" "_"%char = ["Dog"; "NOUN"].
Proof. reflexivity. Qed.

Example Split_empty : Split "" ","%char = [""].
Proof. reflexivity. Qed.

(** ** Comparing float64 values *)

Lemma SFcompare_swap (x y : float64) :
  SFcompare y x = option_map CompOpp (SFcompare x y).
Proof.
  destruct x as [sx|sx| |sx mx ex], y as [sy|sy| |sy my ey]; simpl;
    try reflexivity;
    try (destruct sx; reflexivity);
    try (destruct sy; reflexivity);
    try (destruct sx, sy; reflexivity).
  destruct sx, sy; simpl; try reflexivity;
    rewrite (Z.compare_antisym ey ex);
    destruct (ey ?= ex) eqn:E; simpl; try reflexivity;
    change (Pos.compare_cont Eq mx my) with (mx ?= my)%positive;
    change (Pos.compare_cont Eq my mx) with (my ?= mx)%positive;
    rewrite (Pos.compare_antisym mx my);
    destruct (mx ?= my)%positive; reflexivity.
Qed.

(** [>] is asymmetric, NaN included. *)
Lemma fgt_asym (x y : float64) : fgt x y = true -> fgt y x = false.
Proof.
  unfold fgt, SFltb. rewrite (SFcompare_swap y x).
  destruct (SFcompare y x) as [[]|]; simpl; congruence.
Qed.

Lemma SFcompare_notNaN (x y : float64) :
  isNaN x = false -> isNaN y = false -> SFcompare x y <> None.
Proof.
  destruct x as [sx|sx| |sx mx ex], y as [sy|sy| |sy my ey]; simpl;
    intros; congruence.
Qed.

(** Away from NaN the order is total: not [x > y] means [y >= x]. *)
Lemma not_fgt_fge (x y : float64) :
  isNaN x = false -> isNaN y = false -> fgt x y = false -> fge y x = true.
Proof.
  intros Hx Hy. unfold fgt, fge, SFltb, SFleb.
  pose proof (SFcompare_notNaN y x Hy Hx) as Hn.
  rewrite (SFcompare_swap y x).
  destruct (SFcompare y x) as [[]|]; simpl; congruence.
Qed.

(** ** Rounding never produces NaN *)

Lemma iter_pos_inv {A} (P : A -> Prop) (f : A -> A) :
  (forall x, P x -> P (f x)) -> forall p x, P x -> P (SpecFloat.iter_pos f p x).
Proof.
  intros Hf. induction p as [p IH|p IH|]; intros x Hx; simpl; auto.
Qed.

Lemma shr_1_nonneg (mrs : shr_record) : 0 <= shr_m mrs -> 0 <= shr_m (shr_1 mrs).
Proof.
  destruct mrs as [m r s]. simpl. destruct m as [|[p|p|]|p]; simpl; lia.
Qed.

Lemma shr_1_div2 (mrs : shr_record) :
  0 <= shr_m mrs -> shr_m (shr_1 mrs) = shr_m mrs / 2.
Proof.
  destruct mrs as [m r s]. simpl.
  intros H. rewrite <- Z.div2_div.
  destruct m as [|[p|p|]|p]; try reflexivity. simpl in H. lia.
Qed.

Lemma shr_record_of_loc_m (m : Z) (l : location) : shr_m (shr_record_of_loc m l) = m.
Proof. destruct l as [|[]]; reflexivity. Qed.

Lemma round_nearest_even_bounds (m : Z) (l : location) :
  m <= round_nearest_even m l <= m + 1.
Proof. destruct l as [|[]]; simpl; try destruct (Z.even m); lia. Qed.

Lemma shr_nonneg (mrs : shr_record) (e n : Z) :
  0 <= shr_m mrs -> 0 <= shr_m (fst (shr mrs e n)).
Proof.
  intros H. destruct n as [|p|p]; simpl; try exact H.
  apply (iter_pos_inv (fun x => 0 <= shr_m x)); [apply shr_1_nonneg|exact H].
Qed.

Lemma binary_round_aux_notNaN (sx : bool) (mx ex : Z) (lx : location) :
  0 <= mx -> isNaN (binary_round_aux 53 1024 sx mx ex lx) = false.
Proof.
  intros H. unfold binary_round_aux.
  destruct (shr_fexp 53 1024 mx ex lx) as [mrs' e'] eqn:E1.
  destruct (shr_fexp 53 1024 (round_nearest_even (shr_m mrs') (loc_of_shr_record mrs')) e' loc_Exact)
    as [mrs'' e''] eqn:E2.
  assert (H1 : 0 <= shr_m mrs').
  { replace mrs' with (fst (shr_fexp 53 1024 mx ex lx)) by (rewrite E1; reflexivity).
    apply shr_nonneg. rewrite shr_record_of_loc_m. exact H. }
  assert (H2 : 0 <= shr_m mrs'').
  { replace mrs'' with
      (fst (shr_fexp 53 1024 (round_nearest_even (shr_m mrs') (loc_of_shr_record mrs')) e' loc_Exact))
      by (rewrite E2; reflexivity).
    apply shr_nonneg. rewrite shr_record_of_loc_m.
    pose proof (round_nearest_even_bounds (shr_m mrs') (loc_of_shr_record mrs')). lia. }
  destruct (shr_m mrs'') as [|m|m]; [reflexivity| |lia].
  destruct (e'' <=? 1024 - 53); reflexivity.
Qed.

Lemma float64_of_uint64_notNaN (n : Z) : isNaN (float64_of_uint64 n) = false.
Proof.
  unfold float64_of_uint64, binary_normalize. destruct n as [|p|p]; [reflexivity| |];
    unfold binary_round;
    destruct (shl_align p 0 _) as [mz ez];
    apply binary_round_aux_notNaN; lia.
Qed.

(** ** Counts are finite floats *)

Lemma pow2_succ (d : Z) : 0 <= d -> 2 ^ (d + 1) = 2 * 2 ^ d.
Proof. intros H. rewrite Z.pow_add_r by lia. lia. Qed.

Lemma digits2_pos_bounds (p : positive) :
  2 ^ (Z.pos (digits2_pos p) - 1) <= Z.pos p < 2 ^ Z.pos (digits2_pos p).
Proof.
  induction p as [p IH|p IH|]; simpl digits2_pos.
  - rewrite Pos2Z.inj_succ. change (Z.pos p~1) with (2 * Z.pos p + 1).
    pose proof (pow2_succ (Z.pos (digits2_pos p) - 1) ltac:(lia)) as E1.
    pose proof (pow2_succ (Z.pos (digits2_pos p)) ltac:(lia)) as E2.
    replace (Z.succ (Z.pos (digits2_pos p)) - 1)
      with (Z.pos (digits2_pos p) - 1 + 1) by lia.
    replace (Z.succ (Z.pos (digits2_pos p)))
      with (Z.pos (digits2_pos p) + 1) by lia.
    rewrite E1, E2. clear E1 E2.
    generalize dependent (2 ^ (Z.pos (digits2_pos p) - 1)).
    generalize (2 ^ Z.pos (digits2_pos p)). intros; lia.
  - rewrite Pos2Z.inj_succ. change (Z.pos p~0) with (2 * Z.pos p).
    pose proof (pow2_succ (Z.pos (digits2_pos p) - 1) ltac:(lia)) as E1.
    pose proof (pow2_succ (Z.pos (digits2_pos p)) ltac:(lia)) as E2.
    replace (Z.succ (Z.pos (digits2_pos p)) - 1)
      with (Z.pos (digits2_pos p) - 1 + 1) by lia.
    replace (Z.succ (Z.pos (digits2_pos p)))
      with (Z.pos (digits2_pos p) + 1) by lia.
    rewrite E1, E2. clear E1 E2.
    generalize dependent (2 ^ (Z.pos (digits2_pos p) - 1)).
    generalize (2 ^ Z.pos (digits2_pos p)). intros; lia.
  - simpl. lia.
Qed.

Lemma Zdigits2_bounds (m : Z) :
  0 < m -> 2 ^ (Zdigits2 m - 1) <= m < 2 ^ Zdigits2 m.
Proof.
  destruct m as [|p|p]; try lia. intros _. apply digits2_pos_bounds.
Qed.

Lemma Zdigits2_pos (m : Z) : 0 < m -> 0 < Zdigits2 m.
Proof. destruct m as [|p|p]; simpl; lia. Qed.

(** A positive number below [2^k] has at most [k] digits. *)
Lemma Zdigits2_le (m k : Z) : 0 < m -> m < 2 ^ k -> Zdigits2 m <= k.
Proof.
  intros Hm Hk. pose proof (Zdigits2_bounds m Hm) as [Hlo _].
  pose proof (Zdigits2_pos m Hm).
  destruct (Z.le_gt_cases (Zdigits2 m) k) as [|Hgt]; [assumption|].
  assert (0 <= k).
  { destruct (Z.le_gt_cases 0 k); [assumption|].
    rewrite Z.pow_neg_r in Hk by lia. lia. }
  assert (2 ^ k <= 2 ^ (Zdigits2 m - 1)) by (apply Z.pow_le_mono_r; lia).
  lia.
Qed.

Lemma pow2_pos (k : positive) : 0 < 2 ^ Z.pos k.
Proof. apply Z.pow_pos_nonneg; lia. Qed.

Lemma iter_shr_1 (k : positive) (mrs : shr_record) :
  0 <= shr_m mrs ->
  0 <= shr_m (SpecFloat.iter_pos shr_1 k mrs) /\
  shr_m (SpecFloat.iter_pos shr_1 k mrs) = shr_m mrs / 2 ^ Z.pos k.
Proof.
  revert mrs. induction k as [k IH|k IH|]; intros mrs H; simpl SpecFloat.iter_pos.
  - pose proof (shr_1_nonneg mrs H) as H1.
    destruct (IH (shr_1 mrs) H1) as [H2 E2].
    destruct (IH _ H2) as [H3 E3]. split; [exact H3|].
    pose proof (pow2_pos k) as Hk.
    rewrite E3, E2, shr_1_div2 by exact H.
    rewrite !Z.div_div by lia.
    f_equal. change (Z.pos k~1) with (2 * Z.pos k + 1).
    replace (2 * Z.pos k + 1) with (1 + Z.pos k + Z.pos k) by lia.
    rewrite !Z.pow_add_r by lia. lia.
  - destruct (IH mrs H) as [H2 E2].
    destruct (IH _ H2) as [H3 E3]. split; [exact H3|].
    pose proof (pow2_pos k) as Hk.
    rewrite E3, E2.
    rewrite !Z.div_div by lia.
    f_equal. change (Z.pos k~0) with (2 * Z.pos k).
    replace (2 * Z.pos k) with (Z.pos k + Z.pos k) by lia.
    rewrite !Z.pow_add_r by lia. lia.
  - split; [apply shr_1_nonneg, H|]. rewrite shr_1_div2 by exact H. reflexivity.
Qed.

(** One rounding shift keeps a positive mantissa positive and raises the
    exponent by the digits above 53. *)
Lemma shr_fexp_pos (m e : Z) (l : location) :
  0 < m -> -1074 <= e ->
  0 < shr_m (fst (shr_fexp 53 1024 m e l)) /\
  shr_m (fst (shr_fexp 53 1024 m e l)) <= m /\
  e <= snd (shr_fexp 53 1024 m e l) <= e + Z.max 0 (Zdigits2 m - 53).
Proof.
  intros Hm He. unfold shr_fexp, fexp, emin.
  pose proof (Zdigits2_bounds m Hm) as [Hlo Hhi].
  pose proof (Zdigits2_pos m Hm) as Hd.
  destruct (Z.max (Zdigits2 m + e - 53) (3 - 1024 - 53) - e) as [|k|k] eqn:En;
    simpl; rewrite ?shr_record_of_loc_m; try lia.
  assert (Ek : Z.pos k = Zdigits2 m - 53) by lia.
  destruct (iter_shr_1 k (shr_record_of_loc m l)) as [_ E];
    [rewrite shr_record_of_loc_m; lia|].
  rewrite shr_record_of_loc_m in E. rewrite E.
  assert (Hp : 0 < 2 ^ Z.pos k) by (apply Z.pow_pos_nonneg; lia).
  split; [|split; [|lia]].
  - apply Z.div_str_pos. split; [exact Hp|].
    transitivity (2 ^ (Zdigits2 m - 1)); [|exact Hlo].
    apply Z.pow_le_mono_r; lia.
  - apply Z.div_le_upper_bound; [exact Hp|]. nia.
Qed.

Lemma binary_round_aux_finite (sx : bool) (m e : Z) (lx : location) :
  0 < m -> -1074 <= e ->
  e + 2 * Z.max 0 (Zdigits2 m - 52) <= 971 ->
  exists m' e', binary_round_aux 53 1024 sx m e lx = S754_finite sx m' e'.
Proof.
  intros Hm He Hb. unfold binary_round_aux.
  pose proof (shr_fexp_pos m e lx Hm He) as (H1 & H1m & H1e).
  destruct (shr_fexp 53 1024 m e lx) as [mrs' e'] eqn:E1. simpl in H1, H1m, H1e.
  pose proof (round_nearest_even_bounds (shr_m mrs') (loc_of_shr_record mrs')) as Hr.
  set (m2 := round_nearest_even (shr_m mrs') (loc_of_shr_record mrs')) in *.
  pose proof (Zdigits2_bounds m Hm) as [_ Hhi].
  pose proof (Zdigits2_pos m Hm) as Hd.
  assert (Hd2 : Zdigits2 m2 <= Zdigits2 m + 1).
  { apply Zdigits2_le; [lia|]. rewrite pow2_succ by lia. lia. }
  pose proof (shr_fexp_pos m2 e' loc_Exact ltac:(lia) ltac:(lia)) as (H2 & _ & H2e).
  destruct (shr_fexp 53 1024 m2 e' loc_Exact) as [mrs'' e''] eqn:E2.
  simpl in H2, H2e.
  destruct (shr_m mrs'') as [|m'|m']; try lia.
  exists m', e''.
  destruct (Z.leb_spec e'' (1024 - 53)); [reflexivity|lia].
Qed.

Lemma Zpos_iter_xO (p k : positive) : Z.pos (Pos.iter xO p k) = Z.pos p * 2 ^ Z.pos k.
Proof.
  rewrite (Pos.iter_swap_gen _ _ Z.pos xO (Z.mul 2)) by reflexivity.
  rewrite <- Z.shiftl_mul_pow2 by lia. reflexivity.
Qed.

(** A count between 1 and 2^64 - 1 becomes a positive finite float. *)
Lemma float64_of_uint64_finite (n : Z) :
  0 < n < 2 ^ 64 ->
  exists m e, float64_of_uint64 n = S754_finite false m e.
Proof.
  intros [Hpos Hlt]. destruct n as [|p|p]; try lia.
  unfold float64_of_uint64, binary_normalize, binary_round.
  pose proof (digits2_pos_bounds p) as [Hlo Hhi].
  assert (Hd : Z.pos (digits2_pos p) <= 64).
  { apply (Zdigits2_le (Z.pos p) 64); lia. }
  unfold shl_align, fexp, emin.
  destruct (Z.max (Z.pos (digits2_pos p) + 0 - 53) (3 - 1024 - 53) - 0) as [|k|k] eqn:Ek.
  - apply binary_round_aux_finite; simpl Zdigits2; lia.
  - apply binary_round_aux_finite; simpl Zdigits2; lia.
  - assert (Hk : Z.pos k = 53 - Z.pos (digits2_pos p)) by lia.
    apply binary_round_aux_finite; [lia|lia|].
    assert (Hz : Zdigits2 (Z.pos (Pos.iter xO p k)) <= 53).
    { apply Zdigits2_le; [lia|]. rewrite Zpos_iter_xO.
      replace 53 with (Z.pos (digits2_pos p) + Z.pos k) by lia.
      rewrite Z.pow_add_r by lia.
      apply Z.mul_lt_mono_pos_r; [apply pow2_pos|exact Hhi]. }
    lia.
Qed.

(** The frequency of a positive count is never NaN. *)
Lemma fdiv_counts_notNaN (occ totalWords : Z) :
  0 < occ < 2 ^ 64 ->
  isNaN (fdiv (float64_of_uint64 occ) (float64_of_uint64 totalWords)) = false.
Proof.
  intros Hocc. destruct (float64_of_uint64_finite occ Hocc) as (m & e & ->).
  pose proof (float64_of_uint64_notNaN totalWords) as Hy.
  destruct (float64_of_uint64 totalWords) as [sy|sy| |sy my ey];
    try reflexivity; try discriminate.
  unfold fdiv, SFdiv.
  destruct (SFdiv_core_binary 53 1024 (Z.pos m) e (Z.pos my) ey) as [[mz ez] lz] eqn:E.
  apply binary_round_aux_notNaN.
  unfold SFdiv_core_binary in E.
  destruct (Z.div_eucl _ (Z.pos my)) as [q r] eqn:Ed. injection E as <- _ _.
  match type of Ed with Z.div_eucl ?a ?b = _ =>
    pose proof (Z_div_mod a b ltac:(lia)) as Hdm; rewrite Ed in Hdm;
    assert (0 <= a) end.
  { destruct (e - ey - _) as [|s|s]; try lia. apply Z.shiftl_nonneg. lia. }
  nia.
Qed.

(** ** [sort.Slice] *)

Section SortFacts.
Context {A : Type} (lt : A -> A -> bool).

(** No inversion between neighbours: [lt later earlier] never holds. Lists
    of this section run from right to left, so the later element is the
    first one. *)
Let R (later earlier : A) : Prop := lt later earlier = false.

Hypothesis lt_asym : forall a b, lt a b = true -> lt b a = false.

Lemma sift_perm (x : A) (before : list A) :
  Permutation (x :: before) (sift lt x before).
Proof.
  induction before as [|p ps IH]; simpl; [reflexivity|].
  destruct (lt x p); [|reflexivity].
  rewrite perm_swap. apply perm_skip, IH.
Qed.

Lemma sift_HdRel (p x : A) (ps : list A) :
  R p x -> HdRel R p ps -> HdRel R p (sift lt x ps).
Proof.
  intros Hx Hps. destruct ps as [|q qs]; simpl.
  - constructor; assumption.
  - destruct (lt x q); constructor; [inversion Hps; assumption | assumption].
Qed.

Lemma sift_Sorted (x : A) (before : list A) :
  Sorted R before -> Sorted R (sift lt x before).
Proof.
  induction before as [|p ps IH]; simpl; intros Hs.
  - repeat constructor.
  - apply Sorted_inv in Hs as [Hps Hhd].
    destruct (lt x p) eqn:E.
    + constructor; [apply IH, Hps|].
      apply sift_HdRel; [apply lt_asym, E | assumption].
    + constructor; [constructor; assumption|]. constructor. exact E.
Qed.

Lemma fold_sift_perm (data before : list A) :
  Permutation (rev before ++ data)
              (rev (fold_left (fun b x => sift lt x b) data before)).
Proof.
  revert before. induction data as [|x data IH]; intros before; simpl.
  - rewrite app_nil_r. reflexivity.
  - rewrite <- IH. rewrite <- (sift_perm x before). simpl.
    rewrite <- app_assoc. reflexivity.
Qed.

Lemma fold_sift_Sorted (data before : list A) :
  Sorted R before ->
  Sorted R (fold_left (fun b x => sift lt x b) data before).
Proof.
  revert before. induction data as [|x data IH]; intros before Hs; simpl.
  - exact Hs.
  - apply IH, sift_Sorted, Hs.
Qed.

Lemma Sorted_neighbours (l l1 l2 : list A) (a b : A) :
  Sorted R l -> l = l1 ++ a :: b :: l2 -> R a b.
Proof.
  intros Hs. revert l1. induction Hs as [|c l Hs IH Hhd]; intros l1 E.
  - destruct l1; discriminate.
  - destruct l1 as [|d l1]; simpl in E; injection E as -> ->.
    + inversion Hhd; assumption.
    + eapply IH; reflexivity.
Qed.

Lemma insertionSort_perm (data : list A) :
  Permutation data (insertionSort lt data).
Proof. exact (fold_sift_perm data []). Qed.

(** In the sorted slice no element is [lt] its left neighbour. *)
Lemma insertionSort_neighbours (data l1 l2 : list A) (a b : A) :
  insertionSort lt data = l1 ++ a :: b :: l2 -> lt b a = false.
Proof.
  unfold insertionSort. intros E.
  apply (f_equal (@rev A)) in E. rewrite rev_involutive in E.
  rewrite rev_app_distr in E. simpl in E. rewrite <- !app_assoc in E.
  simpl in E.
  eapply (Sorted_neighbours _ (rev l2) (rev l1) b a); [|exact E].
  apply fold_sift_Sorted. constructor.
Qed.
End SortFacts.

(** ** The total-count provider (C2) *)

Lemma ParseInt_isParseError (s : string) (bitSize : Z) (e : error) :
  ParseInt s bitSize = Err e -> isParseError e = true.
Proof.
  unfold ParseInt. destruct s as [|c rest]; [intros [= <-]; reflexivity|].
  destruct (ParseUint _ _) as [[]|un]; try (intros [= <-]; reflexivity).
  destruct (negb _ && _); [intros [= <-]; reflexivity|].
  destruct (_ && _); [intros [= <-]; reflexivity|discriminate].
Qed.

Lemma uint64_add_r (a b : Z) : uint64 (uint64 a + uint64 b) = uint64 (a + b).
Proof. unfold uint64. rewrite <- Zplus_mod. reflexivity. Qed.

Lemma uint64_idem (a : Z) : uint64 (uint64 a) = uint64 a.
Proof. unfold uint64. apply Zmod_mod. Qed.

Lemma uint64_small (a : Z) : 0 <= a < 2 ^ 64 -> uint64 a = a.
Proof. unfold uint64. apply Z.mod_small. Qed.

Lemma sumTotals_wellformed (totals : list string) (acc : Z) :
  existsb malformed totals = false ->
  sumTotals totals (uint64 acc) = Ok (uint64 (acc + countedSum totals)).
Proof.
  revert acc. induction totals as [|g rest IH]; intros acc H.
  - unfold countedSum. simpl. rewrite Z.add_0_r. reflexivity.
  - simpl in H. apply orb_false_iff in H as [Hg Hrest].
    unfold countedSum in *. simpl.
    unfold malformed, counted, groupYear, groupTotal, subfields in *.
    destruct (Nat.ltb_spec (length (Split g ",")) 4) as [Hlt|Hge].
    + replace (4 <=? length (Split g ","))%nat with false
        by (symmetry; apply Nat.leb_gt; lia).
      simpl. apply IH, Hrest.
    + replace (4 <=? length (Split g ","))%nat with true in *
        by (symmetry; apply Nat.leb_le; lia).
      simpl in *.
      destruct (ParseInt (nth 0 (Split g ",") "") 16) as [year|e];
        [|discriminate].
      destruct (Z.ltb_spec year minYear) as [Hy|Hy].
      * replace (minYear <=? year) with false by (symmetry; apply Z.leb_gt; lia).
        apply IH, Hrest.
      * replace (minYear <=? year) with true in * by (symmetry; apply Z.leb_le; lia).
        simpl in *. unfold totalOf at 1, groupTotal, subfields.
        destruct (ParseInt (nth 1 (Split g ",") "") 64) as [t|e];
          [|discriminate].
        rewrite uint64_add_r, IH by exact Hrest.
        f_equal. f_equal. lia.
Qed.

Lemma sumTotals_malformed (totals : list string) (acc : Z) :
  existsb malformed totals = true ->
  exists e, sumTotals totals acc = Err e /\ isParseError e = true.
Proof.
  revert acc. induction totals as [|g rest IH]; intros acc H; [discriminate|].
  simpl in H. simpl.
  unfold malformed at 1, groupYear, groupTotal, subfields in H.
  destruct (Nat.ltb_spec (length (Split g ",")) 4) as [Hlt|Hge].
  - replace (4 <=? length (Split g ","))%nat with false in H
      by (symmetry; apply Nat.leb_gt; lia).
    apply IH, H.
  - replace (4 <=? length (Split g ","))%nat with true in H
      by (symmetry; apply Nat.leb_le; lia).
    simpl in H.
    destruct (ParseInt (nth 0 (Split g ",") "") 16) as [year|e] eqn:Ey.
    + destruct (Z.ltb_spec year minYear) as [Hy|Hy].
      * replace (minYear <=? year) with false in H
          by (symmetry; apply Z.leb_gt; lia).
        apply IH, H.
      * destruct (ParseInt (nth 1 (Split g ",") "") 64) as [t|e] eqn:Et.
        -- rewrite andb_false_r in H. apply IH, H.
        -- exists e. split; [reflexivity|].
           eapply ParseInt_isParseError, Et.
    + exists e. split; [reflexivity|]. eapply ParseInt_isParseError, Ey.
Qed.

(** C2: on a totals line whose groups are well formed, [parseTotal] returns
    the uint64 sum of the totals of the counted groups, which is their sum as
    long as that fits 64 bits; on a line with a malformed group it fails with
    a parse error. *)
Theorem parseTotal_counted_sum (totals : list string) :
  (existsb malformed totals = false ->
   parseTotal [Rec totals] = Ok (uint64 (countedSum totals))) /\
  (existsb malformed totals = false ->
   0 <= countedSum totals < 2 ^ 64 ->
   parseTotal [Rec totals] = Ok (countedSum totals)) /\
  (existsb malformed totals = true ->
   exists e, parseTotal [Rec totals] = Err e /\ isParseError e = true).
Proof.
  assert (Hok : existsb malformed totals = false ->
                parseTotal [Rec totals] = Ok (uint64 (countedSum totals))).
  { intros H. unfold parseTotal. simpl.
    change 0 with (uint64 0) at 1.
    rewrite (sumTotals_wellformed totals 0 H). reflexivity. }
  split; [exact Hok|]. split.
  - intros H Hr. rewrite (Hok H), uint64_small by exact Hr. reflexivity.
  - intros H. unfold parseTotal. simpl. apply sumTotals_malformed, H.
Qed.

(** Totals are parsed as signed and added as unsigned: a negative total wraps
    around. *)
Example parseTotal_negative :
  parseTotal [Rec ["1960,-1,0,0"]] = Ok 18446744073709551615.
Proof. reflexivity. Qed.

(** A group with fewer than 4 subfields is passed over whatever it holds. *)
Example parseTotal_short_group :
  parseTotal [Rec ["x,y,z"; "1970,7,1,1"; ""]] = Ok 7.
Proof. reflexivity. Qed.

(** ** Tokens *)

Lemma Split_nonempty (s : string) (sep : ascii) : Split s sep <> [].
Proof.
  destruct s as [|a s]; simpl; [discriminate|].
  destruct (Ascii.eqb a sep); [discriminate|].
  destruct (Split s sep); discriminate.
Qed.

Lemma Split_head (s : string) (sep : ascii) :
  nth 0 (Split s sep) "" = prefixBefore sep s.
Proof.
  induction s as [|a s IH]; simpl; [reflexivity|].
  destruct (Ascii.eqb a sep); [reflexivity|].
  destruct (Split s sep) as [|p ps] eqn:E; simpl in *.
  - destruct (Split_nonempty _ _ E).
  - rewrite IH. reflexivity.
Qed.

Lemma prefixBefore_free (c : ascii) (s : string) :
  Contains (prefixBefore c s) c = false.
Proof.
  induction s as [|a s IH]; simpl; [reflexivity|].
  destruct (Ascii.eqb a c) eqn:E; simpl; [reflexivity|].
  rewrite E. exact IH.
Qed.

Lemma prefixBefore_Contains (c d : ascii) (s : string) :
  Contains s d = false -> Contains (prefixBefore c s) d = false.
Proof.
  induction s as [|a s IH]; simpl; [reflexivity|].
  destruct (Ascii.eqb a d) eqn:E; [discriminate|]. intros H.
  destruct (Ascii.eqb a c); simpl; [reflexivity|].
  rewrite E. apply IH, H.
Qed.

(** ** Rows (C4, C5, C6) *)

Lemma Read_length (record : list string) :
  length record = 4%nat -> Read 4 (Rec record) = Ok record.
Proof. intros H. simpl. rewrite H. reflexivity. Qed.

(** What [ingestRecord] does, case by case, in the order of its tests. *)
Lemma ingestRecord_period (record : list string) (wordMap : gmap string Z) :
  Contains (nth 0 record "") "."%char = true ->
  ingestRecord record wordMap = Ok wordMap.
Proof. unfold ingestRecord. intros ->. reflexivity. Qed.

Lemma ingestRecord_bad_year record (wordMap : gmap string Z) e :
  Contains (nth 0 record "") "."%char = false ->
  ParseInt (nth 1 record "") 16 = Err e ->
  ingestRecord record wordMap = Err e.
Proof. unfold ingestRecord. intros -> ->. reflexivity. Qed.

Lemma ingestRecord_old record (wordMap : gmap string Z) year :
  Contains (nth 0 record "") "."%char = false ->
  ParseInt (nth 1 record "") 16 = Ok year ->
  year < minYear ->
  ingestRecord record wordMap = Ok wordMap.
Proof.
  unfold ingestRecord. intros -> -> Hy.
  destruct (Z.ltb_spec year minYear); [reflexivity|lia].
Qed.

Lemma ingestRecord_bad_count record (wordMap : gmap string Z) year e :
  Contains (nth 0 record "") "."%char = false ->
  ParseInt (nth 1 record "") 16 = Ok year ->
  minYear <= year ->
  ParseInt (nth 2 record "") 64 = Err e ->
  ingestRecord record wordMap = Err e.
Proof.
  unfold ingestRecord. intros -> -> Hy ->.
  destruct (Z.ltb_spec year minYear); [lia|reflexivity].
Qed.

Lemma ingestRecord_accepted record (wordMap : gmap string Z) year count :
  Contains (nth 0 record "") "."%char = false ->
  ParseInt (nth 1 record "") 16 = Ok year ->
  minYear <= year ->
  ParseInt (nth 2 record "") 64 = Ok count ->
  ingestRecord record wordMap =
    Ok (<[canonical (nth 0 record "") :=
            uint64 (default 0 (wordMap !! canonical (nth 0 record "")) + uint64 count)]>
          wordMap).
Proof.
  unfold ingestRecord, canonical. intros -> -> Hy ->.
  destruct (Z.ltb_spec year minYear); [lia|].
  rewrite Split_head. reflexivity.
Qed.

(** The rows read before a row decide the map it meets; a row that leaves
    every map as it is can be taken out of the source. *)
Lemma ingest_app (before after : list readResult) (wordMap : gmap string Z) :
  ingest (before ++ after) wordMap =
    match ingest before wordMap with
    | Ok wordMap' =>
        if existsb (fun x => match x with ReadErr EOF => true | _ => false end) before
        then Ok wordMap' else ingest after wordMap'
    | Err e => Err e
    end.
Proof.
  revert wordMap. induction before as [|x before IH]; intros wordMap; simpl.
  - destruct (ingest after wordMap); reflexivity.
  - destruct x as [fields|e]; simpl.
    + destruct (length fields =? 4)%nat; [|reflexivity].
      destruct (ingestRecord fields wordMap); [apply IH|reflexivity].
    + destruct e; reflexivity.
Qed.

Lemma ingest_skip (record : list string) (before after : list readResult)
    (wordMap0 : gmap string Z) :
  length record = 4%nat ->
  (forall wordMap : gmap string Z, ingestRecord record wordMap = Ok wordMap) ->
  ingest (before ++ Rec record :: after) wordMap0 = ingest (before ++ after) wordMap0.
Proof.
  intros Hlen Hskip. rewrite !ingest_app.
  destruct (ingest before wordMap0) as [wordMap|e]; [|reflexivity].
  destruct (existsb _ before); [reflexivity|].
  change (ingest (Rec record :: after) wordMap)
    with (match Read 4 (Rec record) with
          | Err EOF => Ok wordMap
          | Err e => Err e
          | Ok record =>
              match ingestRecord record wordMap with
              | Err e => Err e
              | Ok wordMap' => ingest after wordMap'
              end
          end).
  rewrite (Read_length record Hlen), Hskip. reflexivity.
Qed.

(** C4: an accepted row adds its count under the canonical token, the bytes
    of the raw token before its first underscore in lower case; so a row for
    "Dog_NOUN" and a row for "dog" add up under "dog". *)
Theorem accepted_row_canonical_token :
  (forall (raw year count volumes : string) (y c : Z) (wordMap : gmap string Z),
     Contains raw "."%char = false ->
     ParseInt year 16 = Ok y ->
     minYear <= y ->
     ParseInt count 64 = Ok c ->
     ingestRecord [raw; year; count; volumes] wordMap =
       Ok (<[canonical raw :=
               uint64 (default 0 (wordMap !! canonical raw) + uint64 c)]> wordMap)) /\
  canonical "Dog_NOUN" = "dog" /\
  canonical "dog" = "dog" /\
  ingest [Rec ["Dog_NOUN"; "1960"; "60"; "1"]; Rec ["dog"; "1961"; "50"; "1"]] ∅
    = Ok {[ "dog" := 110 ]}.
Proof.
  split; [|repeat split; vm_compute; reflexivity].
  intros raw year count volumes y c wordMap Hp Hy Hge Hc.
  exact (ingestRecord_accepted [raw; year; count; volumes] wordMap y c Hp Hy Hge Hc).
Qed.

(** C5: a row whose raw token holds a period is passed over without an
    error, whatever its other fields hold, and the worker ends with the map
    it would have without that row. *)
Theorem period_row_skipped (raw year count volumes : string)
    (before after : list readResult) (wordMap wordMap0 : gmap string Z) :
  Contains raw "."%char = true ->
  ingestRecord [raw; year; count; volumes] wordMap = Ok wordMap /\
  ingest (Rec [raw; year; count; volumes] :: after) wordMap = ingest after wordMap /\
  ingest (before ++ Rec [raw; year; count; volumes] :: after) wordMap0
    = ingest (before ++ after) wordMap0.
Proof.
  intros Hp.
  assert (Hskip : forall m : gmap string Z,
             ingestRecord [raw; year; count; volumes] m = Ok m).
  { intros m. apply ingestRecord_period. exact Hp. }
  split; [apply Hskip|]. split.
  - simpl. rewrite Hskip. reflexivity.
  - apply ingest_skip; [reflexivity|exact Hskip].
Qed.

(** C6: the tests of a row come in the order period, year, cutoff, count.
    A row with a period is passed over though its year and count are
    malformed; a malformed year is fatal; a row from before 1960 is passed
    over though its count is malformed, and leaves no trace in the result; a
    malformed count is fatal; otherwise the count is added. *)
Theorem row_processing_order (raw year count volumes : string)
    (before after : list readResult) (wordMap wordMap0 : gmap string Z) :
  let row := Rec [raw; year; count; volumes] in
  (Contains raw "."%char = true ->
   ingest (row :: after) wordMap = ingest after wordMap) /\
  (forall e,
     Contains raw "."%char = false ->
     ParseInt year 16 = Err e ->
     ingest (row :: after) wordMap = Err e /\ isParseError e = true) /\
  (forall y,
     Contains raw "."%char = false ->
     ParseInt year 16 = Ok y ->
     y < minYear ->
     ingest (row :: after) wordMap = ingest after wordMap /\
     ingest (before ++ row :: after) wordMap0 = ingest (before ++ after) wordMap0) /\
  (forall y e,
     Contains raw "."%char = false ->
     ParseInt year 16 = Ok y ->
     minYear <= y ->
     ParseInt count 64 = Err e ->
     ingest (row :: after) wordMap = Err e /\ isParseError e = true) /\
  (forall y c,
     Contains raw "."%char = false ->
     ParseInt year 16 = Ok y ->
     minYear <= y ->
     ParseInt count 64 = Ok c ->
     ingest (row :: after) wordMap =
       ingest after (<[canonical raw :=
                         uint64 (default 0 (wordMap !! canonical raw) + uint64 c)]>
                       wordMap)).
Proof.
  intros row. subst row.
  assert (Hstep : forall m : gmap string Z,
             ingest (Rec [raw; year; count; volumes] :: after) m =
             match ingestRecord [raw; year; count; volumes] m with
             | Err e => Err e
             | Ok m' => ingest after m'
             end) by reflexivity.
  split; [|split; [|split; [|split]]].
  - intros Hp. rewrite Hstep, ingestRecord_period by exact Hp. reflexivity.
  - intros e Hp Hy. split; [|eapply ParseInt_isParseError; exact Hy].
    rewrite Hstep, (ingestRecord_bad_year _ _ e) by assumption. reflexivity.
  - intros y Hp Hy Hlt. split.
    + rewrite Hstep, (ingestRecord_old _ _ y) by assumption. reflexivity.
    + apply ingest_skip; [reflexivity|].
      intros m. apply (ingestRecord_old _ _ y); assumption.
  - intros y e Hp Hy Hge Hc. split; [|eapply ParseInt_isParseError; exact Hc].
    rewrite Hstep, (ingestRecord_bad_count _ _ y e) by assumption. reflexivity.
  - intros y c Hp Hy Hge Hc.
    rewrite Hstep, (ingestRecord_accepted _ _ y c) by assumption. reflexivity.
Qed.

(** ** The map of a worker holds the summed counts *)

Lemma uint64_range (z : Z) : 0 <= uint64 z < 2 ^ 64.
Proof. unfold uint64. apply Z.mod_pos_bound. reflexivity. Qed.

Lemma uint64_add_l (a b : Z) : uint64 (uint64 a + b) = uint64 (a + b).
Proof. unfold uint64. apply Zplus_mod_idemp_l. Qed.

Lemma uint64_add_uint64 (a b : Z) : uint64 (a + uint64 b) = uint64 (a + b).
Proof. unfold uint64. apply Zplus_mod_idemp_r. Qed.

Lemma ingestRecord_contribution (record : list string)
    (wordMap wordMap' : gmap string Z) (token : string) :
  ingestRecord record wordMap = Ok wordMap' ->
  uint64 (default 0 (wordMap' !! token)) =
    uint64 (default 0 (wordMap !! token) + contribution token (Rec record)).
Proof.
  unfold ingestRecord, contribution, accepted. intros H.
  destruct (Contains (nth 0 record "") ".").
  { injection H as <-. rewrite Z.add_0_r. reflexivity. }
  destruct (ParseInt (nth 1 record "") 16) as [year|e]; [|discriminate].
  destruct (Z.ltb_spec year minYear) as [Hy|Hy].
  { injection H as <-.
    replace (minYear <=? year) with false by (symmetry; apply Z.leb_gt; lia).
    destruct (ParseInt (nth 2 record "") 64); rewrite Z.add_0_r; reflexivity. }
  destruct (ParseInt (nth 2 record "") 64) as [count|e]; [|discriminate].
  replace (minYear <=? year) with true by (symmetry; apply Z.leb_le; lia).
  injection H as <-. rewrite Split_head. fold (canonical (nth 0 record "")).
  destruct (String.eqb_spec (canonical (nth 0 record "")) token) as [->|Hne].
  - rewrite lookup_insert_eq. simpl.
    rewrite uint64_idem, uint64_add_uint64. reflexivity.
  - rewrite lookup_insert_ne by exact Hne. rewrite Z.add_0_r. reflexivity.
Qed.

Lemma ingestRecord_range (record : list string) (wordMap wordMap' : gmap string Z) :
  ingestRecord record wordMap = Ok wordMap' ->
  map_Forall (fun _ occ => 0 <= occ < 2 ^ 64) wordMap ->
  map_Forall (fun _ occ => 0 <= occ < 2 ^ 64) wordMap'.
Proof.
  unfold ingestRecord. intros H Hall.
  destruct (Contains (nth 0 record "") "."); [injection H as <-; exact Hall|].
  destruct (ParseInt (nth 1 record "") 16) as [year|e]; [|discriminate].
  destruct (year <? minYear); [injection H as <-; exact Hall|].
  destruct (ParseInt (nth 2 record "") 64) as [count|e]; [|discriminate].
  injection H as <-. apply map_Forall_insert_2; [apply uint64_range|exact Hall].
Qed.

(** A worker that reads its source to the end holds, for every token, the
    sum of the counts of the accepted rows of that token, as a uint64. *)
Lemma ingest_summedCount (rd : list readResult) (wordMap0 wordMap : gmap string Z)
    (token : string) :
  ReadErr EOF ∉ rd ->
  ingest rd wordMap0 = Ok wordMap ->
  uint64 (default 0 (wordMap !! token)) =
    uint64 (default 0 (wordMap0 !! token) + summedCount token rd) /\
  (map_Forall (fun _ occ => 0 <= occ < 2 ^ 64) wordMap0 ->
   map_Forall (fun _ occ => 0 <= occ < 2 ^ 64) wordMap).
Proof.
  unfold summedCount.
  revert wordMap0. induction rd as [|x rd IH]; intros wordMap0 Hne H; simpl in H.
  - injection H as <-. simpl. rewrite Z.add_0_r. auto.
  - assert (Hne' : ReadErr EOF ∉ rd) by (intros Hin; apply Hne; right; exact Hin).
    destruct x as [record|e].
    + simpl in H. destruct (length record =? 4)%nat; [|discriminate].
      destruct (ingestRecord record wordMap0) as [m|e] eqn:Hr; [|discriminate].
      destruct (IH m Hne' H) as [IHs IHr]. split.
      * rewrite IHs. unfold sumZ. cbn [map fold_right].
        rewrite <- (uint64_add_l (default 0 (m !! token))).
        rewrite (ingestRecord_contribution _ _ _ token Hr).
        rewrite uint64_add_l. f_equal. lia.
      * intros Hall. apply IHr. eapply ingestRecord_range; eassumption.
    + simpl in H. destruct e; try discriminate. destruct Hne. left.
Qed.

Lemma ingest_summedCount_empty (rd : list readResult) (wordMap : gmap string Z)
    (token : string) (occ : Z) :
  ReadErr EOF ∉ rd ->
  ingest rd ∅ = Ok wordMap ->
  wordMap !! token = Some occ ->
  occ = uint64 (summedCount token rd).
Proof.
  intros Hne H Hl. destruct (ingest_summedCount rd ∅ wordMap token Hne H) as [Hs Hr].
  rewrite Hl, lookup_empty in Hs. cbn [default] in Hs.
  rewrite Z.add_0_l in Hs. rewrite <- Hs.
  symmetry. apply uint64_small.
  exact (Hr (map_Forall_empty _) token occ Hl).
Qed.

(** ** What a worker sends (C3) *)

Lemma emitAll_shape (totalWords : Z) (kvs : list (string * Z)) :
  emitAll totalWords kvs = map EvWord (wordsOf (emitAll totalWords kvs)) ++ [EvDone].
Proof.
  unfold emitAll. induction kvs as [|[token occ] kvs IH]; simpl; [reflexivity|].
  unfold emit at 1 3. simpl.
  destruct (minOccurrences <? occ); simpl; [f_equal|]; exact IH.
Qed.

Lemma wordsOf_emitAll_cons (totalWords : Z) (token : string) (occ : Z)
    (kvs : list (string * Z)) :
  wordsOf (emitAll totalWords ((token, occ) :: kvs)) =
    (if minOccurrences <? occ then [statOf totalWords token occ] else [])
      ++ wordsOf (emitAll totalWords kvs).
Proof.
  unfold emitAll. simpl. unfold emit at 1. simpl.
  destruct (minOccurrences <? occ); reflexivity.
Qed.

Lemma wordsOf_emitAll_elem (totalWords : Z) (kvs : list (string * Z)) (w : wordStat) :
  w ∈ wordsOf (emitAll totalWords kvs) <->
  exists token occ,
    (token, occ) ∈ kvs /\ minOccurrences < occ /\ w = statOf totalWords token occ.
Proof.
  induction kvs as [|[token occ] kvs IH].
  - simpl. split; [intros H; inversion H|].
    intros (t & o & H & _). inversion H.
  - rewrite wordsOf_emitAll_cons, elem_of_app, IH. split.
    + intros [H|(t & o & H & Hrest)].
      * destruct (Z.ltb_spec minOccurrences occ) as [Hlt|Hge]; [|inversion H].
        apply list_elem_of_singleton in H. exists token, occ.
        split; [left|]. split; assumption.
      * exists t, o. split; [right; exact H|exact Hrest].
    + intros (t & o & H & Hlt & ->).
      apply elem_of_cons in H as [[= -> ->]|H].
      * left. destruct (Z.ltb_spec minOccurrences occ); [left|lia].
      * right. exists t, o. auto.
Qed.

Lemma wordsOf_emitAll_tokens (totalWords : Z) (kvs : list (string * Z)) (token : string) :
  token ∈ map word (wordsOf (emitAll totalWords kvs)) -> token ∈ map fst kvs.
Proof.
  induction kvs as [|[t occ] kvs IH].
  - simpl. intros H. inversion H.
  - rewrite wordsOf_emitAll_cons, map_app, elem_of_app. simpl.
    intros [H|H].
    + destruct (minOccurrences <? occ); simpl in H; [|inversion H].
      apply list_elem_of_singleton in H. subst. left.
    + right. apply IH, H.
Qed.

Lemma wordsOf_emitAll_NoDup (totalWords : Z) (kvs : list (string * Z)) :
  NoDup (map fst kvs) -> NoDup (map word (wordsOf (emitAll totalWords kvs))).
Proof.
  induction kvs as [|[t occ] kvs IH]; simpl.
  - intros _. constructor.
  - intros H. apply NoDup_cons in H as [Hnotin Hnd].
    rewrite wordsOf_emitAll_cons, map_app.
    destruct (minOccurrences <? occ); simpl; [|apply IH, Hnd].
    apply NoDup_cons. split; [|apply IH, Hnd].
    intros Hin. apply Hnotin. eapply wordsOf_emitAll_tokens, Hin.
Qed.

Lemma map_fst_fmap {A B} (l : list (A * B)) : map fst l = l.*1.
Proof. induction l as [|x l IH]; simpl; [reflexivity|]. rewrite IH. reflexivity. Qed.

(** Every source has a worker: the model leaves no source without sends. *)
Lemma goroutine_total (totalWords : Z) (src : source) :
  exists tr, goroutine totalWords src tr.
Proof.
  destruct (gzipErr src) as [e|] eqn:Hz.
  - exists [EvErr e]. apply goroutine_gzip, Hz.
  - destruct (ingest (rows src) ∅) as [wordMap|e] eqn:Hi.
    + exists (emitAll totalWords (map_to_list wordMap)).
      eapply goroutine_done; [exact Hz|exact Hi|reflexivity].
    + exists [EvErr e]. apply goroutine_read; assumption.
Qed.

Lemma goroutine_inv (totalWords : Z) (src : source) (tr : list event) :
  goroutine totalWords src tr ->
  match workerError src with
  | Some e => tr = [EvErr e]
  | None =>
      exists wordMap kvs,
        ingest (rows src) ∅ = Ok wordMap /\
        kvs ≡ₚ map_to_list wordMap /\
        tr = emitAll totalWords kvs
  end.
Proof.
  unfold workerError. intros [e Hz|e Hz Hi|wordMap kvs Hz Hi Hp]; rewrite Hz.
  - reflexivity.
  - rewrite Hi. reflexivity.
  - rewrite Hi. exists wordMap, kvs. auto.
Qed.

(** C3: a worker that reads its source to the end sends one entry for each
    token whose summed count is above [minOccurrences], with the frequency
    count / denominator, no entry for any other token, and then [done]. A
    count of 10000 is not sent, a count of 10001 is. The count of a token is
    the uint64 sum of the counts of its accepted rows. *)
Theorem aggregator_emits_above_threshold (totalWords : Z) (src : source)
    (wordMap : gmap string Z) (tr : list event) :
  gzipErr src = None ->
  ingest (rows src) ∅ = Ok wordMap ->
  goroutine totalWords src tr ->
  tr = map EvWord (wordsOf tr) ++ [EvDone] /\
  NoDup (map word (wordsOf tr)) /\
  (forall w,
     w ∈ wordsOf tr <->
     exists occ,
       wordMap !! word w = Some occ /\ minOccurrences < occ /\
       w = statOf totalWords (word w) occ) /\
  (forall token,
     wordMap !! token = Some minOccurrences ->
     token ∉ map word (wordsOf tr)) /\
  (forall token,
     wordMap !! token = Some (minOccurrences + 1) ->
     statOf totalWords token (minOccurrences + 1) ∈ wordsOf tr) /\
  (ReadErr EOF ∉ rows src ->
   forall token occ,
     wordMap !! token = Some occ -> occ = uint64 (summedCount token (rows src))).
Proof.
  intros Hz Hi Hg. apply goroutine_inv in Hg. unfold workerError in Hg.
  rewrite Hz, Hi in Hg. destruct Hg as (m & kvs & [= <-] & Hp & ->).
  assert (Hmem : forall w,
             w ∈ wordsOf (emitAll totalWords kvs) <->
             exists occ,
               wordMap !! word w = Some occ /\ minOccurrences < occ /\
               w = statOf totalWords (word w) occ).
  { intros w. rewrite wordsOf_emitAll_elem. split.
    - intros (token & occ & Hin & Hlt & ->). exists occ. simpl.
      rewrite Hp in Hin. apply elem_of_map_to_list in Hin. auto.
    - intros (occ & Hl & Hlt & Hw). exists (word w), occ.
      rewrite Hp. split; [apply elem_of_map_to_list, Hl|]. auto. }
  split; [apply emitAll_shape|]. split; [|split; [exact Hmem|split; [|split]]].
  - apply wordsOf_emitAll_NoDup. rewrite map_fst_fmap, Hp.
    apply NoDup_fst_map_to_list.
  - intros token Hl Hin.
    apply list_elem_of_In, in_map_iff in Hin as (w & <- & Hin).
    apply list_elem_of_In, Hmem in Hin as (occ & Hl' & Hlt & _).
    rewrite Hl in Hl'. injection Hl' as <-. lia.
  - intros token Hl. apply Hmem. exists (minOccurrences + 1). simpl.
    split; [exact Hl|]. split; [lia|reflexivity].
  - intros Hne token occ Hl.
    exact (ingest_summedCount_empty (rows src) wordMap token occ Hne Hi Hl).
Qed.

(** ** Emitted tokens (C8) *)

Lemma canonical_clean (raw : string) :
  lowersToLetters -> lowerIdempotent ->
  Contains raw "."%char = false -> cleanToken (canonical raw).
Proof.
  intros Htab Hid Hp. unfold cleanToken, canonical. repeat split.
  - apply ToLower_period; [exact Htab|]. apply prefixBefore_Contains, Hp.
  - apply ToLower_underscore; [exact Htab|]. apply prefixBefore_free.
  - apply ToLower_no_upper, Htab.
  - apply ToLower_idem, Hid.
Qed.

Lemma canonical_clean_ascii (raw : string) :
  isASCII raw = true ->
  Contains raw "."%char = false -> cleanToken (canonical raw).
Proof.
  intros Ha Hp. unfold cleanToken, canonical.
  pose proof (isASCII_prefixBefore "_" raw Ha) as Hq.
  rewrite (ToLower_isASCII _ Hq).
  rewrite lowerASCII_period, lowerASCII_underscore.
  rewrite ToLower_isASCII by (rewrite isASCII_lowerASCII; exact Hq).
  rewrite lowerASCII_idem. repeat split.
  - apply prefixBefore_Contains, Hp.
  - apply prefixBefore_free.
  - apply lowerASCII_no_upper.
Qed.

(** The rows whose token, when it has no period, is counted under a clean
    token keep the map clean. *)
Lemma ingestRecord_clean (record : list string) (wordMap wordMap' : gmap string Z) :
  (Contains (nth 0 record "") "."%char = false ->
   cleanToken (canonical (nth 0 record ""))) ->
  ingestRecord record wordMap = Ok wordMap' ->
  map_Forall (fun token _ => cleanToken token) wordMap ->
  map_Forall (fun token _ => cleanToken token) wordMap'.
Proof.
  unfold ingestRecord. intros Hrow H Hall.
  destruct (Contains (nth 0 record "") ".") eqn:Hp; [injection H as <-; exact Hall|].
  destruct (ParseInt (nth 1 record "") 16) as [year|e]; [|discriminate].
  destruct (year <? minYear); [injection H as <-; exact Hall|].
  destruct (ParseInt (nth 2 record "") 64) as [count|e]; [|discriminate].
  injection H as <-. apply map_Forall_insert_2; [|exact Hall].
  rewrite Split_head. apply Hrow. reflexivity.
Qed.

Lemma ingest_clean (rd : list readResult) (wordMap wordMap' : gmap string Z) :
  (forall record, Rec record ∈ rd ->
     Contains (nth 0 record "") "."%char = false ->
     cleanToken (canonical (nth 0 record ""))) ->
  ingest rd wordMap = Ok wordMap' ->
  map_Forall (fun token _ => cleanToken token) wordMap ->
  map_Forall (fun token _ => cleanToken token) wordMap'.
Proof.
  revert wordMap. induction rd as [|x rd IH]; intros wordMap Hrows H Hall;
    simpl in H.
  - injection H as <-. exact Hall.
  - destruct x as [fields|e0].
    + simpl in H. destruct (length fields =? 4)%nat; [|discriminate].
      destruct (ingestRecord fields wordMap) as [m|e] eqn:Hr; [|discriminate].
      apply (IH m); [|exact H|].
      * intros record Hin. apply Hrows. right. exact Hin.
      * eapply ingestRecord_clean; [|exact Hr|exact Hall].
        apply Hrows. left.
    + simpl in H. destruct e0; try discriminate. injection H as <-. exact Hall.
Qed.

Lemma goroutine_clean (totalWords : Z) (src : source) (tr : list event) (w : wordStat) :
  (forall record, Rec record ∈ rows src ->
     Contains (nth 0 record "") "."%char = false ->
     cleanToken (canonical (nth 0 record ""))) ->
  goroutine totalWords src tr -> w ∈ wordsOf tr -> cleanToken (word w).
Proof.
  intros Hrows [e Hz|e Hz Hi|wordMap kvs Hz Hi Hp].
  - simpl. intros H. inversion H.
  - simpl. intros H. inversion H.
  - intros Hin. apply wordsOf_emitAll_elem in Hin as (token & occ & Hin & _ & ->).
    simpl. rewrite Hp in Hin. apply elem_of_map_to_list in Hin.
    apply ingest_clean in Hi; [|exact Hrows|apply map_Forall_empty].
    exact (Hi token occ Hin).
Qed.

Lemma asciiTokens_elem (rd : list readResult) (record : list string) :
  asciiTokens rd = true -> Rec record ∈ rd -> isASCII (nth 0 record "") = true.
Proof.
  unfold asciiTokens. rewrite forallb_forall. intros Hall Hin.
  exact (Hall (Rec record) (proj1 (list_elem_of_In _ _) Hin)).
Qed.

(** ** The collector (C7, C10) *)

Lemma countDone_nonneg (recv : list event) : 0 <= countDone recv.
Proof. induction recv as [|[] recv IH]; simpl; lia. Qed.

Lemma countDone_app (l1 l2 : list event) :
  countDone (l1 ++ l2) = countDone l1 + countDone l2.
Proof. induction l1 as [|[] l1 IH]; simpl; lia. Qed.

Lemma countDone_perm (l1 l2 : list event) :
  Permutation l1 l2 -> countDone l1 = countDone l2.
Proof.
  induction 1 as [|x l l' _ IH|x y l|l l' l'' _ IH1 _ IH2]; simpl.
  - reflexivity.
  - destruct x; lia.
  - destruct x, y; lia.
  - lia.
Qed.

Lemma interleave_perm (ts : list (list event)) (recv : list event) :
  interleave ts recv -> Permutation (concat ts) recv.
Proof.
  induction 1 as [ts Hall|ts1 ev t ts2 recv _ IH].
  - induction Hall as [|t ts -> _ IH]; simpl; [constructor|exact IH].
  - rewrite concat_app in *. simpl in *.
    rewrite <- IH. symmetry. apply Permutation_middle.
Qed.

(** The loop leaves through [break] only on a completion signal. *)
Lemma OuterLoop_broke_done (recv : list event) (routines : Z)
    (acc wordStats : list wordStat) :
  OuterLoop routines acc recv = Some (Broke wordStats) -> EvDone ∈ recv.
Proof.
  revert routines acc. induction recv as [|ev recv IH]; intros routines acc; simpl.
  - discriminate.
  - destruct ev as [w|e|].
    + intros H. right. eapply IH, H.
    + discriminate.
    + intros _. left.
Qed.

(** With fewer completion signals on their way than workers counted, the
    first error received ends the loop. *)
Lemma OuterLoop_error (recv : list event) (routines : Z) (acc : list wordStat) :
  countDone recv < routines ->
  (exists e, EvErr e ∈ recv) ->
  exists e, EvErr e ∈ recv /\ OuterLoop routines acc recv = Some (Returned e).
Proof.
  revert routines acc. induction recv as [|ev recv IH]; intros routines acc Hc [e He].
  - inversion He.
  - destruct ev as [w|e'|]; simpl in *.
    + apply elem_of_cons in He as [[=]|He].
      destruct (IH routines (acc ++ [w]) Hc (ex_intro _ e He)) as (e1 & H1 & H2).
      exists e1. split; [right; exact H1|exact H2].
    + exists e'. split; [left|reflexivity].
    + apply elem_of_cons in He as [[=]|He].
      pose proof (countDone_nonneg recv).
      destruct (Z.eqb_spec (routines - 1) 0); [lia|].
      destruct (IH (routines - 1) acc ltac:(lia) (ex_intro _ e He)) as (e1 & H1 & H2).
      exists e1. split; [right; exact H1|exact H2].
Qed.

Lemma emitAll_countDone (totalWords : Z) (kvs : list (string * Z)) :
  countDone (emitAll totalWords kvs) = 1.
Proof.
  unfold emitAll. induction kvs as [|[t occ] kvs IH]; simpl; [reflexivity|].
  unfold emit at 1. simpl. destruct (minOccurrences <? occ); exact IH.
Qed.

Lemma emitAll_no_error (totalWords : Z) (kvs : list (string * Z)) (e : error) :
  EvErr e ∉ emitAll totalWords kvs.
Proof.
  unfold emitAll. induction kvs as [|[t occ] kvs IH]; simpl.
  - intros H. apply list_elem_of_singleton in H. discriminate.
  - unfold emit at 1. simpl. destruct (minOccurrences <? occ); [|exact IH].
    simpl. intros H. apply elem_of_cons in H as [[=]|H]. exact (IH H).
Qed.

(** The sends of the workers, taken together: one completion signal for
    each source read to the end, one error for each other source. *)
Lemma goroutines_signals (totalWords : Z) (srcs : list source)
    (traces : list (list event)) :
  Forall2 (goroutine totalWords) srcs traces ->
  countDone (concat traces) + Z.of_nat (failures srcs) = Z.of_nat (length srcs) /\
  forall e, EvErr e ∈ concat traces <->
            exists src, src ∈ srcs /\ workerError src = Some e.
Proof.
  unfold failures.
  induction 1 as [|src tr srcs traces Hg _ [IHc IHe]]; simpl.
  - split; [reflexivity|]. intros e. split; [intros H; inversion H|].
    intros (src & H & _). inversion H.
  - apply goroutine_inv in Hg. rewrite countDone_app.
    destruct (workerError src) as [e0|] eqn:Hw.
    + subst tr. rewrite bool_decide_true by discriminate. simpl.
      split; [lia|]. intros e. rewrite elem_of_cons, IHe. split.
      * intros [[= ->]|(s & Hs & Hse)].
        -- exists src. split; [left|exact Hw].
        -- exists s. split; [right; exact Hs|exact Hse].
      * intros (s & Hs & Hse). apply elem_of_cons in Hs as [->|Hs].
        -- left. congruence.
        -- right. exists s. auto.
    + destruct Hg as (m & kvs & _ & _ & ->).
      rewrite bool_decide_false by (intros H; apply H; reflexivity).
      rewrite emitAll_countDone. split; [lia|].
      intros e. rewrite elem_of_app, IHe. split.
      * intros [H|(s & Hs & Hse)]; [destruct (emitAll_no_error _ _ _ H)|].
        exists s. split; [right; exact Hs|exact Hse].
      * intros (s & Hs & Hse). apply elem_of_cons in Hs as [->|Hs].
        -- congruence.
        -- right. exists s. auto.
Qed.

Lemma failures_pos (srcs : list source) (src : source) :
  src ∈ srcs -> workerError src <> None -> (0 < failures srcs)%nat.
Proof.
  unfold failures. intros Hin Hw.
  assert (H : In src (List.filter (fun s => bool_decide (workerError s <> None)) srcs)).
  { apply filter_In. split; [apply list_elem_of_In, Hin|].
    apply bool_decide_eq_true. exact Hw. }
  destruct (List.filter _ srcs); [destruct H|simpl; lia].
Qed.

(** C7: when the worker of some source fails, whatever the order in which
    the sends arrive, [runIngest] returns no entries and the error of one of
    the failing workers; the entries of the workers that finished are
    dropped. When just one error can occur it is the one returned. *)
Theorem collector_fails_atomically (totalWords : Z) (srcs : list source)
    (recv : list event) :
  received totalWords srcs recv ->
  (exists src, src ∈ srcs /\ workerError src <> None) ->
  (exists src e,
     src ∈ srcs /\ workerError src = Some e /\
     runIngestOn srcs recv = Some ([], Some e)) /\
  (forall e0,
     (forall src e, src ∈ srcs -> workerError src = Some e -> e = e0) ->
     runIngestOn srcs recv = Some ([], Some e0)).
Proof.
  intros (traces & Hg & Hi) (src & Hin & Hw).
  apply goroutines_signals in Hg as [Hc He].
  apply interleave_perm in Hi.
  pose proof (failures_pos srcs src Hin Hw) as Hpos.
  assert (Hlt : countDone recv < Z.of_nat (length srcs)).
  { rewrite <- (countDone_perm _ _ Hi). lia. }
  assert (Herr : exists e, EvErr e ∈ recv).
  { destruct (workerError src) as [e|] eqn:E; [|congruence].
    exists e. rewrite <- Hi. apply He. exists src. auto. }
  destruct (OuterLoop_error recv _ [] Hlt Herr) as (e & Hin' & Hloop).
  rewrite <- Hi in Hin'. apply He in Hin' as (src' & Hs' & Hw').
  assert (Hrun : runIngestOn srcs recv = Some ([], Some e)).
  { unfold runIngestOn. rewrite Hloop. reflexivity. }
  split.
  - exists src', e. auto.
  - intros e0 Hone. rewrite Hrun, (Hone src' e Hs' Hw'). reflexivity.
Qed.

Lemma interleave_single (tr : list event) : interleave [tr] tr.
Proof.
  induction tr as [|ev tr IH].
  - apply interleave_end. repeat constructor.
  - exact (interleave_recv [] ev tr [] tr IH).
Qed.

(** C10: without sources no worker is started, nothing is ever received,
    and the loop, which breaks only on a completion signal, never ends:
    [runIngest] does not return. So whenever it returns there was a
    source. *)
Theorem runIngest_without_sources_blocks (totalWords : Z) :
  received totalWords [] [] /\
  (forall recv, received totalWords [] recv ->
                recv = [] /\ runIngestOn [] recv = None) /\
  (forall out, ~ runIngest totalWords [] out) /\
  (forall srcs out, runIngest totalWords srcs out -> srcs <> []) /\
  (forall routines acc recv wordStats,
     OuterLoop routines acc recv = Some (Broke wordStats) -> EvDone ∈ recv).
Proof.
  assert (Hrecv : forall recv, received totalWords [] recv ->
                    recv = [] /\ runIngestOn [] recv = None).
  { intros recv (traces & Hg & Hi). inversion Hg; subst.
    apply interleave_perm in Hi. simpl in Hi.
    apply Permutation_nil in Hi. subst. split; reflexivity. }
  assert (Hnone : forall out, ~ runIngest totalWords [] out).
  { intros out (recv & Hr & Hrun). apply Hrecv in Hr as [_ Hr]. congruence. }
  split; [|split; [exact Hrecv|split; [exact Hnone|split]]].
  - exists []. split; [constructor|]. apply interleave_end. constructor.
  - intros srcs out Hrun ->. exact (Hnone out Hrun).
  - intros routines acc recv wordStats. apply OuterLoop_broke_done.
Qed.

(** Every list of sources has a sequence of sends to receive: for one, the
    workers taking their turns one after the other. *)
Lemma interleave_skip_nil (ts : list (list event)) (recv : list event) :
  interleave ts recv -> interleave ([] :: ts) recv.
Proof.
  induction 1 as [ts Hall|ts1 ev t ts2 recv _ IH].
  - apply interleave_end. constructor; [reflexivity|exact Hall].
  - exact (interleave_recv ([] :: ts1) ev t ts2 recv IH).
Qed.

Lemma interleave_concat (ts : list (list event)) : interleave ts (concat ts).
Proof.
  induction ts as [|t ts IH]; simpl.
  - apply interleave_end. constructor.
  - induction t as [|ev t IHt]; simpl.
    + apply interleave_skip_nil, IH.
    + exact (interleave_recv [] ev t ts _ IHt).
Qed.

Lemma received_exists (totalWords : Z) (srcs : list source) :
  exists recv, received totalWords srcs recv.
Proof.
  assert (H : exists traces, Forall2 (goroutine totalWords) srcs traces).
  { induction srcs as [|src srcs [traces IH]].
    - exists []. constructor.
    - destruct (goroutine_total totalWords src) as [tr Hg].
      exists (tr :: traces). constructor; assumption. }
  destruct H as [traces Hg].
  exists (concat traces), traces. split; [exact Hg|apply interleave_concat].
Qed.

(** ** What the collector gathers *)

Lemma wordsOf_elem (tr : list event) (w : wordStat) :
  w ∈ wordsOf tr <-> EvWord w ∈ tr.
Proof.
  induction tr as [|ev tr IH]; simpl.
  - split; intros H; inversion H.
  - destruct ev as [w'|e|]; rewrite ?elem_of_cons, IH; split.
    + intros [->|H]; auto.
    + intros [[= ->]|H]; auto.
    + auto.
    + intros [[=]|H]; auto.
    + auto.
    + intros [[=]|H]; auto.
Qed.

Lemma wordsOf_perm (l1 l2 : list event) :
  Permutation l1 l2 -> Permutation (wordsOf l1) (wordsOf l2).
Proof.
  induction 1 as [|x l l' _ IH|x y l|l l' l'' _ IH1 _ IH2]; simpl.
  - constructor.
  - destruct x; [apply perm_skip|..]; exact IH.
  - destruct x, y; try reflexivity. apply perm_swap.
  - etransitivity; eassumption.
Qed.

(** On [break] the collected entries are those received before the last
    completion signal counted. *)
Lemma OuterLoop_collects (recv : list event) (routines : Z)
    (acc wordStats : list wordStat) :
  OuterLoop routines acc recv = Some (Broke wordStats) ->
  exists pre post, recv = pre ++ EvDone :: post /\ wordStats = acc ++ wordsOf pre.
Proof.
  revert routines acc. induction recv as [|ev recv IH]; intros routines acc; simpl.
  - discriminate.
  - destruct ev as [w|e|].
    + intros H. apply IH in H as (pre & post & -> & ->).
      exists (EvWord w :: pre), post. simpl. rewrite <- app_assoc. auto.
    + discriminate.
    + destruct (routines - 1 =? 0).
      * intros [= <-]. exists [], recv. simpl. rewrite app_nil_r. auto.
      * intros H. apply IH in H as (pre & post & -> & ->).
        exists (EvDone :: pre), post. auto.
Qed.

Lemma countDone_zero_last (recv : list event) :
  countDone recv = 0 -> last recv = Some EvDone -> False.
Proof.
  induction recv as [|ev recv IH]; [discriminate|].
  pose proof (countDone_nonneg recv).
  destruct recv as [|ev' recv'].
  - simpl. destruct ev; intros; simplify_eq; lia.
  - rewrite last_cons_cons. remember (ev' :: recv') as r eqn:Er. clear Er.
    intros Hc Hl. apply IH; [|exact Hl].
    destruct ev; simpl in Hc; lia.
Qed.

(** When no error is on its way and the last thing received is the last
    completion signal, the loop breaks with every entry received. *)
Lemma OuterLoop_success (recv : list event) (routines : Z) (acc : list wordStat) :
  0 < routines ->
  countDone recv = routines ->
  (forall e, EvErr e ∉ recv) ->
  last recv = Some EvDone ->
  OuterLoop routines acc recv = Some (Broke (acc ++ wordsOf recv)).
Proof.
  revert routines acc. induction recv as [|ev recv IH];
    intros routines acc Hpos Hc Hne Hl; [discriminate|].
  assert (Hne' : forall e, EvErr e ∉ recv).
  { intros e H. apply (Hne e). right. exact H. }
  destruct ev as [w|e|]; simpl in *.
  - rewrite IH; try assumption.
    + rewrite <- app_assoc. reflexivity.
    + destruct recv; [simpl in Hc; lia|]. rewrite last_cons_cons in Hl. exact Hl.
  - destruct (Hne e). left.
  - destruct (Z.eqb_spec (routines - 1) 0) as [Hz|Hnz].
    + destruct recv as [|ev' recv']; [simpl; rewrite app_nil_r; reflexivity|].
      rewrite last_cons_cons in Hl.
      destruct (countDone_zero_last (ev' :: recv') ltac:(lia) Hl).
    + apply IH; try assumption; try lia.
      destruct recv; [simpl in Hc; lia|]. rewrite last_cons_cons in Hl. exact Hl.
Qed.

Lemma interleave_nil_inv (ts : list (list event)) :
  interleave ts [] -> Forall (fun t => t = []) ts.
Proof. inversion 1. assumption. Qed.

Lemma interleave_last (ts : list (list event)) (recv : list event) :
  interleave ts recv ->
  Forall (fun t => t = [] \/ last t = Some EvDone) ts ->
  recv = [] \/ last recv = Some EvDone.
Proof.
  induction 1 as [ts Hall|ts1 ev t ts2 recv Hi IH]; [left; reflexivity|].
  intros Hall. right.
  apply Forall_app in Hall as [H1 H2]. apply Forall_cons in H2 as [Ht H2].
  destruct Ht as [Ht|Ht]; [discriminate|].
  destruct IH as [->|IH].
  - apply Forall_app; split; [exact H1|]. apply Forall_cons; split; [|exact H2].
    destruct t; [left; reflexivity|right]. rewrite last_cons_cons in Ht. exact Ht.
  - apply interleave_nil_inv, Forall_app in Hi as [_ Hi].
    apply Forall_cons in Hi as [-> _]. exact Ht.
  - destruct recv; [discriminate|]. rewrite last_cons_cons. exact IH.
Qed.

Lemma emitAll_last (totalWords : Z) (kvs : list (string * Z)) :
  last (emitAll totalWords kvs) = Some EvDone.
Proof. unfold emitAll. apply last_snoc. Qed.

Lemma goroutines_last (totalWords : Z) (srcs : list source)
    (traces : list (list event)) :
  Forall2 (goroutine totalWords) srcs traces ->
  (forall src, src ∈ srcs -> workerError src = None) ->
  Forall (fun t => t = [] \/ last t = Some EvDone) traces /\
  forall e, EvErr e ∉ concat traces.
Proof.
  intros Hg Hok. split.
  - induction Hg as [|src tr srcs traces Hg _ IH]; constructor.
    + apply goroutine_inv in Hg. rewrite (Hok src) in Hg by left.
      destruct Hg as (m & kvs & _ & _ & ->). right. apply emitAll_last.
    + apply IH. intros s Hs. apply Hok. right. exact Hs.
  - intros e He. apply (goroutines_signals _ _ _ Hg) in He as (src & Hin & Hw).
    rewrite (Hok src Hin) in Hw. discriminate.
Qed.

Lemma failures_zero (srcs : list source) :
  (forall src, src ∈ srcs -> workerError src = None) -> failures srcs = 0%nat.
Proof.
  unfold failures. induction srcs as [|src srcs IH]; intros Hok; [reflexivity|].
  simpl. rewrite bool_decide_false.
  - apply IH. intros s Hs. apply Hok. right. exact Hs.
  - intros H. apply H, Hok. left.
Qed.

(** With at least one source and no failing worker, [runIngest] returns,
    whatever the order of arrival, all the entries sent, sorted. *)
Lemma runIngest_success (totalWords : Z) (srcs : list source)
    (traces : list (list event)) (recv : list event) :
  srcs <> [] ->
  (forall src, src ∈ srcs -> workerError src = None) ->
  Forall2 (goroutine totalWords) srcs traces ->
  interleave traces recv ->
  runIngestOn srcs recv = Some (sortSlice (wordsOf recv), None) /\
  Permutation (wordsOf (concat traces)) (wordsOf recv).
Proof.
  intros Hne Hok Hg Hi.
  destruct (goroutines_last _ _ _ Hg Hok) as [Hlast Hnoerr].
  destruct (goroutines_signals _ _ _ Hg) as [Hc _].
  rewrite (failures_zero srcs Hok) in Hc.
  pose proof (interleave_perm _ _ Hi) as Hp.
  split; [|apply wordsOf_perm, Hp].
  assert (Hlen : 0 < Z.of_nat (length srcs)).
  { destruct srcs; [congruence|simpl; lia]. }
  assert (Hcr : countDone recv = Z.of_nat (length srcs)).
  { rewrite <- (countDone_perm _ _ Hp). lia. }
  unfold runIngestOn. rewrite (OuterLoop_success recv _ []); try assumption.
  - reflexivity.
  - intros e He. apply (Hnoerr e). rewrite Hp. exact He.
  - destruct (interleave_last _ _ Hi Hlast) as [->|H]; [simpl in Hcr; lia|exact H].
Qed.

(** With at least one source [runIngest] always returns. *)
Lemma runIngest_returns (totalWords : Z) (srcs : list source) (recv : list event) :
  srcs <> [] ->
  received totalWords srcs recv ->
  exists out, runIngestOn srcs recv = Some out.
Proof.
  intros Hne (traces & Hg & Hi).
  destruct (decide (Forall (fun src => workerError src = None) srcs)) as [Hok|Hbad].
  - rewrite Forall_forall in Hok.
    destruct (runIngest_success totalWords srcs traces recv Hne Hok Hg Hi) as [H _].
    eexists. exact H.
  - apply not_Forall_Exists in Hbad; [|intros src; apply _].
    apply Exists_exists in Hbad as (src & Hin & Hw).
    destruct (goroutines_signals _ _ _ Hg) as [Hc He].
    pose proof (interleave_perm _ _ Hi) as Hp.
    pose proof (failures_pos srcs src Hin Hw) as Hpos.
    destruct (workerError src) as [e|] eqn:E; [|congruence].
    destruct (OuterLoop_error recv (Z.of_nat (length srcs)) []) as (e1 & _ & Hloop).
    + rewrite <- (countDone_perm _ _ Hp). lia.
    + exists e. rewrite <- Hp. apply He. exists src. auto.
    + unfold runIngestOn. rewrite Hloop. eexists. reflexivity.
Qed.

(** Whatever [runIngest] returns was sent by the worker of some source. *)
Lemma runIngest_entries (totalWords : Z) (srcs : list source)
    (out : list wordStat) (err : option error) (w : wordStat) :
  runIngest totalWords srcs (out, err) ->
  w ∈ out ->
  exists src tr, src ∈ srcs /\ goroutine totalWords src tr /\ w ∈ wordsOf tr.
Proof.
  intros (recv & (traces & Hg & Hi) & Hrun) Hin.
  unfold runIngestOn in Hrun.
  destruct (OuterLoop _ [] recv) as [[e|wordStats]|] eqn:Hloop; try discriminate.
  - injection Hrun as <- _. inversion Hin.
  - injection Hrun as <- _.
    unfold sortSlice in Hin. rewrite <- (insertionSort_perm less wordStats) in Hin.
    apply OuterLoop_collects in Hloop as (pre & post & -> & ->). simpl in Hin.
    assert (Hw : EvWord w ∈ concat traces).
    { rewrite (interleave_perm _ _ Hi). apply elem_of_app. left.
      apply wordsOf_elem, Hin. }
    clear Hi Hin. induction Hg as [|src tr srcs traces Hg _ IH]; simpl in Hw.
    + inversion Hw.
    + apply elem_of_app in Hw as [Hw|Hw].
      * exists src, tr. split; [left|]. split; [exact Hg|apply wordsOf_elem, Hw].
      * destruct (IH Hw) as (s & t & Hs & Hgs & Hws).
        exists s, t. split; [right; exact Hs|]. auto.
Qed.

(** C8, as the code has it: the token of every entry a worker sends, and so
    of every entry [runIngest] returns, has no period and no underscore and
    is in lower case: it has no letter 'A'..'Z' and [strings.ToLower] leaves
    it as it is. It may be empty. For a source whose tokens are made of
    ASCII bytes this holds as it stands. For every source it holds under two
    conditions, which say of the case table what the lower-casing of the
    runes above 0x7f has to be like for it. *)
Theorem emitted_tokens_clean (totalWords : Z) :
  (forall src tr w,
     asciiTokens (rows src) = true ->
     goroutine totalWords src tr -> w ∈ wordsOf tr -> cleanToken (word w)) /\
  (lowersToLetters -> lowerIdempotent ->
   (forall src tr w,
      goroutine totalWords src tr -> w ∈ wordsOf tr -> cleanToken (word w)) /\
   (forall srcs out err w,
      runIngest totalWords srcs (out, err) -> w ∈ out -> cleanToken (word w))).
Proof.
  split.
  - intros src tr w Ha. apply goroutine_clean. intros record Hin.
    apply canonical_clean_ascii. exact (asciiTokens_elem _ _ Ha Hin).
  - intros Htab Hid.
    assert (Hg : forall src tr w,
               goroutine totalWords src tr -> w ∈ wordsOf tr ->
               cleanToken (word w)).
    { intros src tr w. apply goroutine_clean. intros record _.
      apply canonical_clean; assumption. }
    split; [exact Hg|].
    intros srcs out err w Hrun Hin.
    destruct (runIngest_entries _ _ _ _ _ Hrun Hin) as (src & tr & _ & Hg' & Hw).
    exact (Hg src tr w Hg' Hw).
Qed.

(** ** One source *)

Lemma interleave_single_inv (recv t : list event) : interleave [t] recv -> recv = t.
Proof.
  revert t. induction recv as [|ev recv IH]; intros t H.
  - apply interleave_nil_inv in H. inversion H; subst. reflexivity.
  - inversion H as [|ts1 ev' t' ts2 recv' Hi Hts]; subst.
    destruct ts1 as [|x ts1].
    + simpl in Hts. injection Hts as <- ->. f_equal. apply IH. exact Hi.
    + destruct ts1; discriminate.
Qed.

(** A source whose map ends with one token has one possible run. *)
Lemma runIngest_one_token (totalWords : Z) (src : source) (wordMap : gmap string Z)
    (token : string) (occ : Z) (out : list wordStat * option error) :
  gzipErr src = None ->
  ingest (rows src) ∅ = Ok wordMap ->
  map_to_list wordMap = [(token, occ)] ->
  runIngest totalWords [src] out <->
  out = (sortSlice (wordsOf (emitAll totalWords [(token, occ)])), None).
Proof.
  intros Hz Hi Hm.
  assert (Hw : forall s, s ∈ [src] -> workerError s = None).
  { intros s Hs. apply list_elem_of_singleton in Hs as ->.
    unfold workerError. rewrite Hz, Hi. reflexivity. }
  assert (Hg : goroutine totalWords src (emitAll totalWords [(token, occ)])).
  { eapply goroutine_done; [exact Hz|exact Hi|]. rewrite Hm. reflexivity. }
  split.
  - intros (recv & (traces & Hgs & Hint) & Hrun).
    destruct (runIngest_success totalWords [src] traces recv
                ltac:(discriminate) Hw Hgs Hint) as [Hs _].
    rewrite Hs in Hrun. injection Hrun as <-.
    inversion Hgs as [|s tr ss trs Hg1 Hrest]; subst.
    inversion Hrest; subst.
    apply interleave_single_inv in Hint as ->.
    apply goroutine_inv in Hg1. rewrite (Hw src) in Hg1 by left.
    destruct Hg1 as (m & kvs & Hi' & Hp & ->).
    rewrite Hi in Hi'. injection Hi' as <-. rewrite Hm in Hp.
    apply Permutation_singleton_r in Hp as ->. reflexivity.
  - intros ->. exists (emitAll totalWords [(token, occ)]).
    assert (Hr : received totalWords [src] (emitAll totalWords [(token, occ)])).
    { exists [emitAll totalWords [(token, occ)]].
      split; [repeat constructor; exact Hg|apply interleave_single]. }
    split; [exact Hr|].
    destruct Hr as (traces & Hgs & Hint).
    exact (proj1 (runIngest_success totalWords [src] traces _
                    ltac:(discriminate) Hw Hgs Hint)).
Qed.

(** ** The ranker (C1) *)

(** The order of the output depends on the order of arrival, not only on the
    collection. *)
Example ranker_order_of_arrival :
  Permutation [statB; statA] [statA; statB] /\
  sortSlice [statB; statA] = [statB; statA] /\
  sortSlice [statA; statB] = [statA; statB].
Proof.
  split; [apply perm_swap|]. split; vm_compute; reflexivity.
Qed.

(** Two runs on the same sources that differ in the order of arrival
    return the two tokens of equal frequency in different orders. *)
Example runIngest_ties_by_arrival :
  runIngest 100000 [srcB; srcA] ([statB; statA], None) /\
  runIngest 100000 [srcB; srcA] ([statA; statB], None).
Proof.
  assert (Hb : goroutine 100000 srcB [EvWord statB; EvDone]).
  { refine (goroutine_done 100000 srcB (<["b" := 20000]> ∅) [("b", 20000)]
              eq_refl _ _).
    - vm_compute. reflexivity.
    - rewrite insert_empty, map_to_list_singleton. reflexivity. }
  assert (Ha : goroutine 100000 srcA [EvWord statA; EvDone]).
  { refine (goroutine_done 100000 srcA (<["a" := 20000]> ∅) [("a", 20000)]
              eq_refl _ _).
    - vm_compute. reflexivity.
    - rewrite insert_empty, map_to_list_singleton. reflexivity. }
  assert (Hg : Forall2 (goroutine 100000) [srcB; srcA]
                 [[EvWord statB; EvDone]; [EvWord statA; EvDone]])
    by (repeat constructor; assumption).
  split.
  - exists [EvWord statB; EvDone; EvWord statA; EvDone]. split.
    + eexists. split; [exact Hg|].
      apply (interleave_recv [] _ _ [_]). apply (interleave_recv [] _ _ [_]).
      apply (interleave_recv [[]] _ _ []). apply (interleave_recv [[]] _ _ []).
      apply interleave_end. repeat constructor.
    + vm_compute. reflexivity.
  - exists [EvWord statA; EvDone; EvWord statB; EvDone]. split.
    + eexists. split; [exact Hg|].
      apply (interleave_recv [_] _ _ []). apply (interleave_recv [_] _ _ []).
      apply (interleave_recv [] _ _ [[]]). apply (interleave_recv [] _ _ [[]]).
      apply interleave_end. repeat constructor.
    + vm_compute. reflexivity.
Qed.

(** The counts a worker holds are uint64 values. *)
Lemma ingest_range (rd : list readResult) (wordMap wordMap' : gmap string Z) :
  ingest rd wordMap = Ok wordMap' ->
  map_Forall (fun _ occ => 0 <= occ < 2 ^ 64) wordMap ->
  map_Forall (fun _ occ => 0 <= occ < 2 ^ 64) wordMap'.
Proof.
  revert wordMap. induction rd as [|x rd IH]; intros wordMap H Hall; simpl in H.
  - injection H as <-. exact Hall.
  - destruct (Read 4 x) as [record|e].
    + destruct (ingestRecord record wordMap) as [m|e] eqn:Hr; [|discriminate].
      eapply IH; [exact H|]. eapply ingestRecord_range; eassumption.
    + destruct e; try discriminate. injection H as <-. exact Hall.
Qed.

(** No worker sends a NaN: the count of an entry is positive. *)
Lemma goroutine_notNaN (totalWords : Z) (src : source) (tr : list event) (w : wordStat) :
  goroutine totalWords src tr -> w ∈ wordsOf tr -> isNaN (frequency w) = false.
Proof.
  intros [e Hz|e Hz Hi|wordMap kvs Hz Hi Hp].
  - simpl. intros H. inversion H.
  - simpl. intros H. inversion H.
  - intros Hin. apply wordsOf_emitAll_elem in Hin as (token & occ & Hin & Hlt & ->).
    simpl. rewrite Hp in Hin. apply elem_of_map_to_list in Hin.
    apply ingest_range in Hi; [|apply map_Forall_empty].
    apply fdiv_counts_notNaN. specialize (Hi token occ Hin). simpl in Hi.
    unfold minOccurrences in Hlt. lia.
Qed.

(** C1, as the code has it: the ranker returns the collected entries
    rearranged so that no entry has a frequency greater than its left
    neighbour's; when neither frequency is NaN the left one is greater or
    equal, and so it is for every two neighbours in what [runIngest]
    returns. Nothing is promised about entries with equal frequencies. *)
Theorem ranker_sorted_by_frequency :
  (forall wordStats : list wordStat,
     Permutation wordStats (sortSlice wordStats) /\
     forall l1 a b l2,
       sortSlice wordStats = l1 ++ a :: b :: l2 ->
       fgt (frequency b) (frequency a) = false /\
       (isNaN (frequency a) = false -> isNaN (frequency b) = false ->
        fge (frequency a) (frequency b) = true)) /\
  (forall totalWords srcs out err l1 a b l2,
     runIngest totalWords srcs (out, err) ->
     out = l1 ++ a :: b :: l2 ->
     fge (frequency a) (frequency b) = true).
Proof.
  assert (Hadj : forall wordStats l1 a b l2,
             sortSlice wordStats = l1 ++ a :: b :: l2 ->
             fgt (frequency b) (frequency a) = false).
  { intros wordStats l1 a b l2 E.
    apply (insertionSort_neighbours less) in E; [exact E|].
    intros x y. apply fgt_asym. }
  split.
  - intros wordStats. split; [apply insertionSort_perm|].
    intros l1 a b l2 E. split; [eapply Hadj, E|].
    intros Ha Hb. apply not_fgt_fge; [assumption..|eapply Hadj, E].
  - intros totalWords srcs out err l1 a b l2 Hrun E.
    assert (Hnan : forall w, w ∈ out -> isNaN (frequency w) = false).
    { intros w Hw.
      destruct (runIngest_entries _ _ _ _ _ Hrun Hw) as (src & tr & _ & Hg & Hin).
      eapply goroutine_notNaN; eassumption. }
    assert (Ha : a ∈ out) by (rewrite E, elem_of_app; right; left).
    assert (Hb : b ∈ out) by (rewrite E, elem_of_app; right; right; left).
    destruct Hrun as (recv & _ & Hon). unfold runIngestOn in Hon.
    destruct (OuterLoop _ [] recv) as [[e|wordStats]|]; try discriminate.
    + injection Hon as <- _. destruct l1; discriminate.
    + injection Hon as Hout _. rewrite <- Hout in E.
      apply not_fgt_fge; [apply Hnan, Hb|apply Hnan, Ha|eapply Hadj, E].
Qed.

(** ** The end-to-end example (C9) *)

Lemma ingest_srcExample : ingest (rows srcExample) ∅ = Ok {[ "dog" := 110 ]}.
Proof. vm_compute. reflexivity. Qed.

(** [float64_1_1] is within half a unit in the last place of 11/10, and it
    is the value of the literal [1.1]. *)
Example float64_1_1_nearest : Z.abs (10 * 4953959590107546 - 11 * 2 ^ 52) <= 5.
Proof. vm_compute. discriminate. Qed.

Example float64_1_1_literal : Prim2SF 0x1.199999999999ap+0%float = float64_1_1.
Proof. vm_compute. reflexivity. Qed.

(** At the program's value of the constant, [goroutineAt] and [runIngestAt]
    are [goroutine] and [runIngest]. *)
Lemma goroutineAt_minOccurrences (totalWords : Z) (src : source) (tr : list event) :
  goroutineAt minOccurrences totalWords src tr <-> goroutine totalWords src tr.
Proof.
  split.
  - intros [e Hz|e Hz Hi|wordMap kvs Hz Hi Hp].
    + apply goroutine_gzip, Hz.
    + apply goroutine_read; assumption.
    + exact (goroutine_done totalWords src wordMap kvs Hz Hi Hp).
  - intros [e Hz|e Hz Hi|wordMap kvs Hz Hi Hp].
    + apply goroutineAt_gzip, Hz.
    + apply goroutineAt_read; assumption.
    + exact (goroutineAt_done minOccurrences totalWords src wordMap kvs Hz Hi Hp).
Qed.

Lemma runIngestAt_minOccurrences (totalWords : Z) (srcs : list source)
    (out : list wordStat * option error) :
  runIngestAt minOccurrences totalWords srcs out <-> runIngest totalWords srcs out.
Proof.
  split.
  - intros (traces & recv & Hg & Hi & Hrun). exists recv. split; [|exact Hrun].
    exists traces. split; [|exact Hi].
    eapply Forall2_impl; [exact Hg|]. intros src tr. apply goroutineAt_minOccurrences.
  - intros (recv & (traces & Hg & Hi) & Hrun). exists traces, recv.
    split; [|auto].
    eapply Forall2_impl; [exact Hg|]. intros src tr. apply goroutineAt_minOccurrences.
Qed.




End Proofs.

(** * Further properties *)

Section ExtraProofs.
Context {caseTables : CaseTables}.

(** ** [parseTotal]: which error, and the order of the groups *)

Lemma ParseInt_error_text (s : string) (bitSize : Z) (e : error) :
  ParseInt s bitSize = Err e -> exists kind, e = NumError s kind.
Proof.
  unfold ParseInt. destruct s as [|c rest]; [intros [= <-]; eauto|].
  destruct (ParseUint _ _) as [[]|un]; try (intros [= <-]; eauto).
  destruct (negb _ && _); [intros [= <-]; eauto|].
  destruct (_ && _); [intros [= <-]; eauto|discriminate].
Qed.

Lemma sumTotals_app (l1 l2 : list string) (acc : Z) :
  sumTotals (l1 ++ l2) acc =
    match sumTotals l1 acc with
    | Ok acc' => sumTotals l2 acc'
    | Err e => Err e
    end.
Proof.
  revert acc. induction l1 as [|g l1 IH]; intros acc; simpl; [reflexivity|].
  destruct (length (Split g ",") <? 4)%nat; [apply IH|].
  destruct (ParseInt (nth 0 (Split g ",") "") 16) as [year|e]; [|reflexivity].
  destruct (year <? minYear); [apply IH|].
  destruct (ParseInt (nth 1 (Split g ",") "") 64) as [t|e]; [apply IH|reflexivity].
Qed.

Lemma sumTotals_malformed_head (g : string) (rest : list string) (acc : Z) :
  malformed g = true ->
  exists kind, sumTotals (g :: rest) acc = Err (NumError (offending g) kind).
Proof.
  unfold malformed, offending, groupYear, groupTotal, subfields. intros H.
  apply andb_true_iff in H as [Hlen H]. apply Nat.leb_le in Hlen.
  cbn [sumTotals].
  replace (length (Split g ",") <? 4)%nat with false
    by (symmetry; apply Nat.ltb_ge; lia).
  destruct (ParseInt (nth 0 (Split g ",") "") 16) as [year|e] eqn:Ey; cbn [isErr].
  - apply andb_true_iff in H as [Hy Ht]. apply Z.leb_le in Hy.
    replace (year <? minYear) with false by (symmetry; apply Z.ltb_ge; lia).
    destruct (ParseInt (nth 1 (Split g ",") "") 64) as [t|e] eqn:Et; [discriminate|].
    apply ParseInt_error_text in Et as [kind ->]. eauto.
  - apply ParseInt_error_text in Ey as [kind ->]. eauto.
Qed.

(** The error of [parseTotal] is that of the first malformed group and names
    the text that is no number; the groups after it are not looked at. *)
Theorem parseTotal_first_error (good rest : list string) (g : string) :
  existsb malformed good = false ->
  malformed g = true ->
  exists kind,
    parseTotal [Rec (good ++ g :: rest)] = Err (NumError (offending g) kind).
Proof.
  intros Hgood Hg. unfold parseTotal. simpl. rewrite sumTotals_app.
  change 0 with (uint64 0) at 1.
  rewrite (sumTotals_wellformed good 0 Hgood).
  apply sumTotals_malformed_head, Hg.
Qed.

Lemma existsb_perm {A} (f : A -> bool) (l l' : list A) :
  Permutation l l' -> existsb f l = existsb f l'.
Proof.
  induction 1 as [|x l l' _ IH|x y l|l l' l'' _ IH1 _ IH2]; simpl.
  - reflexivity.
  - rewrite IH. reflexivity.
  - destruct (f x), (f y); reflexivity.
  - congruence.
Qed.

Lemma countedSum_perm (l l' : list string) :
  Permutation l l' -> countedSum l = countedSum l'.
Proof.
  unfold countedSum, sumZ.
  induction 1 as [|x l l' _ IH|x y l|l l' l'' _ IH1 _ IH2]; simpl.
  - reflexivity.
  - destruct (counted x); simpl; lia.
  - destruct (counted x), (counted y); simpl; lia.
  - congruence.
Qed.

(** The order of the groups on the totals line does not matter: two lines
    with the same groups give the same denominator, or both fail. *)
Theorem parseTotal_order_of_groups (totals totals' : list string) :
  Permutation totals totals' ->
  match parseTotal [Rec totals], parseTotal [Rec totals'] with
  | Ok total, Ok total' => total = total'
  | Err _, Err _ => True
  | _, _ => False
  end.
Proof.
  intros Hp. unfold parseTotal. simpl.
  destruct (existsb malformed totals) eqn:Hm.
  - destruct (sumTotals_malformed totals 0 Hm) as (e & -> & _).
    rewrite (existsb_perm _ _ _ Hp) in Hm.
    destruct (sumTotals_malformed totals' 0 Hm) as (e' & -> & _). exact I.
  - change 0 with (uint64 0).
    rewrite (sumTotals_wellformed totals 0 Hm).
    rewrite (existsb_perm _ _ _ Hp) in Hm.
    rewrite (sumTotals_wellformed totals' 0 Hm).
    rewrite (countedSum_perm _ _ Hp). reflexivity.
Qed.

(** ** The worker: which error, the keys of its map, the order of the rows *)

Lemma ingestRecord_error_any_map (record : list string)
    (wordMap wordMap' : gmap string Z) (e : error) :
  ingestRecord record wordMap = Err e -> ingestRecord record wordMap' = Err e.
Proof.
  unfold ingestRecord.
  destruct (Contains (nth 0 record "") "."); [discriminate|].
  destruct (ParseInt (nth 1 record "") 16) as [year|e1]; [|auto].
  destruct (year <? minYear); [discriminate|].
  destruct (ParseInt (nth 2 record "") 64) as [count|e2]; [discriminate|auto].
Qed.

Lemma ingestRecord_ok_any_map (record : list string)
    (wordMap wordMap' wordMap1 : gmap string Z) :
  ingestRecord record wordMap = Ok wordMap1 ->
  exists wordMap1', ingestRecord record wordMap' = Ok wordMap1'.
Proof.
  intros H. destruct (ingestRecord record wordMap') as [m|e] eqn:E; [eauto|].
  apply (ingestRecord_error_any_map _ _ wordMap) in E. congruence.
Qed.

Lemma ingest_cons_ok (x : readResult) (rd : list readResult)
    (wordMap : gmap string Z) :
  rowError x = None -> x <> ReadErr EOF ->
  exists record wordMap',
    x = Rec record /\ ingestRecord record wordMap = Ok wordMap' /\
    ingest (x :: rd) wordMap = ingest rd wordMap'.
Proof.
  unfold rowError. intros Hr Hx. destruct x as [record|e].
  - cbn [ingest]. destruct (Read 4 (Rec record)) as [r|e] eqn:Er.
    + assert (r = record) as ->.
      { simpl in Er. destruct (length record =? 4)%nat; congruence. }
      destruct (ingestRecord record ∅) as [m0|e0] eqn:E0; [|discriminate].
      destruct (ingestRecord_ok_any_map _ _ wordMap _ E0) as [m1 E1].
      exists record, m1. rewrite E1. auto.
    + simpl in Er. destruct (length record =? 4)%nat; [discriminate|].
      injection Er as <-. discriminate Hr.
  - simpl in Hr. destruct e; try discriminate. congruence.
Qed.

Lemma ingest_cons_err (x : readResult) (rd : list readResult)
    (wordMap : gmap string Z) (e : error) :
  rowError x = Some e -> ingest (x :: rd) wordMap = Err e.
Proof.
  unfold rowError. cbn [ingest]. destruct (Read 4 x) as [record|e0].
  - destruct (ingestRecord record ∅) as [m0|e1] eqn:E0; [discriminate|].
    intros [= <-]. rewrite (ingestRecord_error_any_map _ _ wordMap _ E0).
    reflexivity.
  - destruct e0; intros [= <-]; reflexivity.
Qed.

(** A worker fails with the error of the first bad row: a failed read, a row
    that has not 4 fields (whatever its token), or a year or count that is no
    number; the rows after it are not read. *)
Theorem worker_first_error (before after : list readResult) (x : readResult)
    (wordMap : gmap string Z) (e : error) :
  Forall (fun y => rowError y = None /\ y <> ReadErr EOF) before ->
  rowError x = Some e ->
  ingest (before ++ x :: after) wordMap = Err e /\
  (forall record, length record <> 4%nat -> rowError (Rec record) = Some ErrFieldCount) /\
  (forall t y c v e',
     rowError (Rec [t; y; c; v]) = Some e' ->
     exists kind, e' = NumError y kind \/ e' = NumError c kind).
Proof.
  intros Hb Hx. split; [|split].
  - revert wordMap. induction Hb as [|y before [Hy Hne] _ IH]; intros wordMap.
    + apply ingest_cons_err, Hx.
    + rewrite <- app_comm_cons.
      destruct (ingest_cons_ok y (before ++ x :: after) wordMap Hy Hne)
        as (record & m' & _ & _ & ->).
      apply IH.
  - intros record Hlen. unfold rowError. simpl.
    destruct (Nat.eqb_spec (length record) 4); [contradiction|reflexivity].
  - intros t y c v e'. unfold rowError, ingestRecord. simpl.
    destruct (Contains t "."); [discriminate|].
    destruct (ParseInt y 16) as [year|e1] eqn:Ey.
    + destruct (year <? minYear); [discriminate|].
      destruct (ParseInt c 64) as [count|e2] eqn:Ec; [discriminate|].
      intros [= <-]. apply ParseInt_error_text in Ec as [kind ->]. eauto.
    + intros [= <-]. apply ParseInt_error_text in Ey as [kind ->]. eauto.
Qed.

Lemma ingestRecord_keys (record : list string) (wordMap wordMap' : gmap string Z)
    (token : string) :
  ingestRecord record wordMap = Ok wordMap' ->
  is_Some (wordMap' !! token) <->
  is_Some (wordMap !! token) \/ exists c, accepted record = Some (token, c).
Proof.
  unfold ingestRecord, accepted. intros H.
  destruct (Contains (nth 0 record "") ".").
  { injection H as <-. split; [auto|]. intros [?|[c ?]]; [assumption|discriminate]. }
  destruct (ParseInt (nth 1 record "") 16) as [year|e]; [|discriminate].
  destruct (Z.ltb_spec year minYear) as [Hy|Hy].
  { injection H as <-.
    replace (minYear <=? year) with false by (symmetry; apply Z.leb_gt; lia).
    split; [auto|]. intros [?|[c Hc]]; [assumption|].
    destruct (ParseInt (nth 2 record "") 64); discriminate. }
  destruct (ParseInt (nth 2 record "") 64) as [count|e]; [|discriminate].
  replace (minYear <=? year) with true by (symmetry; apply Z.leb_le; lia).
  injection H as <-. rewrite Split_head. fold (canonical (nth 0 record "")).
  destruct (decide (canonical (nth 0 record "") = token)) as [->|Hne].
  - rewrite lookup_insert_eq. split; [|eauto]. intros _. right. eauto.
  - rewrite lookup_insert_ne by exact Hne. split; [auto|].
    intros [?|[c [= E _]]]; [assumption|contradiction].
Qed.

Lemma ingest_keys (rd : list readResult) (wordMap wordMap' : gmap string Z)
    (token : string) :
  ReadErr EOF ∉ rd ->
  ingest rd wordMap = Ok wordMap' ->
  is_Some (wordMap' !! token) <-> is_Some (wordMap !! token) \/ seen token rd = true.
Proof.
  revert wordMap. induction rd as [|x rd IH]; intros wordMap Hne H; simpl in H.
  - injection H as <-. simpl. split; [auto|]. intros [?|?]; [assumption|discriminate].
  - assert (Hne' : ReadErr EOF ∉ rd) by (intros Hin; apply Hne; right; exact Hin).
    destruct x as [record|e].
    + simpl in H. destruct (length record =? 4)%nat; [|discriminate].
      destruct (ingestRecord record wordMap) as [m|e] eqn:Hr; [|discriminate].
      rewrite (IH m Hne' H), (ingestRecord_keys _ _ _ token Hr).
      unfold seen. cbn [existsb]. rewrite orb_true_iff.
      destruct (accepted record) as [[t c]|].
      * destruct (String.eqb_spec t token) as [->|Hn].
        -- split; [auto|]. intros _. left. right. eauto.
        -- split.
           ++ intros [[?|[c' [= E _]]]|?]; [auto|contradiction|auto].
           ++ intros [?|[?|?]]; [auto|discriminate|auto].
      * split.
        -- intros [[?|[c' ?]]|?]; [auto|discriminate|auto].
        -- intros [?|[?|?]]; [auto|discriminate|auto].
    + simpl in H. destruct e; try discriminate. destruct Hne. left.
Qed.

Lemma map_Rec_no_EOF (records : list (list string)) : ReadErr EOF ∉ map Rec records.
Proof.
  intros H. apply list_elem_of_In, in_map_iff in H as (r & Hr & _). discriminate.
Qed.

(** The map of a worker that reads its rows to the end, in full: it holds a
    token exactly when some accepted row is counted under it, also when the
    counts add up to 0, and then holds the uint64 sum of those counts. *)
Theorem worker_map_characterised (records : list (list string))
    (wordMap : gmap string Z) (token : string) :
  ingest (map Rec records) ∅ = Ok wordMap ->
  wordMap !! token =
    if seen token (map Rec records)
    then Some (uint64 (summedCount token (map Rec records)))
    else None.
Proof.
  intros H.
  pose proof (ingest_keys _ _ _ token (map_Rec_no_EOF records) H) as Hk.
  destruct (seen token (map Rec records)).
  - destruct (proj2 Hk (or_intror eq_refl)) as [occ Hocc]. rewrite Hocc. f_equal.
    exact (ingest_summedCount_empty _ _ _ _ (map_Rec_no_EOF records) H Hocc).
  - destruct (wordMap !! token) as [occ|] eqn:E; [|reflexivity].
    destruct (proj1 Hk (mk_is_Some _ _ eq_refl)) as [Hs|?]; [|discriminate].
    rewrite lookup_empty in Hs. destruct Hs as [? [=]].
Qed.

Lemma sumZ_map_perm {A} (f : A -> Z) (l l' : list A) :
  Permutation l l' -> sumZ (map f l) = sumZ (map f l').
Proof.
  unfold sumZ.
  induction 1 as [|x l l' _ IH|x y l|l l' l'' _ IH1 _ IH2]; simpl; lia.
Qed.

Lemma ingest_ok_iff (records : list (list string)) (wordMap : gmap string Z) :
  (exists wordMap', ingest (map Rec records) wordMap = Ok wordMap') <->
  Forall (fun record => rowError (Rec record) = None) records.
Proof.
  revert wordMap. induction records as [|record records IH]; intros wordMap.
  - simpl. split; [constructor|eauto].
  - cbn [map]. destruct (rowError (Rec record)) as [e|] eqn:Er.
    + rewrite (ingest_cons_err _ _ wordMap e Er). split.
      * intros [? [=]].
      * intros H. apply Forall_cons in H as [H _]. congruence.
    + destruct (ingest_cons_ok (Rec record) (map Rec records) wordMap Er
                  ltac:(discriminate)) as (r & m' & _ & _ & ->).
      rewrite IH. split.
      * intros H. constructor; assumption.
      * intros H. apply Forall_cons in H as [_ H]. exact H.
Qed.

(** The order of the rows of a source does not matter to its worker: the same
    rows in another order give the same map. *)
Theorem worker_order_of_rows (records records' : list (list string))
    (wordMap : gmap string Z) :
  Permutation records records' ->
  ingest (map Rec records) ∅ = Ok wordMap ->
  ingest (map Rec records') ∅ = Ok wordMap.
Proof.
  intros Hp H.
  assert (Hok : exists m, ingest (map Rec records') ∅ = Ok m).
  { apply ingest_ok_iff. rewrite <- Hp. apply (ingest_ok_iff records ∅). eauto. }
  destruct Hok as [m Hm]. rewrite Hm. f_equal. apply map_eq. intros token.
  pose proof (ingest_keys _ _ _ token (map_Rec_no_EOF records) H) as Hk.
  pose proof (ingest_keys _ _ _ token (map_Rec_no_EOF records') Hm) as Hk'.
  assert (Hseen : seen token (map Rec records') = seen token (map Rec records)).
  { unfold seen. symmetry. apply existsb_perm, Permutation_map, Hp. }
  rewrite Hseen in Hk'.
  destruct (m !! token) as [occ'|] eqn:E'; destruct (wordMap !! token) as [occ|] eqn:E.
  - f_equal.
    rewrite (ingest_summedCount_empty _ _ _ _ (map_Rec_no_EOF records) H E).
    rewrite (ingest_summedCount_empty _ _ _ _ (map_Rec_no_EOF records') Hm E').
    unfold summedCount. f_equal. symmetry.
    apply sumZ_map_perm, Permutation_map, Hp.
  - destruct (proj1 Hk' (mk_is_Some _ _ eq_refl)) as [Hs|Hs].
    + rewrite lookup_empty in Hs. destruct Hs as [? [=]].
    + destruct (proj2 Hk (or_intror Hs)) as [? [=]].
  - destruct (proj1 Hk (mk_is_Some _ _ eq_refl)) as [Hs|Hs].
    + rewrite lookup_empty in Hs. destruct Hs as [? [=]].
    + destruct (proj2 Hk' (or_intror Hs)) as [? [=]].
  - reflexivity.
Qed.

(** ** The collector when no worker fails *)

Lemma entriesFor_perm (token : string) (l l' : list wordStat) :
  Permutation l l' -> length (entriesFor token l) = length (entriesFor token l').
Proof.
  unfold entriesFor.
  induction 1 as [|x l l' _ IH|x y l|l l' l'' _ IH1 _ IH2]; simpl.
  - reflexivity.
  - destruct (String.eqb (word x) token); simpl; lia.
  - destruct (String.eqb (word x) token), (String.eqb (word y) token); reflexivity.
  - lia.
Qed.

Lemma entriesFor_app (token : string) (l l' : list wordStat) :
  entriesFor token (l ++ l') = entriesFor token l ++ entriesFor token l'.
Proof. unfold entriesFor. apply List.filter_app. Qed.

Lemma entriesFor_absent (token : string) (ws : list wordStat) :
  token ∉ map word ws -> entriesFor token ws = [].
Proof.
  induction ws as [|w ws IH]; simpl; [reflexivity|]. intros Hn.
  destruct (String.eqb_spec (word w) token) as [E|_].
  - destruct Hn. rewrite <- E. left.
  - apply IH. intros H. apply Hn. right. exact H.
Qed.

Lemma entriesFor_NoDup (token : string) (ws : list wordStat) :
  NoDup (map word ws) ->
  length (entriesFor token ws) = if decide (token ∈ map word ws) then 1%nat else 0%nat.
Proof.
  induction ws as [|w ws IH]; cbn [map entriesFor List.filter].
  - intros _. destruct (decide (token ∈ [])) as [H|_]; [inversion H|reflexivity].
  - intros Hnd. apply NoDup_cons in Hnd as [Hnotin Hnd].
    fold (entriesFor token ws). specialize (IH Hnd).
    destruct (decide (token ∈ word w :: map word ws)) as [H'|H'];
      destruct (String.eqb_spec (word w) token) as [E|Hne].
    + subst token. simpl. rewrite (entriesFor_absent _ _ Hnotin). reflexivity.
    + apply elem_of_cons in H' as [E|H']; [congruence|].
      rewrite IH. destruct (decide (token ∈ map word ws)); [reflexivity|contradiction].
    + destruct H'. rewrite E. left.
    + rewrite IH. destruct (decide (token ∈ map word ws)) as [H|_]; [|reflexivity].
      destruct H'. right. exact H.
Qed.

Lemma goroutine_entriesFor (totalWords : Z) (src : source) (tr : list event)
    (token : string) :
  goroutine totalWords src tr ->
  length (entriesFor token (wordsOf tr)) = if emits src token then 1%nat else 0%nat.
Proof.
  intros Hg. apply goroutine_inv in Hg. unfold emits.
  destruct (workerError src) as [e|] eqn:Hw.
  - subst tr. reflexivity.
  - destruct Hg as (m & kvs & Hi & Hp & ->). rewrite Hi.
    rewrite entriesFor_NoDup.
    2:{ apply wordsOf_emitAll_NoDup. rewrite map_fst_fmap, Hp.
        apply NoDup_fst_map_to_list. }
    assert (Hin : token ∈ map word (wordsOf (emitAll totalWords kvs)) <->
                  exists occ, m !! token = Some occ /\ minOccurrences < occ).
    { rewrite list_elem_of_In, in_map_iff. split.
      - intros (w & <- & Hw'). apply list_elem_of_In, wordsOf_emitAll_elem in Hw'
          as (t & occ & Hkv & Hlt & ->).
        simpl. rewrite Hp in Hkv. apply elem_of_map_to_list in Hkv. eauto.
      - intros (occ & Hl & Hlt). exists (statOf totalWords token occ).
        split; [reflexivity|]. apply list_elem_of_In, wordsOf_emitAll_elem.
        exists token, occ. rewrite Hp. split; [apply elem_of_map_to_list, Hl|auto]. }
    destruct (decide (token ∈ map word (wordsOf (emitAll totalWords kvs)))) as [H|H].
    + apply Hin in H as (occ & -> & Hlt).
      destruct (Z.ltb_spec minOccurrences occ); [reflexivity|lia].
    + destruct (m !! token) as [occ|] eqn:E; [|reflexivity].
      destruct (Z.ltb_spec minOccurrences occ); [|reflexivity].
      destruct H. apply Hin. eauto.
Qed.

Lemma wordsOf_concat_entriesFor (totalWords : Z) (srcs : list source)
    (traces : list (list event)) (token : string) :
  Forall2 (goroutine totalWords) srcs traces ->
  length (entriesFor token (wordsOf (concat traces))) =
  length (List.filter (fun src => emits src token) srcs).
Proof.
  induction 1 as [|src tr srcs traces Hg _ IH]; simpl; [reflexivity|].
  assert (E : wordsOf (tr ++ concat traces) = wordsOf tr ++ wordsOf (concat traces)).
  { clear. induction tr as [|[] tr IHt]; simpl; rewrite ?IHt; reflexivity. }
  rewrite E, entriesFor_app, length_app, IH, (goroutine_entriesFor _ _ _ _ Hg).
  destruct (emits src token); reflexivity.
Qed.

(** When no worker fails, [runIngest] returns no error and every entry that
    was sent, whatever the order of arrival: a token comes once for each
    source whose worker sends it, so the same token can come several times;
    counts are not added up across sources. *)
Theorem collector_returns_every_entry (totalWords : Z) (srcs : list source)
    (out : list wordStat) (err : option error) :
  srcs <> [] ->
  (forall src, src ∈ srcs -> workerError src = None) ->
  runIngest totalWords srcs (out, err) ->
  err = None /\
  (exists traces,
     Forall2 (goroutine totalWords) srcs traces /\
     Permutation out (wordsOf (concat traces))) /\
  forall token,
    length (entriesFor token out) =
    length (List.filter (fun src => emits src token) srcs).
Proof.
  intros Hne Hok (recv & (traces & Hg & Hi) & Hrun).
  destruct (runIngest_success totalWords srcs traces recv Hne Hok Hg Hi) as [Hs Hp].
  rewrite Hs in Hrun. injection Hrun as <- <-.
  assert (Hperm : Permutation (sortSlice (wordsOf recv)) (wordsOf (concat traces))).
  { unfold sortSlice. rewrite <- (insertionSort_perm less). symmetry. exact Hp. }
  split; [reflexivity|]. split; [exists traces; auto|].
  intros token. rewrite (entriesFor_perm _ _ _ Hperm).
  apply (wordsOf_concat_entriesFor totalWords), Hg.
Qed.

(** ** The collector: it returns, and which error *)

(** With at least one source [runIngest] returns: a run exists, and no order
    of arrival leaves the collector waiting. *)
Theorem runIngest_terminates (totalWords : Z) (srcs : list source) :
  srcs <> [] ->
  (exists out, runIngest totalWords srcs out) /\
  (forall recv, received totalWords srcs recv ->
                exists out, runIngestOn srcs recv = Some out).
Proof.
  intros Hne. split.
  - destruct (received_exists totalWords srcs) as [recv Hr].
    destruct (runIngest_returns totalWords srcs recv Hne Hr) as [out Hout].
    exists out, recv. auto.
  - intros recv Hr. apply (runIngest_returns totalWords); assumption.
Qed.

Lemma goroutines_exist (totalWords : Z) (srcs : list source) :
  exists traces, Forall2 (goroutine totalWords) srcs traces.
Proof.
  induction srcs as [|src srcs [traces IH]].
  - exists []. constructor.
  - destruct (goroutine_total totalWords src) as [tr Hg].
    exists (tr :: traces). constructor; assumption.
Qed.

(** When workers fail, which error [runIngest] returns is a matter of
    arrival: the results it can return are exactly the errors of the failing
    workers, each with no entries. *)
Theorem runIngest_any_failing_worker (totalWords : Z) (srcs : list source)
    (out : list wordStat * option error) :
  (exists src, src ∈ srcs /\ workerError src <> None) ->
  runIngest totalWords srcs out <->
  exists src e, src ∈ srcs /\ workerError src = Some e /\ out = ([], Some e).
Proof.
  intros (src0 & Hin0 & Hw0). split.
  - intros (recv & (traces & Hg & Hi) & Hrun).
    destruct (goroutines_signals _ _ _ Hg) as [Hc He].
    pose proof (interleave_perm _ _ Hi) as Hp.
    pose proof (failures_pos srcs src0 Hin0 Hw0) as Hpos.
    destruct (workerError src0) as [e0|] eqn:E0; [|congruence].
    destruct (OuterLoop_error recv (Z.of_nat (length srcs)) []) as (e & Hin & Hloop).
    + rewrite <- (countDone_perm _ _ Hp). lia.
    + exists e0. rewrite <- Hp. apply He. eauto.
    + rewrite <- Hp in Hin. apply He in Hin as (src & Hs & Hw).
      unfold runIngestOn in Hrun. rewrite Hloop in Hrun. injection Hrun as <-.
      eauto.
  - intros (src & e & Hin & Hw & ->).
    apply list_elem_of_split in Hin as (s1 & s2 & ->).
    destruct (goroutines_exist totalWords s1) as [t1 H1].
    destruct (goroutines_exist totalWords s2) as [t2 H2].
    exists (EvErr e :: concat (t1 ++ [] :: t2)). split.
    + exists (t1 ++ [EvErr e] :: t2). split.
      * apply Forall2_app; [exact H1|]. constructor; [|exact H2].
        unfold workerError in Hw. destruct (gzipErr src) as [e1|] eqn:Hz.
        -- injection Hw as ->. apply goroutine_gzip, Hz.
        -- destruct (ingest (rows src) ∅) as [m|e1] eqn:Hi; [discriminate|].
           injection Hw as ->. apply goroutine_read; assumption.
      * apply interleave_recv, interleave_concat.
    + reflexivity.
Qed.

(** ** The frequencies sent *)

Lemma binary_round_aux_sign (sx : bool) (mx ex : Z) (lx : location) :
  0 <= mx ->
  match binary_round_aux 53 1024 sx mx ex lx with
  | S754_zero s | S754_infinity s | S754_finite s _ _ => s = sx
  | S754_nan => False
  end.
Proof.
  intros H. pose proof (binary_round_aux_notNaN sx mx ex lx H) as Hn.
  unfold binary_round_aux in *.
  destruct (shr_fexp 53 1024 mx ex lx) as [mrs' e'].
  destruct (shr_fexp 53 1024 _ e' loc_Exact) as [mrs'' e''].
  destruct (shr_m mrs'') as [|m|m]; [reflexivity| |discriminate].
  destruct (e'' <=? 1024 - 53); reflexivity.
Qed.

Lemma fdiv_counts_shape (occ totalWords : Z) :
  0 < occ < 2 ^ 64 -> 0 <= totalWords < 2 ^ 64 ->
  nonNegative (fdiv (float64_of_uint64 occ) (float64_of_uint64 totalWords)) = true /\
  (totalWords = 0 ->
   fdiv (float64_of_uint64 occ) (float64_of_uint64 totalWords) = S754_infinity false).
Proof.
  intros Hocc Ht. destruct (float64_of_uint64_finite occ Hocc) as (m & e & ->).
  destruct (Z.eq_dec totalWords 0) as [->|Hnz].
  - split; reflexivity.
  - destruct (float64_of_uint64_finite totalWords ltac:(lia)) as (my & ey & ->).
    split; [|contradiction].
    unfold fdiv, SFdiv.
    destruct (SFdiv_core_binary 53 1024 (Z.pos m) e (Z.pos my) ey) as [[mz ez] lz] eqn:E.
    assert (Hq : 0 <= mz).
    { unfold SFdiv_core_binary in E.
      destruct (Z.div_eucl _ (Z.pos my)) as [q r] eqn:Ed. injection E as <- _ _.
      match type of Ed with Z.div_eucl ?a ?b = _ =>
        pose proof (Z_div_mod a b ltac:(lia)) as Hdm; rewrite Ed in Hdm;
        assert (0 <= a) end.
      { destruct (e - ey - _) as [|s|s]; try lia. apply Z.shiftl_nonneg. lia. }
      nia. }
    pose proof (binary_round_aux_sign (xorb false false) mz ez lz Hq) as Hs.
    destruct (binary_round_aux 53 1024 (xorb false false) mz ez lz) as [s|s| |s ? ?];
      try (subst s; reflexivity). destruct Hs.
Qed.

(** A frequency sent by a worker is never NaN and never negative, whatever
    the denominator; with the denominator 0 it is +Inf. *)
Theorem emitted_frequency_shape (totalWords : Z) (src : source) (tr : list event)
    (w : wordStat) :
  0 <= totalWords < 2 ^ 64 ->
  goroutine totalWords src tr ->
  w ∈ wordsOf tr ->
  isNaN (frequency w) = false /\
  nonNegative (frequency w) = true /\
  (totalWords = 0 -> frequency w = S754_infinity false).
Proof.
  intros Ht Hg Hin. split; [eapply goroutine_notNaN; eassumption|].
  destruct Hg as [e Hz|e Hz Hi|wordMap kvs Hz Hi Hp]; try (inversion Hin; fail).
  apply wordsOf_emitAll_elem in Hin as (token & occ & Hin & Hlt & ->).
  rewrite Hp in Hin. apply elem_of_map_to_list in Hin.
  apply ingest_range in Hi; [|apply map_Forall_empty].
  specialize (Hi token occ Hin). simpl in Hi.
  apply fdiv_counts_shape; [unfold minOccurrences in Hlt; lia|exact Ht].
Qed.

(** ** Counts below zero *)

Lemma parseDigits_nonneg (maxVal : Z) (s : string) (n un : Z) :
  0 <= n -> parseDigits maxVal s n = inr un -> 0 <= un.
Proof.
  revert n. induction s as [|c s IH]; intros n Hn; simpl.
  - intros [= <-]. exact Hn.
  - unfold isDigit. destruct (Z.leb_spec 48 (byteOf c)); [|discriminate].
    destruct (byteOf c <=? 57); [|discriminate]. simpl.
    destruct (maxVal <? n * 10 + (byteOf c - 48)); [discriminate|].
    apply IH. lia.
Qed.

(** What [ParseInt] returns fits the bit size asked for. *)
Lemma ParseInt_range (s : string) (bitSize n : Z) :
  0 < bitSize ->
  ParseInt s bitSize = Ok n -> - 2 ^ (bitSize - 1) <= n < 2 ^ (bitSize - 1).
Proof.
  intros Hb. assert (0 < 2 ^ (bitSize - 1)) by (apply Z.pow_pos_nonneg; lia).
  unfold ParseInt. destruct s as [|c rest]; [discriminate|].
  destruct (ParseUint _ bitSize) as [[]|un] eqn:Eu; try discriminate.
  assert (Hun : 0 <= un).
  { unfold ParseUint in Eu.
    match type of Eu with
    | match ?t with EmptyString => _ | String _ _ => _ end = _ =>
        destruct t; [discriminate|]
    end.
    eapply parseDigits_nonneg; [|exact Eu]. lia. }
  destruct (Ascii.eqb c "-"); simpl.
  - destruct (Z.ltb_spec (2 ^ (bitSize - 1)) un); [discriminate|].
    intros [= <-]. lia.
  - destruct (Z.leb_spec (2 ^ (bitSize - 1)) un); [discriminate|].
    intros [= <-]. lia.
Qed.

(** A count below zero is not refused: it is added as a uint64, so a token
    first met with a negative count stands at [2^64 + count], far above the
    threshold, and is sent if nothing else is added. *)
Theorem negative_count_wraps (raw year count volumes : string) (y c : Z)
    (wordMap : gmap string Z) :
  Contains raw "."%char = false ->
  ParseInt year 16 = Ok y ->
  minYear <= y ->
  ParseInt count 64 = Ok c ->
  c < 0 ->
  wordMap !! canonical raw = None ->
  ingestRecord [raw; year; count; volumes] wordMap
    = Ok (<[canonical raw := 2 ^ 64 + c]> wordMap) /\
  minOccurrences < 2 ^ 64 + c.
Proof.
  intros Hp Hy Hge Hc Hneg Hfresh.
  pose proof (ParseInt_range count 64 c ltac:(lia) Hc) as Hr.
  change (2 ^ (64 - 1)) with 9223372036854775808 in Hr.
  change (2 ^ 64) with 18446744073709551616.
  split; [|unfold minOccurrences; lia].
  rewrite (ingestRecord_accepted [raw; year; count; volumes] wordMap y c Hp Hy Hge Hc).
  cbn [nth]. rewrite Hfresh. cbn [default]. f_equal. f_equal.
  unfold uint64. change (2 ^ 64) with 18446744073709551616.
  rewrite Z.add_0_l, Zmod_mod.
  symmetry. apply (Z.mod_unique_pos _ _ (-1)); lia.
Qed.

(** ** [main] *)

Lemma writeAll_returns (FormatFloat : float64 -> string) (w : world)
    (words : list wordStat) (n : nat) (handed out : list (list string)) :
  writeAll FormatFloat w words n handed = Returns out ->
  out = handed ++ map (csvOut FormatFloat) words.
Proof.
  revert n handed. induction words as [|x words IH]; intros n handed; simpl.
  - destruct (FlushErr w); [discriminate|]. intros [= <-].
    rewrite app_nil_r. reflexivity.
  - destruct (WriteErr w n); [discriminate|]. intros H. apply IH in H.
    rewrite H, <- app_assoc. reflexivity.
Qed.

Lemma finish_returns (FormatFloat : float64 -> string) (w : world)
    (res : list wordStat * option error) (out : list (list string)) :
  finish FormatFloat w res = Returns out ->
  snd res = None /\ out = map (csvOut FormatFloat) (fst res).
Proof.
  unfold finish. destruct res as [words [e|]]; [discriminate|].
  destruct (nth_error (Args w) 2); [|discriminate].
  destruct (Create w _); [discriminate|].
  intros H. apply writeAll_returns in H. auto.
Qed.

Lemma prepare_total (w : world) (f : list readResult) (total : Z)
    (files : list source) :
  totalsFileOf w = Some f ->
  prepare w = inr (total, files) ->
  total = match parseTotal f with Ok t => t | Err _ => 0 end.
Proof.
  unfold totalsFileOf, prepare.
  destruct (Getwd w) as [wd|]; [|discriminate].
  destruct (EvalSymlinks w wd) as [wd'|]; [|discriminate].
  destruct (nth_error (Args w) 1) as [dir|]; [|discriminate].
  destruct (Glob w wd' dir totalsGlob) as [[|name [|]]|]; try discriminate.
  simpl. destruct (OpenTotals w name) as [f'|]; [|discriminate].
  intros [= ->].
  destruct (Glob w wd' dir dataGlob) as [names|]; [|discriminate].
  destruct (openAll w names []); [discriminate|].
  intros [= <- _]. reflexivity.
Qed.

Lemma goroutine_zero_denominator (src : source) (tr : list event) (w : wordStat) :
  goroutine 0 src tr -> w ∈ wordsOf tr -> frequency w = S754_infinity false.
Proof.
  intros [e Hz|e Hz Hi|wordMap kvs Hz Hi Hp] Hin; try (inversion Hin; fail).
  apply wordsOf_emitAll_elem in Hin as (token & occ & Hin & Hlt & ->).
  rewrite Hp in Hin. apply elem_of_map_to_list in Hin.
  apply ingest_range in Hi; [|apply map_Forall_empty].
  specialize (Hi token occ Hin). simpl in Hi.
  apply fdiv_counts_shape; [unfold minOccurrences in Hlt; lia|lia|reflexivity].
Qed.

(** [main] does not look at the error of [parseTotal]: with a totals file
    that cannot be parsed it goes on with the denominator 0, and if it gets
    to the end every record it wrote carries the frequency +Inf. *)
Theorem main_ignores_totals_error (FormatFloat : float64 -> string) (w : world)
    (f : list readResult) (e : error) (handed : list (list string)) :
  totalsFileOf w = Some f ->
  parseTotal f = Err e ->
  main FormatFloat w (Returns handed) ->
  (exists files, prepare w = inr (0, files)) /\
  forall r, r ∈ handed ->
            exists token, r = [token; FormatFloat (S754_infinity false)].
Proof.
  intros Hf He Hmain. unfold main in Hmain.
  destruct (prepare w) as [o|[total files]] eqn:Hprep; [|].
  { unfold prepare in Hprep. subst o.
    repeat match type of Hprep with
           | match ?x with _ => _ end = _ => destruct x; try discriminate
           | (if ?x then _ else _) = _ => destruct x; try discriminate
           end. }
  pose proof (prepare_total w f total files Hf Hprep) as Ht. rewrite He in Ht.
  subst total. split; [eauto|].
  destruct Hmain as [(res & Hrun & Hfin)|[_ [=]]].
  symmetry in Hfin. apply finish_returns in Hfin as [Herr ->].
  destruct res as [words err]. simpl in *. subst err.
  intros r Hr. apply list_elem_of_In, in_map_iff in Hr as (x & <- & Hx).
  apply list_elem_of_In in Hx.
  destruct (runIngest_entries _ _ _ _ _ Hrun Hx) as (src & tr & _ & Hg & Hw).
  exists (word x). unfold csvOut.
  rewrite (goroutine_zero_denominator src tr x Hg Hw). reflexivity.
Qed.

Lemma runIngest_srcDog (totalWords : Z) :
  runIngest totalWords [srcDog] ([statOf totalWords "dog" 20000], None).
Proof.
  apply (runIngest_one_token totalWords srcDog (<["dog" := 20000]> ∅) "dog" 20000).
  - reflexivity.
  - vm_compute. reflexivity.
  - rewrite insert_empty, map_to_list_singleton. reflexivity.
  - reflexivity.
Qed.

Lemma no_sources_never_returns (totalWords : Z) (recv : list event) :
  received totalWords [] recv -> runIngestOn [] recv = None.
Proof.
  intros (traces & Hg & Hi). inversion Hg; subst.
  apply interleave_perm in Hi. simpl in Hi.
  apply Permutation_nil in Hi. subst. reflexivity.
Qed.

(** When no data file matches, [main] calls [runIngest] without sources and
    never comes back from it: [main] neither creates the output file nor
    prints an error and exits. *)
Theorem main_without_data_files_blocks (FormatFloat : float64 -> string)
    (w : world) (total : Z) (o : outcome) :
  prepare w = inr (total, []) ->
  main FormatFloat w o <-> o = Blocks.
Proof.
  intros Hprep. unfold main. rewrite Hprep. split.
  - intros [(res & (recv & Hr & Hon) & _)|[_ ->]]; [|reflexivity].
    rewrite (no_sources_never_returns total recv Hr) in Hon. discriminate.
  - intros ->. right. split; [|reflexivity].
    intros recv. apply no_sources_never_returns.
Qed.

(** The name of the output file is read from the arguments only after
    [runIngest] has returned: when it is missing and no worker fails, [main]
    does all of the reading and then panics. *)
Theorem main_reads_output_argument_last (FormatFloat : float64 -> string)
    (w : world) (total : Z) (files : list source) (o : outcome) :
  prepare w = inr (total, files) ->
  files <> [] ->
  (forall src, src ∈ files -> workerError src = None) ->
  nth_error (Args w) 2 = None ->
  main FormatFloat w o <-> o = Panics.
Proof.
  intros Hprep Hne Hok Hargs. unfold main. rewrite Hprep. split.
  - intros [(res & (recv & (traces & Hg & Hi) & Hon) & ->)|[Hnone _]].
    + destruct (runIngest_success total files traces recv Hne Hok Hg Hi) as [Hs _].
      rewrite Hs in Hon. injection Hon as <-. unfold finish. rewrite Hargs.
      reflexivity.
    + destruct (received_exists total files) as [recv Hr].
      destruct (runIngest_returns total files recv Hne Hr) as [out Hout].
      rewrite (Hnone recv Hr) in Hout. discriminate.
  - intros ->. left.
    destruct (received_exists total files) as [recv Hr].
    destruct Hr as (traces & Hg & Hi).
    destruct (runIngest_success total files traces recv Hne Hok Hg Hi) as [Hs _].
    exists (sortSlice (wordsOf recv), None). split.
    + exists recv. split; [exists traces; auto|exact Hs].
    + unfold finish. rewrite Hargs. reflexivity.
Qed.

(** What [main] has written when it returns is what [runIngest] returned,
    entry by entry and in its order, each as the token and the formatted
    frequency. *)
Theorem main_writes_what_runIngest_returns (FormatFloat : float64 -> string)
    (w : world) (handed : list (list string)) :
  main FormatFloat w (Returns handed) ->
  exists total files words,
    prepare w = inr (total, files) /\
    runIngest total files (words, None) /\
    handed = map (csvOut FormatFloat) words.
Proof.
  unfold main. destruct (prepare w) as [o|[total files]] eqn:Hprep.
  - intros <-. unfold prepare in Hprep.
    repeat match type of Hprep with
           | match ?x with _ => _ end = _ => destruct x; try discriminate
           | (if ?x then _ else _) = _ => destruct x; try discriminate
           end.
  - intros [(res & Hrun & Hfin)|[_ [=]]].
    symmetry in Hfin. apply finish_returns in Hfin as [Herr ->].
    destruct res as [words err]. simpl in *. subst err.
    exists total, files, words. auto.
Qed.

End ExtraProofs.

(** * The version that groups consecutive rows *)

Module GroupedFacts.
Import Grouped.
Section Tables.
Context {caseTables : CaseTables}.

Lemma Contains_period_underscore (a : ascii) :
  Contains "._" a = false -> Ascii.eqb a "_" = false.
Proof. destruct a as [[] [] [] [] [] [] [] []]; simpl; congruence. Qed.

Lemma ContainsAny_underscore (s : string) :
  ContainsAny s "._" = false -> Contains s "_"%char = false.
Proof.
  induction s as [|a s IH]; [reflexivity|].
  cbn [ContainsAny Contains]. intros H. apply orb_false_iff in H as [Ha Hs].
  rewrite (Contains_period_underscore a Ha). apply IH, Hs.
Qed.

Lemma prefixBefore_all (c : ascii) (s : string) :
  Contains s c = false -> prefixBefore c s = s.
Proof.
  induction s as [|a s IH]; simpl; [reflexivity|].
  destruct (Ascii.eqb a c); [discriminate|]. intros H. rewrite IH by exact H.
  reflexivity.
Qed.

(** What one row does to the state, in terms of [accepted]. *)
Lemma ingestRecord_accepted_row (totalWords : Z) (record : list string) (st : state)
    (wd : string) (c : Z) :
  accepted record = Some (wd, c) ->
  Grouped.ingestRecord totalWords record st =
    match last (wordStats st) with
    | Some w =>
        if String.eqb (word w) wd then
          Ok {| wordStats := wordStats st;
                occurrences := uint64 (occurrences st + uint64 c) |}
        else
          Ok {| wordStats :=
                  removelast (wordStats st)
                  ++ [{| word := word w;
                         frequency := fdiv (float64_of_uint64 (occurrences st))
                                           (float64_of_uint64 totalWords) |};
                      {| word := wd; frequency := zero |}];
                occurrences := uint64 c |}
    | None =>
        Ok {| wordStats := [{| word := wd; frequency := zero |}];
              occurrences := uint64 c |}
    end.
Proof.
  unfold accepted, Grouped.ingestRecord.
  destruct (ContainsAny (nth 0 record "") "._") eqn:Hc; [discriminate|].
  destruct (ParseInt (nth 1 record "") 16) as [year|]; [|discriminate].
  destruct (ParseInt (nth 2 record "") 64) as [count|]; [|discriminate].
  destruct (Z.leb_spec minYear year) as [Hy|Hy]; [|discriminate].
  intros [= <- <-].
  replace (year <? minYear) with false by (symmetry; apply Z.ltb_ge; lia).
  rewrite Split_head, (prefixBefore_all _ _ (ContainsAny_underscore _ Hc)).
  reflexivity.
Qed.

Lemma ingestRecord_skipped_row (totalWords : Z) (record : list string)
    (st st' : state) :
  accepted record = None ->
  Grouped.ingestRecord totalWords record st = Ok st' -> st' = st.
Proof.
  unfold accepted, Grouped.ingestRecord.
  destruct (ContainsAny (nth 0 record "") "._"); [intros _ [= <-]; reflexivity|].
  destruct (ParseInt (nth 1 record "") 16) as [year|]; [|discriminate].
  destruct (Z.ltb_spec year minYear) as [Hy|Hy]; [intros _ [= <-]; reflexivity|].
  destruct (ParseInt (nth 2 record "") 64) as [count|]; [|discriminate].
  replace (minYear <=? year) with true by (symmetry; apply Z.leb_le; lia).
  discriminate.
Qed.

Lemma ingest_snoc (totalWords : Z) (records : list (list string))
    (record : list string) (st0 : state) :
  Grouped.ingest totalWords (map Rec (records ++ [record])) st0 =
    match Grouped.ingest totalWords (map Rec records) st0 with
    | Ok st =>
        if (length record =? 4)%nat then Grouped.ingestRecord totalWords record st
        else Err ErrFieldCount
    | Err e => Err e
    end.
Proof.
  revert st0. induction records as [|r records IH]; intros st0; simpl.
  - destruct (length record =? 4)%nat; [|reflexivity].
    destruct (Grouped.ingestRecord totalWords record st0); reflexivity.
  - destruct (length r =? 4)%nat; [|reflexivity].
    destruct (Grouped.ingestRecord totalWords r st0); [apply IH|reflexivity].
Qed.

Lemma groupAdjacent_head (wd : string) (c : Z) (rows : list (string * Z)) :
  exists cs groups, groupAdjacent ((wd, c) :: rows) = (wd, c :: cs) :: groups.
Proof.
  simpl. destruct (groupAdjacent rows) as [|[wd' cs'] groups]; [eauto|].
  destruct (String.eqb wd wd'); eauto.
Qed.

Ltac eqb_cases :=
  repeat (simpl;
          match goal with
          | |- context [String.eqb ?a ?b] => destruct (String.eqb_spec a b); subst
          end);
  simpl; try reflexivity; try congruence.

(** Adding a row at the end lengthens the last group or opens a new one. *)
Lemma groupAdjacent_snoc (rows : list (string * Z)) (wd : string) (c : Z) :
  groupAdjacent (rows ++ [(wd, c)]) =
    match last (groupAdjacent rows) with
    | Some (wd', cs) =>
        if String.eqb wd' wd
        then removelast (groupAdjacent rows) ++ [(wd', cs ++ [c])]
        else groupAdjacent rows ++ [(wd, [c])]
    | None => [(wd, [c])]
    end.
Proof.
  induction rows as [|[w1 c1] rows IH]; [reflexivity|].
  cbn [app groupAdjacent]. rewrite IH. clear IH.
  destruct (groupAdjacent rows) as [|[w2 cs2] groups] eqn:Eg.
  - eqb_cases.
  - destruct (last ((w2, cs2) :: groups)) as [[wl csl]|] eqn:El.
    2:{ rewrite last_None in El. discriminate. }
    destruct groups as [|g groups].
    + simpl in El. injection El as <- <-. eqb_cases.
    + rewrite last_cons_cons in El.
      assert (El' : last ((w1, c1 :: cs2) :: g :: groups) = Some (wl, csl))
        by (rewrite last_cons_cons; exact El).
      assert (El'' : last ((w1, [c1]) :: (w2, cs2) :: g :: groups) = Some (wl, csl))
        by (rewrite !last_cons_cons; exact El).
      change (removelast ((w2, cs2) :: g :: groups))
        with ((w2, cs2) :: removelast (g :: groups)).
      destruct (String.eqb wl wd) eqn:Ew; cbn [app];
        destruct (String.eqb w1 w2);
        rewrite ?El', ?El'', Ew; reflexivity.
Qed.

Lemma sumZ_snoc (cs : list Z) (c : Z) : sumZ (cs ++ [c]) = sumZ cs + c.
Proof. unfold sumZ. induction cs as [|x cs IH]; simpl; lia. Qed.

Lemma entriesOf_snoc (totalWords : Z) (groups : list (string * list Z))
    (wd : string) (cs : list Z) :
  entriesOf totalWords (groups ++ [(wd, cs)]) =
    map (fun g => {| word := fst g;
                     frequency := fdiv (float64_of_uint64 (uint64 (sumZ (snd g))))
                                       (float64_of_uint64 totalWords) |}) groups
    ++ [{| word := wd; frequency := zero |}].
Proof. unfold entriesOf. rewrite last_snoc, removelast_last. reflexivity. Qed.

(** The state after the rows [records], read from the start. *)
Lemma ingest_groups (totalWords : Z) (records : list (list string)) (st : state) :
  Grouped.ingest totalWords (map Rec records) initial = Ok st ->
  wordStats st = entriesOf totalWords (groupAdjacent (acceptedRows records)) /\
  occurrences st =
    match last (groupAdjacent (acceptedRows records)) with
    | Some (_, cs) => uint64 (sumZ cs)
    | None => 0
    end.
Proof.
  revert st. induction records as [|record records IH] using rev_ind; intros st.
  - intros [= <-]. split; reflexivity.
  - rewrite ingest_snoc.
    destruct (Grouped.ingest totalWords (map Rec records) initial) as [st1|e];
      [|discriminate].
    destruct (IH st1 eq_refl) as [Hws Hocc]. clear IH.
    destruct (length record =? 4)%nat; [|discriminate].
    unfold acceptedRows in *. rewrite omap_app. cbn [omap list_omap].
    destruct (accepted record) as [[wd c]|] eqn:Ea.
    2:{ intros H. apply (ingestRecord_skipped_row _ _ _ _ Ea) in H as ->.
        rewrite ?Ea, ?app_nil_r. auto. }
    rewrite (ingestRecord_accepted_row _ _ _ _ _ Ea).
    rewrite ?Ea.
    rewrite groupAdjacent_snoc.
    remember (groupAdjacent (omap accepted records)) as g eqn:Eg. clear Eg.
    destruct (last g) as [[wl csl]|] eqn:El.
    + apply last_Some in El as [g' ->].
      rewrite entriesOf_snoc in Hws. rewrite Hws, last_snoc. cbn [word].
      destruct (String.eqb wl wd).
      * intros [= <-]. cbn [wordStats occurrences].
        rewrite removelast_last, entriesOf_snoc, last_snoc. split; [reflexivity|].
        rewrite Hocc, sumZ_snoc. apply uint64_add_r.
      * intros [= <-]. cbn [wordStats occurrences].
        rewrite removelast_last, entriesOf_snoc, last_snoc, map_app, Hocc.
        cbn [map fst snd]. rewrite <- app_assoc. split; [reflexivity|].
        unfold sumZ. simpl. rewrite Z.add_0_r. reflexivity.
    + apply last_None in El as ->. simpl in Hws. rewrite Hws. cbn [last].
      intros [= <-]. split; [reflexivity|].
      unfold sumZ. simpl. rewrite Z.add_0_r. reflexivity.
Qed.

Lemma ingest_app_records (totalWords : Z) (r1 r2 : list (list string)) (st : state) :
  Grouped.ingest totalWords (map Rec (r1 ++ r2)) st =
    match Grouped.ingest totalWords (map Rec r1) st with
    | Ok st' => Grouped.ingest totalWords (map Rec r2) st'
    | Err e => Err e
    end.
Proof.
  revert st. induction r1 as [|r r1 IH]; intros st; simpl.
  - reflexivity.
  - destruct (length r =? 4)%nat; [|reflexivity].
    destruct (Grouped.ingestRecord totalWords r st); [apply IH|reflexivity].
Qed.

Lemma ingestFiles_concat (totalWords : Z) (files : list (list (list string)))
    (st : state) :
  ingestFiles totalWords (map (fun records => Ok (map Rec records)) files) st =
  Grouped.ingest totalWords (map Rec (concat files)) st.
Proof.
  revert st. induction files as [|f files IH]; intros st; simpl; [reflexivity|].
  rewrite ingest_app_records.
  destruct (Grouped.ingest totalWords (map Rec f) st); [apply IH|reflexivity].
Qed.

(** What the grouping version hands to the sort: the accepted rows of all
    files, taken as one sequence, fall into groups of consecutive rows with
    the same lower-cased token; each group but the last becomes an entry with
    the frequency of its summed count, the last group an entry with
    frequency 0, its count being left in [occurrences]. File boundaries play
    no part. *)
Theorem grouped_entries (totalWords : Z) (files : list (list (list string)))
    (st : state) :
  ingestFiles totalWords (map (fun records => Ok (map Rec records)) files) initial
    = Ok st ->
  wordStats st = entriesOf totalWords (groupAdjacent (acceptedRows (concat files))) /\
  occurrences st =
    match last (groupAdjacent (acceptedRows (concat files))) with
    | Some (_, cs) => uint64 (sumZ cs)
    | None => 0
    end.
Proof.
  rewrite ingestFiles_concat. apply ingest_groups.
Qed.

(** A property of the state that every row keeps is kept by the loops. *)
Lemma ingest_invariant (P : state -> Prop) (totalWords : Z) :
  (forall record st st',
     P st -> Grouped.ingestRecord totalWords record st = Ok st' -> P st') ->
  forall rd st st', P st -> Grouped.ingest totalWords rd st = Ok st' -> P st'.
Proof.
  intros Hrow rd. induction rd as [|x rd IH]; intros st st' HP; simpl.
  - intros [= <-]. exact HP.
  - destruct (Read 4 x) as [record|[]]; try discriminate.
    + destruct (Grouped.ingestRecord totalWords record st) as [st1|] eqn:E;
        [|discriminate].
      apply IH. exact (Hrow _ _ _ HP E).
    + intros [= <-]. exact HP.
Qed.

Lemma ingestFiles_invariant (P : state -> Prop) (totalWords : Z) :
  (forall record st st',
     P st -> Grouped.ingestRecord totalWords record st = Ok st' -> P st') ->
  forall files st st', P st -> ingestFiles totalWords files st = Ok st' -> P st'.
Proof.
  intros Hrow files. induction files as [|[rd|e] files IH]; intros st st' HP; simpl.
  - intros [= <-]. exact HP.
  - destruct (Grouped.ingest totalWords rd st) as [st1|] eqn:E; [|discriminate].
    apply IH. exact (ingest_invariant P totalWords Hrow _ _ _ HP E).
  - discriminate.
Qed.

(** The shapes of the state after one row. *)
Lemma ingestRecord_shapes (totalWords : Z) (record : list string) (st st' : state) :
  Grouped.ingestRecord totalWords record st = Ok st' ->
  wordStats st' = wordStats st \/
  (exists ws w f wd,
     wordStats st = ws ++ [w] /\ word w <> wd /\
     wordStats st' = (ws ++ [{| word := word w; frequency := f |}])
                     ++ [{| word := wd; frequency := zero |}]) \/
  (exists wd, wordStats st = [] /\
              wordStats st' = [{| word := wd; frequency := zero |}]).
Proof.
  unfold Grouped.ingestRecord.
  destruct (ContainsAny (nth 0 record "") "._"); [intros [= <-]; auto|].
  destruct (ParseInt (nth 1 record "") 16) as [year|]; [|discriminate].
  destruct (year <? minYear); [intros [= <-]; auto|].
  destruct (ParseInt (nth 2 record "") 64) as [count|]; [|discriminate].
  destruct (last (wordStats st)) as [w|] eqn:El.
  - apply last_Some in El as [ws Ews].
    destruct (String.eqb_spec (word w)
                (ToLower (nth 0 (Split (nth 0 record "") "_"%char) ""))) as [E|E].
    + intros [= <-]. auto.
    + intros [= <-]. right; left. cbn [wordStats].
      eexists ws, w, _, _. split; [exact Ews|]. split; [exact E|].
      rewrite Ews, removelast_last, <- app_assoc. reflexivity.
  - apply last_None in El. intros [= <-]. right; right. eauto.
Qed.

Lemma noRepeat_snoc (l : list string) (x : string) :
  noRepeat l -> last l <> Some x -> noRepeat (l ++ [x]).
Proof.
  induction l as [|a [|b l] IH]; intros Hl Hx.
  - exact I.
  - simpl. split; [|exact I]. intros ->. apply Hx. reflexivity.
  - destruct Hl as [Hab Hl]. change ((a :: b :: l) ++ [x]) with (a :: b :: (l ++ [x])).
    split; [exact Hab|]. apply (IH Hl). rewrite last_cons_cons in Hx. exact Hx.
Qed.

Lemma noRepeat_elem (l1 l2 : list string) (a b : string) :
  noRepeat (l1 ++ a :: b :: l2) -> a <> b.
Proof.
  induction l1 as [|x [|y l1] IH]; simpl.
  - intros [H _]. exact H.
  - intros [_ [H _]]. exact H.
  - intros [_ H]. apply IH. exact H.
Qed.

(** The entry of the last word never gets its frequency: whatever the files
    hold, when the loops end without an error the last entry of [wordStats]
    still has the zero frequency it was appended with, the count of its rows
    being left in [occurrences]. *)
Theorem last_entry_keeps_zero_frequency (totalWords : Z)
    (files : list (result (list readResult))) (st : state) :
  ingestFiles totalWords files initial = Ok st ->
  forall w, last (wordStats st) = Some w -> frequency w = zero.
Proof.
  apply (ingestFiles_invariant
           (fun st => forall w, last (wordStats st) = Some w -> frequency w = zero)).
  - intros record st0 st1 HP Hrow.
    destruct (ingestRecord_shapes _ _ _ _ Hrow)
      as [E|[(ws & w0 & f & wd & _ & _ & E)|(wd & _ & E)]]; rewrite E.
    + exact HP.
    + intros w. rewrite last_snoc. intros [= <-]. reflexivity.
    + intros w [= <-]. reflexivity.
  - intros w. discriminate.
Qed.

(** No two neighbouring entries of [wordStats] have the same word, whatever
    the files hold: an entry is appended only when the word differs from the
    last entry's. (The same word can come back later and get a second
    entry.) *)
Theorem neighbouring_entries_differ (totalWords : Z)
    (files : list (result (list readResult))) (st : state) :
  ingestFiles totalWords files initial = Ok st ->
  forall before a b after,
    wordStats st = before ++ a :: b :: after -> word a <> word b.
Proof.
  intros Hrun before a b after E.
  assert (H : noRepeat (map word (wordStats st))).
  { revert Hrun.
    apply (ingestFiles_invariant (fun st => noRepeat (map word (wordStats st))));
      [|exact I].
    intros record st0 st1 HP Hrow.
    destruct (ingestRecord_shapes _ _ _ _ Hrow)
      as [E1|[(ws & w0 & f & wd & E0 & Hne & E1)|(wd & _ & E1)]]; rewrite E1.
    - exact HP.
    - rewrite E0 in HP. rewrite map_app in *. cbn [map word] in *.
      apply noRepeat_snoc.
      + rewrite map_app. exact HP.
      + rewrite map_app. cbn [map word]. rewrite last_snoc. congruence.
    - exact I. }
  rewrite E, map_app in H. cbn [map] in H. exact (noRepeat_elem _ _ _ _ H).
Qed.

End Tables.
End GroupedFacts.

(** * The version that drops tokens with non-word characters *)

Module WordsOnlyFacts.
Section Tables.
Context {caseTables : CaseTables}.

Lemma isWordByte_range (b : ascii) :
  WordsOnly.isWordByte b = true ->
  byteOf b < RuneSelf /\
  (isUpper b = false -> Ascii.eqb b "_" = false ->
   isDigit b || WordsOnly.isLower b = true).
Proof. destruct b as [[] [] [] [] [] [] [] []]; vm_compute; intuition congruence. Qed.

Lemma isLower_range (b : ascii) :
  97 <= byteOf b <= 122 -> WordsOnly.isLower b = true.
Proof.
  intros Hb. unfold WordsOnly.isLower. apply andb_true_iff.
  rewrite !Z.leb_le. exact Hb.
Qed.

Lemma MatchString_byte (s : string) (b : ascii) :
  WordsOnly.MatchString s = false -> Contains s b = true ->
  WordsOnly.isWordByte b = true.
Proof.
  induction s as [|a s IH]; cbn [WordsOnly.MatchString Contains]; [discriminate|].
  intros Hm. apply orb_false_iff in Hm as [Ha Hm]. apply negb_false_iff in Ha.
  destruct (Ascii.eqb_spec a b) as [<-|_]; [intros _; exact Ha|apply IH, Hm].
Qed.

Lemma lowerAlnum_bytes (s : string) :
  (forall b, Contains s b = true -> isDigit b || WordsOnly.isLower b = true) ->
  WordsOnly.lowerAlnum s = true.
Proof.
  induction s as [|a s IH]; [reflexivity|].
  cbn [WordsOnly.lowerAlnum]. intros Hb. apply andb_true_iff. split.
  - apply Hb. simpl. rewrite Ascii.eqb_refl. reflexivity.
  - apply IH. intros b Hin. apply Hb. simpl. rewrite Hin.
    destruct (Ascii.eqb a b); reflexivity.
Qed.

(** A lower-cased string with no underscore in the original and no match of
    [\W] is made of digits and letters 'a'..'z'. *)
Lemma ToLower_lowerAlnum (s : string) :
  lowersToLetters ->
  Contains s "_"%char = false ->
  WordsOnly.MatchString (ToLower s) = false ->
  WordsOnly.lowerAlnum (ToLower s) = true.
Proof.
  intros Htab Hc Hm. apply lowerAlnum_bytes. intros b Hb.
  destruct (isWordByte_range b (MatchString_byte _ _ Hm Hb)) as [Hr Hw].
  destruct (ToLower_byte s b Htab Hr Hb) as [Hl|[Hin Hu]].
  - rewrite (isLower_range b Hl). apply orb_true_r.
  - apply Hw; [exact Hu|]. apply Ascii.eqb_neq. intros ->. congruence.
Qed.

Lemma ingestRecord_keys_alnum (record : list string) (wordMap wordMap' : gmap string Z) :
  lowersToLetters ->
  map_Forall (fun token _ => WordsOnly.lowerAlnum token = true) wordMap ->
  WordsOnly.ingestRecord record wordMap = Ok wordMap' ->
  map_Forall (fun token _ => WordsOnly.lowerAlnum token = true) wordMap'.
Proof.
  intros Htab Hm. unfold WordsOnly.ingestRecord.
  destruct (ParseInt (nth 1 record "") 16) as [year|]; [|discriminate].
  destruct (year <? minYear); [intros [= <-]; exact Hm|].
  rewrite Split_head.
  destruct (WordsOnly.MatchString (ToLower (prefixBefore "_" (nth 0 record "")))) eqn:Em;
    [intros [= <-]; exact Hm|].
  destruct (ParseInt (nth 2 record "") 64) as [count|]; [|discriminate].
  intros [= <-]. apply map_Forall_insert_2; [|exact Hm].
  apply ToLower_lowerAlnum; [exact Htab|apply prefixBefore_free|exact Em].
Qed.

Lemma ingest_keys_alnum (rd : list readResult) (wordMap wordMap' : gmap string Z) :
  lowersToLetters ->
  map_Forall (fun token _ => WordsOnly.lowerAlnum token = true) wordMap ->
  WordsOnly.ingest rd wordMap = Ok wordMap' ->
  map_Forall (fun token _ => WordsOnly.lowerAlnum token = true) wordMap'.
Proof.
  intros Htab.
  revert wordMap. induction rd as [|x rd IH]; intros wordMap Hm; simpl.
  - intros [= <-]. exact Hm.
  - destruct (Read 4 x) as [record|[]]; try discriminate.
    + destruct (WordsOnly.ingestRecord record wordMap) as [m1|] eqn:E; [|discriminate].
      apply IH. exact (ingestRecord_keys_alnum _ _ _ Htab Hm E).
    + intros [= <-]. exact Hm.
Qed.

(** Every token this version sends is made of digits and the letters
    'a'..'z' only, whatever the source holds: no upper-case letter, no
    underscore and no other character gets through. (The empty token does.)
    The condition says of the case table that a rune above 0x7f is lowered
    to such a rune or to a letter 'a'..'z'. *)
Theorem emitted_tokens_alphanumeric (totalWords : Z) (src : source)
    (tr : list event) (w : wordStat) :
  lowersToLetters ->
  WordsOnly.goroutine totalWords src tr ->
  w ∈ wordsOf tr ->
  WordsOnly.lowerAlnum (word w) = true.
Proof.
  intros Htab Hg Hin.
  destruct Hg as [e Hz|e Hz Hi|wordMap kvs Hz Hi Hp]; try (inversion Hin; fail).
  apply wordsOf_emitAll_elem in Hin as (token & occ & Hin & _ & ->).
  rewrite Hp in Hin. apply elem_of_map_to_list in Hin.
  apply ingest_keys_alnum in Hi; [|exact Htab|apply map_Forall_empty].
  exact (Hi token occ Hin).
Qed.

Lemma srcDoh_goroutine (totalWords : Z) :
  WordsOnly.goroutine totalWords WordsOnly.srcDoh
    [EvWord (statOf totalWords "dog" 20005); EvDone].
Proof.
  apply (WordsOnly.worker_done totalWords WordsOnly.srcDoh (<["dog" := 20005]> ∅) [("dog", 20005)]).
  - reflexivity.
  - vm_compute. reflexivity.
  - rewrite insert_empty, map_to_list_singleton. reflexivity.
Qed.

(** On rows with no period in the first field and whose token, in lower
    case, has only word characters the two versions of the worker do the
    same: the same map, or the same error. *)
Theorem versions_agree_on_plain_rows (rd : list readResult) (wordMap : gmap string Z) :
  forallb WordsOnly.plainRow rd = true ->
  WordsOnly.ingest rd wordMap = ingest rd wordMap.
Proof.
  revert wordMap. induction rd as [|x rd IH]; intros wordMap; [reflexivity|].
  cbn [forallb]. intros H. apply andb_true_iff in H as [Hx Hrd].
  cbn [WordsOnly.ingest ingest].
  destruct (Read 4 x) as [record|e] eqn:Er; [|reflexivity].
  assert (Hrec : WordsOnly.ingestRecord record wordMap = ingestRecord record wordMap).
  { destruct x as [fields|e]; [|discriminate]. simpl in Er.
    destruct (length fields =? 4)%nat; [|discriminate]. injection Er as <-.
    simpl in Hx. apply andb_true_iff in Hx as [Hp Hw].
    apply negb_true_iff in Hp, Hw.
    unfold WordsOnly.ingestRecord, ingestRecord.
    rewrite Hp, Hw. reflexivity. }
  rewrite Hrec. destruct (ingestRecord record wordMap); [apply IH, Hrd|reflexivity].
Qed.

End Tables.
End WordsOnlyFacts.
(** * Examples

    The properties above, applied to concrete inputs. The inputs are run with
    [exampleTables]; those made of ASCII bytes give the same result with
    every table. *)

#[local] Existing Instance exampleTables.

(** ** [strings.ToLower] *)

Example ToLower_Dog : ToLower "Dog_NOUN" = "dog_noun".
Proof. reflexivity. Qed.

Example runes_Ecole : runes Ecole = [0xC9; 0x63; 0x6F; 0x6C; 0x65].
Proof. vm_compute. reflexivity. Qed.

Example ToLower_Ecole : ToLower Ecole = ecole /\ ToLower ecole = ecole.
Proof. split; vm_compute; reflexivity. Qed.

Example ToLower_kelvin : ToLower kelvin = "k".
Proof. vm_compute. reflexivity. Qed.

(** A byte that starts no character is read as U+FFFD and written as its
    three bytes. *)
Example ToLower_invalid :
  ToLower (String "255"%char "A")
  = String "239"%char (String "191"%char (String "189"%char "a")).
Proof. vm_compute. reflexivity. Qed.

(** A truncated sequence: the first byte alone is invalid, the second, a
    continuation byte, as well. *)
Example runes_truncated :
  runes (String "226"%char (String "130"%char EmptyString))
  = [RuneError; RuneError].
Proof. vm_compute. reflexivity. Qed.

Example EncodeRune_surrogate : EncodeRune 0xD800 = EncodeRune RuneError.
Proof. vm_compute. reflexivity. Qed.

(** [exampleTables] meets the two conditions on a case table. *)
Lemma exampleTables_lowersToLetters : lowersToLetters.
Proof.
  intros r Hr. unfold RuneSelf in *. cbn [lowerRune exampleTables].
  repeat match goal with
         | |- context [?a =? ?b] => destruct (Z.eqb_spec a b)
         end; lia.
Qed.

Lemma exampleTables_lowerIdempotent : lowerIdempotent.
Proof.
  intros r Hr Hv. unfold RuneSelf in Hr. cbn [lowerRune exampleTables].
  destruct (Z.eqb_spec r 0xC9) as [->|H1];
    [split; [vm_compute; left; split; [discriminate|reflexivity]|reflexivity]|].
  destruct (Z.eqb_spec r 0x212A) as [->|H2];
    [split; [vm_compute; left; split; [discriminate|reflexivity]|reflexivity]|].
  destruct (Z.eqb_spec r 0x130) as [->|H3];
    [split; [vm_compute; left; split; [discriminate|reflexivity]|reflexivity]|].
  split; [exact Hv|].
  unfold unicodeToLower, MaxASCII. destruct (Z.leb_spec r 0x7F); [lia|].
  cbn [lowerRune exampleTables].
  destruct (Z.eqb_spec r 0xC9); [contradiction|].
  destruct (Z.eqb_spec r 0x212A); [contradiction|].
  destruct (Z.eqb_spec r 0x130); [contradiction|]. reflexivity.
Qed.

(** ** The properties of the specification *)

Lemma parseTotal_counted_sum_witness :
  parseTotal [Rec ["1960,100,5,2"; "1950,50,3,1"]] = Ok 100 /\
  exists e, parseTotal [Rec ["1960,100,5,2"; "1961,12x,3,1"]] = Err e /\
            isParseError e = true.
Proof.
  split.
  - apply (proj1 (proj2 (parseTotal_counted_sum
                           ["1960,100,5,2"; "1950,50,3,1"]))).
    + reflexivity.
    + vm_compute. split; [discriminate | reflexivity].
  - apply (proj2 (proj2 (parseTotal_counted_sum
                           ["1960,100,5,2"; "1961,12x,3,1"]))).
    reflexivity.
Defined.

(** "Dog_NOUN" is counted under "dog", and "École_NOUN" under "école". *)
Lemma accepted_row_canonical_token_witness :
  ingestRecord ["Dog_NOUN"; "1960"; "60"; "1"] {[ "dog" := 50 ]}
    = Ok (<["dog" := 110]> {[ "dog" := 50 ]}) /\
  ingestRecord [String.append Ecole "_NOUN"; "1960"; "6000"; "1"]
               {[ ecole := 5000 ]}
    = Ok (<[ecole := 11000]> {[ ecole := 5000 ]}).
Proof.
  split.
  - exact (proj1 accepted_row_canonical_token
             "Dog_NOUN" "1960" "60" "1" 1960 60 {[ "dog" := 50 ]}
             eq_refl eq_refl ltac:(discriminate) eq_refl).
  - exact (proj1 accepted_row_canonical_token
             (String.append Ecole "_NOUN") "1960" "6000" "1" 1960 6000
             {[ ecole := 5000 ]}
             eq_refl eq_refl ltac:(discriminate) eq_refl).
Defined.

Lemma period_row_skipped_witness :
  ingest [Rec ["dog"; "1960"; "60"; "1"]; Rec ["e.g."; "year"; "many"; "1"]] ∅
    = ingest [Rec ["dog"; "1960"; "60"; "1"]] ∅.
Proof.
  exact (proj2 (proj2 (period_row_skipped "e.g." "year" "many" "1"
                         [Rec ["dog"; "1960"; "60"; "1"]] [] ∅ ∅ eq_refl))).
Defined.

Lemma row_processing_order_witness :
  (* a period hides a malformed year and count *)
  ingest [Rec ["e.g."; "year"; "many"; "1"]] ∅ = Ok ∅ /\
  (* a malformed year is fatal *)
  ingest [Rec ["dog"; "year"; "60"; "1"]] ∅ = Err (NumError "year" ErrSyntax) /\
  (* a year before the cutoff hides a malformed count *)
  ingest [Rec ["dog"; "1959"; "many"; "1"]] ∅ = Ok ∅ /\
  (* a malformed count is fatal *)
  ingest [Rec ["dog"; "1960"; "many"; "1"]] ∅ = Err (NumError "many" ErrSyntax) /\
  (* an accepted row is added *)
  ingest [Rec ["dog"; "1960"; "60"; "1"]] ∅ = Ok (<["dog" := 60]> ∅).
Proof.
  pose (thm := fun raw year count =>
          row_processing_order raw year count "1" [] [] ∅ ∅).
  split; [exact (proj1 (thm "e.g." "year" "many") eq_refl)|].
  split; [exact (proj1 (proj1 (proj2 (thm "dog" "year" "60")) _ eq_refl eq_refl))|].
  split; [exact (proj1 (proj1 (proj2 (proj2 (thm "dog" "1959" "many")))
                          1959 eq_refl eq_refl eq_refl))|].
  split; [exact (proj1 (proj1 (proj2 (proj2 (proj2 (thm "dog" "1960" "many"))))
                          1960 _ eq_refl eq_refl ltac:(discriminate) eq_refl))|].
  exact (proj2 (proj2 (proj2 (proj2 (thm "dog" "1960" "60"))))
           1960 60 eq_refl eq_refl ltac:(discriminate) eq_refl).
Defined.

Lemma ingest_srcEcole : ingest (rows srcEcole) ∅ = Ok {[ ecole := 11000 ]}.
Proof. vm_compute. reflexivity. Qed.

Lemma goroutine_srcEcole (totalWords : Z) :
  goroutine totalWords srcEcole [EvWord (statOf totalWords ecole 11000); EvDone].
Proof.
  refine (goroutine_done totalWords srcEcole {[ ecole := 11000 ]}
            [(ecole, 11000)] eq_refl ingest_srcEcole _).
  rewrite map_to_list_singleton. reflexivity.
Qed.

(** A count of 10001 is sent and a count of 10000 is not; the rows for
    "École_NOUN" (6000) and "école" (5000) add up to 11000 under "école",
    which is sent. *)
Lemma aggregator_emits_above_threshold_witness :
  (statOf 100 "dog" 10001 ∈ wordsOf (emitAll 100 (map_to_list mapBoundary))) /\
  ("cat" ∉ map word (wordsOf (emitAll 100 (map_to_list mapBoundary)))) /\
  (statOf 100 ecole 11000 ∈ wordsOf [EvWord (statOf 100 ecole 11000); EvDone]) /\
  11000 = uint64 (summedCount ecole (rows srcEcole)).
Proof.
  assert (Hi : ingest (rows srcBoundary) ∅ = Ok mapBoundary)
    by (vm_compute; reflexivity).
  destruct (aggregator_emits_above_threshold 100 srcBoundary mapBoundary
              (emitAll 100 (map_to_list mapBoundary)) eq_refl Hi
              (goroutine_done 100 srcBoundary mapBoundary _ eq_refl Hi
                 (reflexivity _)))
    as (_ & _ & _ & Hcat & Hdog & _).
  split; [apply Hdog; vm_compute; reflexivity|].
  split; [apply Hcat; vm_compute; reflexivity|].
  destruct (aggregator_emits_above_threshold 100 srcEcole {[ ecole := 11000 ]}
              _ eq_refl ingest_srcEcole (goroutine_srcEcole 100))
    as (_ & _ & Hmem & _ & _ & Hsum).
  split.
  - apply Hmem. exists 11000.
    split; [vm_compute; reflexivity|]. split; reflexivity.
  - apply Hsum; [|vm_compute; reflexivity].
    intros Hin. repeat (apply elem_of_cons in Hin as [Hin|Hin]; [discriminate Hin|]).
    inversion Hin.
Defined.

Lemma collector_fails_atomically_witness :
  runIngestOn [srcDog; srcBadYear]
    [EvWord (statOf 100000 "dog" 20000); EvDone; EvErr (NumError "196o" ErrSyntax)]
  = Some ([], Some (NumError "196o" ErrSyntax)).
Proof.
  refine (proj2 (collector_fails_atomically 100000 [srcDog; srcBadYear] _ _ _)
            (NumError "196o" ErrSyntax) _).
  - exists [[EvWord (statOf 100000 "dog" 20000); EvDone];
            [EvErr (NumError "196o" ErrSyntax)]].
    split.
    + constructor; [|constructor; [|constructor]].
      * refine (goroutine_done 100000 srcDog (<["dog" := 20000]> ∅)
                  [("dog", 20000)] eq_refl _ _).
        -- vm_compute. reflexivity.
        -- rewrite insert_empty, map_to_list_singleton. reflexivity.
      * apply goroutine_read; [reflexivity|]. vm_compute. reflexivity.
    + apply (interleave_recv [] _ _ [_]).
      apply (interleave_recv [] _ _ [_]).
      apply (interleave_recv [[]] _ _ []).
      apply interleave_end. repeat constructor.
  - exists srcBadYear. split; [right; left|]. vm_compute. discriminate.
  - intros src e Hin Hw.
    apply elem_of_cons in Hin as [->|Hin]; [vm_compute in Hw; discriminate|].
    apply list_elem_of_singleton in Hin as ->.
    vm_compute in Hw. congruence.
Defined.

Lemma runIngest_without_sources_blocks_witness :
  runIngestOn [] [] = None.
Proof.
  apply (proj1 (proj2 (runIngest_without_sources_blocks 0)) []).
  exact (proj1 (runIngest_without_sources_blocks 0)).
Defined.

(** C8, refuted as stated: a raw token that starts with an underscore, such
    as the part-of-speech tag "_NOUN", is counted under the empty token, and
    the empty token is sent and returned like any other. *)
Lemma emitted_token_empty_counterexample :
  goroutine 100000 srcNoun [EvWord (statOf 100000 "" 20000); EvDone] /\
  runIngest 100000 [srcNoun] ([statOf 100000 "" 20000], None) /\
  word (statOf 100000 "" 20000) = "".
Proof.
  assert (Hg : goroutine 100000 srcNoun [EvWord (statOf 100000 "" 20000); EvDone]).
  { refine (goroutine_done 100000 srcNoun (<["" := 20000]> ∅) [("", 20000)]
              eq_refl _ _).
    - vm_compute. reflexivity.
    - rewrite insert_empty, map_to_list_singleton. reflexivity. }
  split; [exact Hg|]. split; [|reflexivity].
  exists [EvWord (statOf 100000 "" 20000); EvDone]. split.
  - exists [[EvWord (statOf 100000 "" 20000); EvDone]].
    split; [repeat constructor; exact Hg|apply interleave_single].
  - vm_compute. reflexivity.
Qed.

(** The token sent for "École_NOUN" and "école" is in lower case, and so is
    the empty token, sent by a source of ASCII tokens. *)
Lemma emitted_tokens_clean_witness : cleanToken ecole /\ cleanToken "".
Proof.
  split.
  - refine (proj1 (proj2 (emitted_tokens_clean 100000)
                     exampleTables_lowersToLetters exampleTables_lowerIdempotent)
              srcEcole [EvWord (statOf 100000 ecole 11000); EvDone]
              (statOf 100000 ecole 11000) (goroutine_srcEcole 100000) _).
    left.
  - refine (proj1 (emitted_tokens_clean 100000) srcNoun
              [EvWord (statOf 100000 "" 20000); EvDone]
              (statOf 100000 "" 20000) eq_refl _ _).
    + refine (goroutine_done 100000 srcNoun (<["" := 20000]> ∅) [("", 20000)]
                eq_refl _ _).
      * vm_compute. reflexivity.
      * rewrite insert_empty, map_to_list_singleton. reflexivity.
    + left.
Defined.

(** "École" itself is no such token: [strings.ToLower] changes it. *)
Example Ecole_not_clean : ~ cleanToken Ecole.
Proof. intros (_ & _ & _ & E). vm_compute in E. discriminate E. Qed.

(** C1, refuted as stated: [less] compares frequencies only, so two entries
    with equal frequencies stay in the order they were received in; "b"
    received before "a" is returned before "a". *)
Lemma ranker_ties_counterexample : ~ tiesByToken (sortSlice [statB; statA]).
Proof.
  intros H.
  specialize (H [] statB [] statA [] eq_refl eq_refl).
  vm_compute in H. discriminate H.
Qed.

Lemma ranker_sorted_by_frequency_witness :
  fge (frequency statC) (frequency statA) = true /\
  fge (frequency statB) (frequency statA) = true.
Proof.
  split.
  - apply (proj2 (proj1 ranker_sorted_by_frequency [statA; statC])
             [] statC statA []); reflexivity.
  - apply (proj2 ranker_sorted_by_frequency 100000 [srcB; srcA]
             [statB; statA] None [] statB statA []);
      [exact (proj1 runIngest_ties_by_arrival)|reflexivity].
Defined.

(** With the constant at its value in the program, 10000, the count of 110
    of the end-to-end example is below the threshold and the run returns
    nothing. *)
Example example_at_the_constant :
  forall out, runIngest 100 [srcExample] out <-> out = ([], None).
Proof.
  intros out.
  rewrite (runIngest_one_token 100 srcExample {[ "dog" := 110 ]} "dog" 110 out
             eq_refl ingest_srcExample (map_to_list_singleton _ _)).
  reflexivity.
Qed.

(** ** Further properties *)

Lemma parseTotal_first_error_witness :
  exists kind,
    parseTotal [Rec ["1960,100,5,2"; "1961,12x,3,1"; "x,y,z,w"]]
    = Err (NumError "12x" kind).
Proof.
  exact (parseTotal_first_error ["1960,100,5,2"] ["x,y,z,w"] "1961,12x,3,1"
           eq_refl eq_refl).
Defined.

Lemma parseTotal_order_of_groups_witness :
  match parseTotal [Rec ["1960,100,5,2"; "1950,50,3,1"; "1970,7,1,1"]],
        parseTotal [Rec ["1950,50,3,1"; "1970,7,1,1"; "1960,100,5,2"]] with
  | Ok total, Ok total' => total = total'
  | Err _, Err _ => True
  | _, _ => False
  end.
Proof.
  apply parseTotal_order_of_groups.
  apply (Permutation_cons_app ["1950,50,3,1"; "1970,7,1,1"] []); reflexivity.
Defined.

Lemma worker_first_error_witness :
  ingest [Rec ["dog"; "1960"; "60"; "1"]; Rec ["e.g."; "1960"; "7"];
          Rec ["cat"; "196o"; "5"; "1"]] ∅ = Err ErrFieldCount.
Proof.
  refine (proj1 (worker_first_error [Rec ["dog"; "1960"; "60"; "1"]]
                   [Rec ["cat"; "196o"; "5"; "1"]] (Rec ["e.g."; "1960"; "7"])
                   ∅ ErrFieldCount _ eq_refl)).
  repeat constructor; discriminate.
Defined.

(** Counts that add up to 0 leave the token in the map; the rows for
    "École_NOUN" and "école" are summed under "école", and nothing is held
    under "École". *)
Lemma worker_map_characterised_witness :
  (<["dog" := 0]> ∅ : gmap string Z) !! "dog" = Some 0 /\
  ({[ ecole := 11000 ]} : gmap string Z) !! ecole = Some 11000 /\
  ({[ ecole := 11000 ]} : gmap string Z) !! Ecole = None.
Proof.
  assert (H : ingest (map Rec [["Dog_NOUN"; "1960"; "-5"; "1"];
                               ["dog"; "1961"; "5"; "1"]]) ∅
              = Ok (<["dog" := 0]> ∅)) by (vm_compute; reflexivity).
  assert (He : ingest (map Rec [[String.append Ecole "_NOUN"; "1960"; "6000"; "1"];
                                [ecole; "1961"; "5000"; "1"]]) ∅
               = Ok {[ ecole := 11000 ]}) by (vm_compute; reflexivity).
  split; [exact (worker_map_characterised _ _ "dog" H)|].
  split; [exact (worker_map_characterised _ _ ecole He)|].
  exact (worker_map_characterised _ _ Ecole He).
Defined.

Lemma worker_order_of_rows_witness :
  ingest (map Rec [["dog"; "1961"; "5"; "1"]; ["Dog_NOUN"; "1960"; "60"; "1"]]) ∅
  = Ok (<["dog" := 65]> ∅).
Proof.
  apply (worker_order_of_rows
           [["Dog_NOUN"; "1960"; "60"; "1"]; ["dog"; "1961"; "5"; "1"]]).
  - apply perm_swap.
  - vm_compute. reflexivity.
Defined.

Lemma collector_returns_every_entry_witness :
  length (entriesFor "dog" [statOf 100000 "dog" 20000; statOf 100000 "dog" 20000])
  = 2%nat.
Proof.
  assert (Hg : goroutine 100000 srcDog [EvWord (statOf 100000 "dog" 20000); EvDone]).
  { refine (goroutine_done 100000 srcDog (<["dog" := 20000]> ∅) [("dog", 20000)]
              eq_refl _ _).
    - vm_compute. reflexivity.
    - rewrite insert_empty, map_to_list_singleton. reflexivity. }
  refine (proj2 (proj2 (collector_returns_every_entry 100000 [srcDog; srcDog]
                          _ None ltac:(discriminate) _ _)) "dog").
  - intros src Hin.
    apply elem_of_cons in Hin as [->|Hin]; [vm_compute; reflexivity|].
    apply list_elem_of_singleton in Hin as ->. vm_compute. reflexivity.
  - exists [EvWord (statOf 100000 "dog" 20000); EvDone;
            EvWord (statOf 100000 "dog" 20000); EvDone]. split.
    + exists [[EvWord (statOf 100000 "dog" 20000); EvDone];
              [EvWord (statOf 100000 "dog" 20000); EvDone]].
      split; [repeat constructor; exact Hg|].
      apply (interleave_concat [[_; _]; [_; _]]).
    + vm_compute. reflexivity.
Defined.

Lemma runIngest_terminates_witness :
  exists out, runIngest 100 [srcExample; srcBadYear] out.
Proof.
  exact (proj1 (runIngest_terminates 100 [srcExample; srcBadYear]
                  ltac:(discriminate))).
Defined.

Lemma runIngest_any_failing_worker_witness :
  runIngest 100000 [srcTruncated; srcDog; srcBadYear]
    ([], Some (NumError "196o" ErrSyntax)) /\
  runIngest 100000 [srcTruncated; srcDog; srcBadYear]
    ([], Some (IOError "unexpected EOF")).
Proof.
  assert (H : exists src, src ∈ [srcTruncated; srcDog; srcBadYear] /\
                          workerError src <> None).
  { exists srcBadYear. split; [right; right; left|]. vm_compute. discriminate. }
  split; apply (runIngest_any_failing_worker 100000 _ _ H).
  - exists srcBadYear, (NumError "196o" ErrSyntax).
    split; [right; right; left|]. split; [vm_compute|]; reflexivity.
  - exists srcTruncated, (IOError "unexpected EOF").
    split; [left|]. split; [vm_compute|]; reflexivity.
Defined.

Lemma emitted_frequency_shape_witness :
  frequency (statOf 0 "dog" 20000) = S754_infinity false.
Proof.
  refine (proj2 (proj2 (emitted_frequency_shape 0 srcDog
                          [EvWord (statOf 0 "dog" 20000); EvDone]
                          (statOf 0 "dog" 20000) _ _ _)) eq_refl).
  - split; [discriminate|reflexivity].
  - refine (goroutine_done 0 srcDog (<["dog" := 20000]> ∅) [("dog", 20000)]
              eq_refl _ _).
    + vm_compute. reflexivity.
    + rewrite insert_empty, map_to_list_singleton. reflexivity.
  - left.
Defined.

Lemma negative_count_wraps_witness :
  ingestRecord ["dog"; "1960"; "-1"; "1"] ∅
  = Ok (<["dog" := 2 ^ 64 + -1]> ∅).
Proof.
  exact (proj1 (negative_count_wraps "dog" "1960" "-1" "1" 1960 (-1) ∅
                  eq_refl eq_refl ltac:(discriminate) eq_refl eq_refl eq_refl)).
Defined.

Lemma main_ignores_totals_error_witness :
  (exists files, prepare worldBadTotals = inr (0, files)) /\
  exists token, ["dog"; "+Inf"] = [token; formatInf (S754_infinity false)].
Proof.
  assert (Hmain : main formatInf worldBadTotals (Returns [["dog"; "+Inf"]])).
  { unfold main.
    assert (Hprep : prepare worldBadTotals = inr (0, [srcDog]))
      by (vm_compute; reflexivity).
    rewrite Hprep. left. exists ([statOf 0 "dog" 20000], None).
    split; [apply runIngest_srcDog|reflexivity]. }
  destruct (main_ignores_totals_error formatInf worldBadTotals
              [Rec ["1960,many,5,2"]] (NumError "many" ErrSyntax)
              [["dog"; "+Inf"]] eq_refl eq_refl Hmain) as [Hprep Hall].
  split; [exact Hprep|]. apply Hall. left.
Defined.

Lemma main_without_data_files_blocks_witness : main formatInf worldNoData Blocks.
Proof.
  apply (main_without_data_files_blocks formatInf worldNoData 0 Blocks); reflexivity.
Defined.

Lemma main_reads_output_argument_last_witness : main formatInf worldNoOutArg Panics.
Proof.
  apply (main_reads_output_argument_last formatInf worldNoOutArg 0 [srcDog] Panics).
  - vm_compute. reflexivity.
  - discriminate.
  - intros src Hin. apply list_elem_of_singleton in Hin as ->.
    vm_compute. reflexivity.
  - reflexivity.
  - reflexivity.
Defined.

Lemma main_writes_what_runIngest_returns_witness :
  exists total files words,
    prepare worldBadTotals = inr (total, files) /\
    runIngest total files (words, None) /\
    [["dog"; "+Inf"]] = map (csvOut formatInf) words.
Proof.
  apply main_writes_what_runIngest_returns.
  unfold main.
  assert (Hprep : prepare worldBadTotals = inr (0, [srcDog]))
    by (vm_compute; reflexivity).
  rewrite Hprep. left. exists ([statOf 0 "dog" 20000], None).
  split; [apply runIngest_srcDog|reflexivity].
Defined.

(** ** The version that groups consecutive rows *)

Lemma ingestFiles_groupedFiles :
  Grouped.ingestFiles 100 (map (fun records => Ok (map Rec records)) groupedFiles)
    Grouped.initial
  = Ok groupedState.
Proof. vm_compute. reflexivity. Qed.

Lemma grouped_entries_witness :
  Grouped.entriesOf 100
    (Grouped.groupAdjacent (Grouped.acceptedRows (concat groupedFiles)))
  = Grouped.wordStats groupedState.
Proof.
  symmetry.
  exact (proj1 (GroupedFacts.grouped_entries 100 groupedFiles _
                  ingestFiles_groupedFiles)).
Defined.

Lemma last_entry_keeps_zero_frequency_witness :
  frequency {| word := ecole; frequency := Grouped.zero |} = Grouped.zero.
Proof.
  apply (GroupedFacts.last_entry_keeps_zero_frequency 100
           (map (fun records => Ok (map Rec records)) groupedFiles)
           groupedState ingestFiles_groupedFiles).
  reflexivity.
Defined.

Lemma neighbouring_entries_differ_witness :
  word (statOf 100 "dog" 110) <> word (statOf 100 "cat" 4).
Proof.
  apply (GroupedFacts.neighbouring_entries_differ 100
           (map (fun records => Ok (map Rec records)) groupedFiles)
           groupedState ingestFiles_groupedFiles
           [statOf 100 "cat" 3] _ _
           [{| word := ecole; frequency := Grouped.zero |}]).
  reflexivity.
Defined.

(** ** The version that drops tokens with non-word characters *)

(** The Kelvin sign is lowered to "k", passes the filter and is sent. *)
Lemma goroutine_srcKelvin :
  WordsOnly.goroutine 100 srcKelvin [EvWord (statOf 100 "k" 20000); EvDone].
Proof.
  apply (WordsOnly.worker_done 100 srcKelvin (<["k" := 20000]> ∅) [("k", 20000)]).
  - reflexivity.
  - vm_compute. reflexivity.
  - rewrite insert_empty, map_to_list_singleton. reflexivity.
Qed.

Lemma emitted_tokens_alphanumeric_witness :
  WordsOnly.lowerAlnum (word (statOf 100 "k" 20000)) = true /\
  WordsOnly.lowerAlnum (word (statOf 100 "dog" 20005)) = true.
Proof.
  split.
  - apply (WordsOnlyFacts.emitted_tokens_alphanumeric 100 srcKelvin
             [EvWord (statOf 100 "k" 20000); EvDone] _
             exampleTables_lowersToLetters goroutine_srcKelvin).
    left.
  - apply (WordsOnlyFacts.emitted_tokens_alphanumeric 100 WordsOnly.srcDoh
             [EvWord (statOf 100 "dog" 20005); EvDone] _
             exampleTables_lowersToLetters
             (WordsOnlyFacts.srcDoh_goroutine 100)).
    left.
Defined.

Lemma versions_agree_on_plain_rows_witness :
  WordsOnly.ingest (rows srcBoundary) ∅ = ingest (rows srcBoundary) ∅.
Proof.
  apply WordsOnlyFacts.versions_agree_on_plain_rows. vm_compute. reflexivity.
Defined.
